(** * Study-session engine of the CSV flashcard app (src/App.tsx)

    A shallow embedding of the React component [App]: its state hooks become
    one record, every [setX] call becomes a queued update, and every event
    handler becomes a function from the render it closes over to the list of
    updates it queues.  Numbers that the source computes in double precision
    ([Math.round], [Math.floor], [Math.random]) are computed here with a
    round-to-nearest-even model of binary64 over [Z]. *)

From Stdlib Require Import ZArith Lia Bool List String Ascii Permutation.
From stdpp Require Import base list.

Open Scope Z_scope.

(* ===================================================================== *)
(** ** Double-precision arithmetic *)
(* ===================================================================== *)

(** A finite double is a signed mantissa and an exponent: [mk m e] stands
    for [m * 2^e].  The exponent range is left unbounded: every quantity of
    this program (queue lengths, cursor positions, the constants 0.3, 5 and
    100) is far from the overflow and the subnormal thresholds. *)
Module B64.

Record t := mk { mant : Z; expo : Z }.

Definition prec : Z := 53.

(** Integers below 2^53 are doubles. *)
Definition of_Z (n : Z) : t := mk n 0.

(** [n / (d * 2^e)] as a fraction of integers. *)
Definition scale_num (n e : Z) : Z := if e <? 0 then n * 2 ^ (- e) else n.
Definition scale_den (d e : Z) : Z := if e <? 0 then d else d * 2 ^ e.

(** The integer nearest to [N / D], ties to even. *)
Definition nearest_even (N D : Z) : Z :=
  let k := N / D in
  let r := N mod D in
  if 2 * r <? D then k
  else if D <? 2 * r then k + 1
  else if Z.even k then k else k + 1.

(** Exponent at which [n / d] has a mantissa of exactly [prec] bits. *)
Definition exponent (n d : Z) : Z :=
  let e0 := Z.log2 n - Z.log2 d - prec in
  if scale_num n e0 / scale_den d e0 <? 2 ^ prec then e0 else e0 + 1.

(** Correct rounding of the positive rational [n / d]. *)
Definition round_pos (n d : Z) : t :=
  let e := exponent n d in
  mk (nearest_even (scale_num n e) (scale_den d e)) e.

(** Correct rounding of [n / d], [d > 0]. *)
Definition round (n d : Z) : t :=
  if n =? 0 then mk 0 0
  else if n <? 0 then
    let r := round_pos (- n) d in mk (- mant r) (expo r)
  else round_pos n d.

(** [x * y] *)
Definition mul (x y : t) : t :=
  let e := expo x + expo y in
  round (scale_num (mant x * mant y) (- e)) (scale_den 1 (- e)).

(** [x / y], [y] not zero *)
Definition div (x y : t) : t :=
  let e := expo x - expo y in
  let n := scale_num (mant x) (- e) in
  let d := scale_den (mant y) (- e) in
  if d <? 0 then round (- n) (- d) else round n d.

(** [Math.floor] *)
Definition floor (x : t) : Z :=
  if expo x <? 0 then mant x / 2 ^ (- expo x) else mant x * 2 ^ expo x.

(** [Math.round]: the nearest integer, halves going up. *)
Definition jsround (x : t) : Z :=
  if expo x <? 0 then (2 * mant x + 2 ^ (- expo x)) / 2 ^ (1 - expo x)
  else mant x * 2 ^ expo x.

(** The value of [Math.random()]: a double in the interval [0, 1). *)
Definition unit_interval (r : t) : Prop :=
  0 <= mant r < 2 ^ prec /\ expo r < 0 /\ mant r < 2 ^ (- expo r).

(** The literal [0.3]. *)
Definition c0_3 : t := Eval vm_compute in round 3 10.

End B64.

(* ===================================================================== *)
(** ** Data model *)
(* ===================================================================== *)

(** A JavaScript string: its UTF-16 code units. *)
Definition text := list N.

(** [type QA = { q: string; a: string }] *)
Record QA := mkQA { q : text; a : text }.

(** [StudySet] of lib/supabase: the stored form of a deck. *)
Record Question := mkQuestion { question : text; answer : text }.
Record StudySet := mkStudySet { title : text; questions : list Question }.

(** The state hooks of [App] that the session engine reads or writes
    ([dark], [showList] and [savedSets] only drive the presentation). *)
Record State := mkState {
  rawRows : list QA;
  queue : list Z;
  idx : Z;
  flipped : bool;
  known : list Z;
  unknown : list Z;
  started : bool;
  shuffle : bool;
  reverse : bool;
  autoRepeatUnknown : bool;
  currentSetTitle : text;
  showSavedSets : bool
}.

(** The values passed to [useState]. *)
Definition initial : State :=
  mkState [] [] 0 false [] [] false true false true [] false.

(** A queued state update: [setX(v)] is [setX (const v)], [setX(f)] is
    [setX f].  React applies the queue in order before the next render. *)
Inductive Update :=
| setRawRows (f : list QA -> list QA)
| setQueue (f : list Z -> list Z)
| setIdx (f : Z -> Z)
| setFlipped (f : bool -> bool)
| setKnown (f : list Z -> list Z)
| setUnknown (f : list Z -> list Z)
| setStarted (f : bool -> bool)
| setShuffle (f : bool -> bool)
| setReverse (f : bool -> bool)
| setAutoRepeatUnknown (f : bool -> bool)
| setCurrentSetTitle (f : text -> text)
| setShowSavedSets (f : bool -> bool).

Definition apply_update (s : State) (u : Update) : State :=
  let '(mkState rr qu ix fl kn un st sh rv ar ti ss) := s in
  match u with
  | setRawRows f => mkState (f rr) qu ix fl kn un st sh rv ar ti ss
  | setQueue f => mkState rr (f qu) ix fl kn un st sh rv ar ti ss
  | setIdx f => mkState rr qu (f ix) fl kn un st sh rv ar ti ss
  | setFlipped f => mkState rr qu ix (f fl) kn un st sh rv ar ti ss
  | setKnown f => mkState rr qu ix fl (f kn) un st sh rv ar ti ss
  | setUnknown f => mkState rr qu ix fl kn (f un) st sh rv ar ti ss
  | setStarted f => mkState rr qu ix fl kn un (f st) sh rv ar ti ss
  | setShuffle f => mkState rr qu ix fl kn un st (f sh) rv ar ti ss
  | setReverse f => mkState rr qu ix fl kn un st sh (f rv) ar ti ss
  | setAutoRepeatUnknown f => mkState rr qu ix fl kn un st sh rv (f ar) ti ss
  | setCurrentSetTitle f => mkState rr qu ix fl kn un st sh rv ar (f ti) ss
  | setShowSavedSets f => mkState rr qu ix fl kn un st sh rv ar ti (f ss)
  end.

Definition apply_updates (us : list Update) (s : State) : State :=
  fold_left apply_update us s.

(** An event handler closes over the render it was created in and queues
    updates. *)
Definition Handler := State -> list Update.

(** A handler of the latest render runs against the state it closes over. *)
Definition dispatch (h : Handler) (s : State) : State :=
  apply_updates (h s) s.

(* ===================================================================== *)
(** ** Arrays *)
(* ===================================================================== *)

Definition len {A} (l : list A) : Z := Z.of_nat (length l).

(** [l[i]]: [undefined] (here [None]) outside the array. *)
Definition at_index {A} (l : list A) (i : Z) : option A :=
  if i <? 0 then None else l !! Z.to_nat i.

(** [l.includes(x)] *)
Definition includes (l : list Z) (x : Z) : bool := existsb (Z.eqb x) l.

(** [l.filter(x => x !== i)] *)
Definition remove_all (i : Z) (l : list Z) : list Z :=
  List.filter (fun x => negb (x =? i)) l.

(** [l.splice(start, 0, x)]: a negative start counts from the end, a start
    beyond the end appends. *)
Definition splice_insert {A} (l : list A) (start : Z) (x : A) : list A :=
  let n := len l in
  let st := if start <? 0 then Z.max (n + start) 0 else Z.min start n in
  take (Z.to_nat st) l ++ x :: drop (Z.to_nat st) l.

(** [[a[i], a[j]] = [a[j], a[i]]] for two positions of the array.  (With a
    position outside the array JavaScript would store [undefined]; the
    shuffle never asks for one, and the array is then left as it is.) *)
Definition swap {A} (l : list A) (i j : nat) : list A :=
  match l !! i, l !! j with
  | Some x, Some y => <[j:=x]> (<[i:=y]> l)
  | _, _ => l
  end.

(** [Array.from({ length: n }, (_, i) => i)] *)
Definition identity_queue (n : nat) : list Z := map Z.of_nat (seq 0 n).

(* ===================================================================== *)
(** ** Random source *)
(* ===================================================================== *)

(** The random source is the sequence of doubles that successive calls of
    [Math.random()] return. *)
Definition Random := nat -> B64.t.

Definition fair (rnd : Random) : Prop := forall k, B64.unit_interval (rnd k).

(** [Math.floor(Math.random() * n)] for the value [r] of [Math.random()]. *)
Definition random_below (r : B64.t) (n : Z) : Z :=
  B64.floor (B64.mul r (B64.of_Z n)).

(* ===================================================================== *)
(** ** Session engine *)
(* ===================================================================== *)

(** [shuffleArray]: the loop [for (let i = a.length - 1; i > 0; i--)];
    [k] counts the calls of [Math.random()] made so far. *)
Fixpoint shuffle_loop {A} (rnd : Random) (k : nat) (i : nat) (arr : list A)
  : list A :=
  match i with
  | O => arr
  | S i' =>
      let j := random_below (rnd k) (Z.of_nat i + 1) in
      shuffle_loop rnd (S k) i' (swap arr i (Z.to_nat j))
  end.

Definition shuffleArray {A} (rnd : Random) (arr : list A) : list A :=
  shuffle_loop rnd 0 (length arr - 1) arr.

Definition resetSession (rnd : Random) (n : nat) : Handler := fun s =>
  let base := identity_queue n in
  let qu := if shuffle s then shuffleArray rnd base else base in
  [ setQueue (const qu); setIdx (const 0); setFlipped (const false);
    setKnown (const []); setUnknown (const []); setStarted (const false) ].

Definition currentIndex (s : State) : Z :=
  default (-1) (at_index (queue s) (idx s)).

Definition total (s : State) : Z := len (queue s).

Definition progress (s : State) : Z :=
  if total s =? 0 then 0
  else B64.jsround
         (B64.mul (B64.div (B64.of_Z (idx s)) (B64.of_Z (total s)))
                  (B64.of_Z 100)).

Definition startSession : Handler := fun _ => [ setStarted (const true) ].

Definition toggleFlip : Handler := fun _ => [ setFlipped negb ].

Definition next : Handler := fun s =>
  if idx s <? len (queue s) - 1
  then [ setIdx (fun i => i + 1); setFlipped (const false) ]
  else [].

Definition prev : Handler := fun s =>
  if 0 <? idx s
  then [ setIdx (fun i => i - 1); setFlipped (const false) ]
  else [].

Definition markKnown : Handler := fun s =>
  let i := currentIndex s in
  if i <? 0 then []
  else
    (if includes (known s) i then [] else [ setKnown (fun k => k ++ [i]) ])
    ++ (if autoRepeatUnknown s
        then [ setUnknown (fun u => remove_all i u) ] else [])
    ++ next s.

(** Where [markUnknown] puts the duplicate: [r] is the value of
    [Math.random()], [copy] the queue the updater receives. *)
Definition minGap (copy : list Z) : Z :=
  Z.max 10 (B64.floor (B64.mul (B64.of_Z (len copy)) B64.c0_3)).

Definition insertAt (r : B64.t) (ix : Z) (copy : list Z) : Z :=
  Z.min (len copy) (ix + minGap copy + random_below r 5).

Definition markUnknown (r : B64.t) : Handler := fun s =>
  let i := currentIndex s in
  if i <? 0 then []
  else
    (if includes (unknown s) i then [] else [ setUnknown (fun u => u ++ [i]) ])
    ++ (if autoRepeatUnknown s
        then [ setQueue (fun qu => splice_insert qu (insertAt r (idx s) qu) i) ]
        else [])
    ++ next s.

(* ===================================================================== *)
(** ** Text utilities and the record normalizer *)
(* ===================================================================== *)

Open Scope N_scope.

(** What [\s] matches and [trim] strips: WhiteSpace and LineTerminator. *)
Definition is_space (c : N) : bool :=
  (c =? 9) || (c =? 10) || (c =? 11) || (c =? 12) || (c =? 13) || (c =? 32)
  || (c =? 160) || (c =? 5760) || ((8192 <=? c) && (c <=? 8202))
  || (c =? 8232) || (c =? 8233) || (c =? 8239) || (c =? 8287)
  || (c =? 12288) || (c =? 65279).

(** [[A-E]] and [\.] *)
Definition is_option_letter (c : N) : bool := (65 <=? c) && (c <=? 69).
Definition is_dot (c : N) : bool := c =? 46.

Definition newline : N := 10.
Definition space : N := 32.

(** [text.replace(/([A-E]\.)\s*/g, '\n$1 ')]: a left-to-right scan; after a
    marker the white space that follows it belongs to the match and is
    dropped ([skipping]), then the scan resumes. *)
Fixpoint replace_markers (skipping : bool) (t : text) : text :=
  match t with
  | [] => []
  | c :: rest =>
      if skipping && is_space c then replace_markers true rest
      else
        match rest with
        | d :: rest' =>
            if is_option_letter c && is_dot d
            then newline :: c :: d :: space :: replace_markers true rest'
            else c :: replace_markers false rest
        | [] => [c]
        end
  end.

Definition formatText (t : text) : text := replace_markers false t.

Fixpoint drop_spaces (t : text) : text :=
  match t with
  | [] => []
  | c :: rest => if is_space c then drop_spaces rest else t
  end.

(** [s.trim()] *)
Definition trim (t : text) : text :=
  rev (drop_spaces (rev (drop_spaces t))).

Close Scope N_scope.

(** The code units of an ASCII literal. *)
Definition utf16 (lit : string) : text :=
  map N_of_ascii (list_ascii_of_string lit).

(** A parsed cell is a string, or [null] / [undefined] ([None]); the parser
    is run without dynamic typing, so [String(v)] of a cell is the cell. *)
Definition cell := option text.

(** One element of [records: any[]]. *)
Inductive Record_ :=
| RFalsy                                   (* [!r] *)
| RArray (cells : list cell)               (* [Array.isArray(r)] *)
| RObject (fields : list (string * cell))  (* in [Object.keys] order *)
| ROther.                                  (* any other primitive *)

(** [r[k]]: nullish when the key is absent. *)
Fixpoint get (fields : list (string * cell)) (k : string) : cell :=
  match fields with
  | [] => None
  | (k', v) :: rest => if String.eqb k' k then v else get rest k
  end.

(** [x ?? y] *)
Definition nullish_or (x y : cell) : cell :=
  match x with Some _ => x | None => y end.

Infix "??" := nullish_or (at level 45, left associativity).

(** The body of the loop of [normalizeRecords]: what one record pushes. *)
Definition normalizeRecord (r : Record_) : list QA :=
  match r with
  | RFalsy => []
  | RArray cells =>
      match cells !! 0%nat ≫= id, cells !! 1%nat ≫= id with
      | Some q0, Some a0 =>
          if bool_decide (trim q0 ≠ [])
          then [ mkQA (formatText (trim q0)) (formatText (trim a0)) ]
          else []
      | _, _ => []
      end
  | RObject r =>
      let q0 := get r "question" ?? get r "Question" ?? get r "Q" ?? get r "q" in
      let a0 := get r "answer" ?? get r "Answer" ?? get r "A" ?? get r "a" in
      match q0, a0 with
      | Some q0, Some a0 =>
          [ mkQA (formatText (trim q0)) (formatText (trim a0)) ]
      | _, _ =>
          (* Fallback: take first two keys *)
          match map fst r with
          | k0 :: k1 :: _ =>
              match get r k0, get r k1 with
              | Some q2, Some a2 =>
                  if bool_decide (trim q2 ≠ [])
                  then [ mkQA (formatText (trim q2)) (formatText (trim a2)) ]
                  else []
              | _, _ => []
              end
          | _ => []
          end
      end
  | ROther => []
  end.

(** The loop [for (const r of records)] with [out.push]. *)
Definition normalizeRecords (records : list Record_) : list QA :=
  fold_left (fun out r => out ++ normalizeRecord r) records [].

(* ===================================================================== *)
(** ** Saving and loading a deck *)
(* ===================================================================== *)

(** [saveStudySet] builds the row it inserts, or refuses ([None], an alert)
    when the title is blank or the deck is empty. *)
Definition saveStudySet (s : State) : option StudySet :=
  if bool_decide (trim (currentSetTitle s) = []) || (length (rawRows s) =? 0)%nat
  then None
  else Some (mkStudySet (currentSetTitle s)
               (map (fun row => mkQuestion (q row) (a row)) (rawRows s))).

(** The deck that [loadStudySet] hands to [setRawRows]. *)
Definition loaded_rows (set : StudySet) : list QA :=
  map (fun x => mkQA (formatText (question x)) (formatText (answer x)))
      (questions set).

Definition loadStudySet (rnd : Random) (set : StudySet) : Handler := fun s =>
  let qas := loaded_rows set in
  [ setRawRows (const qas) ]
  ++ resetSession rnd (length qas) s
  ++ [ setCurrentSetTitle (const (title set)); setShowSavedSets (const false) ].

(** [handleFiles] once the parser has delivered [records].  The callback is
    memoized with no dependencies, so the [resetSession] it calls is the one
    of the first render. *)
Definition handleFiles (rnd : Random) (records : list Record_) : Handler :=
  fun _ =>
    let qas := normalizeRecords records in
    [ setRawRows (const qas) ] ++ resetSession rnd (length qas) initial.

(* ===================================================================== *)
(** ** Presentation layer: what reaches the engine *)
(* ===================================================================== *)

Record KeyboardEvent := mkKeyboardEvent { key : string; code : string }.

(** [onKey], for the render [s] it closes over; [r] is the value of
    [Math.random()] should [markUnknown] ask for one. *)
Definition onKey (r : B64.t) (e : KeyboardEvent) : Handler := fun s =>
  if negb (started s) then []
  else
    (if String.eqb (key e) " " || String.eqb (code e) "Space"
     then toggleFlip s else [])
    ++ (if String.eqb (key e) "ArrowRight" then next s else [])
    ++ (if String.eqb (key e) "ArrowLeft" then prev s else [])
    ++ (if String.eqb (key e) "1" then markKnown s else [])
    ++ (if String.eqb (key e) "2" then markUnknown r s else []).

(** The controls of the page that call into the engine. *)
Inductive Control :=
| ResetButton                          (* header *)
| LoadButton (set : StudySet)          (* saved sets *)
| FileInput (records : list Record_)   (* upload: parse completed *)
| ShuffleSwitch | RepeatSwitch | ReverseSwitch | StartButton
                                       (* upload card *)
| FlipButton | PrevButton | UnknownButton | KnownButton | NextButton
                                       (* study card *)
| SessionShuffleSwitch | SessionRepeatSwitch | SessionReverseSwitch.
                                       (* session options *)

(** Whether the JSX renders the control, enabled, for the state [s]. *)
Definition rendered (s : State) (c : Control) : bool :=
  let deck := negb (length (rawRows s) =? 0)%nat in
  match c with
  | ResetButton | FileInput _ => true
  | LoadButton _ => showSavedSets s
  | ShuffleSwitch | RepeatSwitch | ReverseSwitch => deck
  | StartButton => deck && negb (started s)
  | FlipButton | UnknownButton | KnownButton => deck && started s
  | PrevButton => deck && started s && negb (idx s =? 0)
  | NextButton => deck && started s && negb (len (queue s) - 1 <=? idx s)
  | SessionShuffleSwitch | SessionRepeatSwitch | SessionReverseSwitch =>
      deck && started s
  end.

(** The handler each control calls.  A [Switch] passes [!checked]. *)
Definition onClick (rnd : Random) (c : Control) : Handler := fun s =>
  match c with
  | ResetButton => resetSession rnd (length (rawRows s)) s
  | LoadButton set => loadStudySet rnd set s
  | FileInput records => handleFiles rnd records s
  | ShuffleSwitch => [ setShuffle (const (negb (shuffle s))) ]
  | RepeatSwitch | SessionRepeatSwitch =>
      [ setAutoRepeatUnknown (const (negb (autoRepeatUnknown s))) ]
  | ReverseSwitch | SessionReverseSwitch =>
      [ setReverse (const (negb (reverse s))) ]
  | StartButton => startSession s
  | FlipButton => toggleFlip s
  | PrevButton => prev s
  | UnknownButton => markUnknown (rnd 0%nat) s
  | KnownButton => markKnown s
  | NextButton => next s
  | SessionShuffleSwitch =>
      [ setShuffle (const (negb (shuffle s))) ]
      ++ resetSession rnd (length (rawRows s)) s
  end.

(** The page: the latest render, and the render whose [onKey] is the
    registered [keydown] listener.  [useCallback(..., [started, idx, queue])]
    hands out a new [onKey] only when one of the three changed. *)
Record App := mkApp { view : State; listener : State }.

Definition mount : App := mkApp initial initial.

Inductive Event :=
| Click (c : Control)
| KeyDown (e : KeyboardEvent).

Definition updates_of (rnd : Random) (ev : Event) (app : App) : list Update :=
  match ev with
  | Click c => if rendered (view app) c then onClick rnd c (view app) else []
  | KeyDown e => onKey (rnd 0%nat) e (listener app)
  end.

(** Every [setQueue] of the source stores a fresh array, so the queue is a
    new object exactly when a [setQueue] was queued. *)
Definition touches_queue (us : list Update) : bool :=
  existsb (fun u => match u with setQueue _ => true | _ => false end) us.

(** One event: the handler queues its updates, the page renders again, and
    [useCallback] compares [started], [idx] and [queue] with the ones the
    registered listener was created for; the effect registers the [onKey]
    of the new render only when one of them differs. *)
Definition step (rnd : Random) (ev : Event) (app : App) : App :=
  let us := updates_of rnd ev app in
  let s' := apply_updates us (view app) in
  let renewed :=
    negb (eqb (started s') (started (listener app)))
    || negb (idx s' =? idx (listener app))
    || touches_queue us in
  mkApp s' (if renewed then s' else listener app).

(** A run: each event comes with the random source it finds. *)
Definition run (evs : list (Random * Event)) (app : App) : App :=
  fold_left (fun ap re => step (fst re) (snd re) ap) evs app.

Inductive reachable : App -> Prop :=
| reach_mount : reachable mount
| reach_step rnd ev app : reachable app -> reachable (step rnd ev app).

(** The state after a successful navigation to position [i]: the cursor is
    at [i], the card shows its question side, nothing else has changed. *)
Definition moved (s : State) (i : Z) : State :=
  mkState (rawRows s) (queue s) i false (known s) (unknown s) (started s)
          (shuffle s) (reverse s) (autoRepeatUnknown s) (currentSetTitle s)
          (showSavedSets s).

(** The registered listener saw the cursor, the queue and the start flag of
    the latest render. *)
Definition synced (app : App) : Prop :=
  started (listener app) = started (view app)
  /\ idx (listener app) = idx (view app)
  /\ queue (listener app) = queue (view app).

(** Whether a text holds an option marker, a letter A to E followed by a
    dot. *)
Fixpoint has_marker (t : text) : bool :=
  match t with
  | [] => false
  | c :: rest =>
      match rest with
      | [] => false
      | d :: _ => (is_option_letter c && is_dot d) || has_marker rest
      end
  end.

(** Whether a text holds a character that is not white space. *)
Definition visible (t : text) : bool :=
  existsb (fun c => negb (is_space c)) t.

(** A record that [normalizeRecords] reads through the named columns:
    an object with a question key and an answer key. *)
Definition named_columns (r : Record_) : bool :=
  match r with
  | RObject r =>
      match get r "question" ?? get r "Question" ?? get r "Q" ?? get r "q",
            get r "answer" ?? get r "Answer" ?? get r "A" ?? get r "a" with
      | Some _, Some _ => true
      | _, _ => false
      end
  | _ => false
  end.

(** A stored deck: a multiple-choice card. *)
Definition choice_deck : State :=
  mkState (normalizeRecords
             [ RArray [Some (utf16 "Pick A. one B. two"); Some (utf16 "A")] ])
          [0] 0 false [] [] false true false true (utf16 "quiz") false.

(** The exchange of the positions [i] and [j] of an array. *)
Definition transpose (i j k : nat) : nat :=
  if decide (k = i) then j else if decide (k = j) then i else k.


(* ===================================================================== *)
(** ** Sample data *)
(* ===================================================================== *)

(** A random source whose every call returns 0. *)
Definition zero_source : Random := fun _ => B64.mk 0 (-1).

(** Three parsed rows of a file without header. *)
Definition three_rows : list Record_ :=
  [ RArray [Some (utf16 "Q1"); Some (utf16 "A1")];
    RArray [Some (utf16 "Q2"); Some (utf16 "A2")];
    RArray [Some (utf16 "Q3"); Some (utf16 "A3")] ].

(** A deck of [n] cards. *)
Definition deck_of (n : nat) : list QA :=
  map (fun _ => mkQA (utf16 "Q") (utf16 "A")) (seq 0 n).

(** The last card of a 200-card session, in file order. *)
Definition last_of_200 : State :=
  mkState (deck_of 200) (identity_queue 200) 199 false [] [] true false false
          true [] false.

(** The second card of a three-card session, in file order. *)
Definition second_of_3 : State :=
  mkState (deck_of 3) (identity_queue 3) 1 false [] [] true false false true
          [] false.

(** The first card of a shuffled 20-card session; the card is index 5. *)
Definition first_of_20 : State :=
  mkState (deck_of 20) (5 :: 0 :: 1 :: 2 :: 3 :: 4 :: map Z.of_nat (seq 6 14))
          0 false [] [] true true false true [] false.

(** A value of [Math.random()]: one half. *)
Definition one_half : B64.t := B64.mk 1 (-1).

Definition key_1 : KeyboardEvent := mkKeyboardEvent "1" "Digit1".
Definition key_right : KeyboardEvent := mkKeyboardEvent "ArrowRight" "ArrowRight".
Definition key_left : KeyboardEvent := mkKeyboardEvent "ArrowLeft" "ArrowLeft".

(** The page after the three rows were imported ... *)
Definition imported : App := step zero_source (Click (FileInput three_rows)) mount.

(** ... after the session was started ... *)
Definition studying : App := step zero_source (Click StartButton) imported.

(** ... and after two presses of the right arrow: the last card is shown. *)
Definition at_last_card : App :=
  run [ (zero_source, KeyDown key_right); (zero_source, KeyDown key_right) ]
      studying.

(* ===================================================================== *)
(** ** The card on screen, its rendering, export and copy *)
(* ===================================================================== *)

(** What [currentCard] evaluates to: [null], [undefined] (the deck has no
    row for the index and the card is not reversed), a [TypeError] (no row,
    and [base.a] is read), or a card. *)
Inductive Card :=
| NoCard
| UndefinedCard
| CardError
| ShownCard (c : QA).

Definition currentCard (s : State) : Card :=
  if currentIndex s <? 0 then NoCard
  else
    match at_index (rawRows s) (currentIndex s) with
    | Some base =>
        ShownCard (if reverse s then mkQA (a base) (q base) else base)
    | None => if reverse s then CardError else UndefinedCard
    end.

(** [text.split('\n')] *)
Fixpoint split_lines (t : text) : list text :=
  match t with
  | [] => [[]]
  | c :: rest =>
      if (c =? newline)%N then [] :: split_lines rest
      else
        match split_lines rest with
        | line :: lines => (c :: line) :: lines
        | [] => [[c]]
        end
  end.

(** What [.] of a regular expression does not match. *)
Definition is_line_terminator (c : N) : bool :=
  ((c =? 10) || (c =? 13) || (c =? 8232) || (c =? 8233))%N.

(** The last group of the pattern, any run of [.]: the characters up to
    the next line terminator. *)
Fixpoint until_line_end (t : text) : text :=
  match t with
  | [] => []
  | c :: rest => if is_line_terminator c then [] else c :: until_line_end rest
  end.

(** One element of the list [renderFormattedText] returns: an option with
    its badge letter and text, or a plain block. *)
Inductive Row :=
| OptionRow (badge : N) (body : text)
| PlainRow (body : text).

(** [part.match(...)] for the pattern marker, white space, rest of the
    line, and the element built from the match. *)
Definition render_part (part : text) : Row :=
  match part with
  | c :: d :: rest =>
      if is_option_letter c && is_dot d
      then OptionRow c (until_line_end (drop_spaces rest))
      else PlainRow part
  | _ => PlainRow part
  end.

Definition renderFormattedText (t : text) : list Row :=
  map render_part
      (List.filter (fun part => bool_decide (trim part <> []))
                   (split_lines t)).



(** [s.replace(/\n/g, ' ')] *)
Definition unbreak (t : text) : text :=
  map (fun c => if (c =? newline)%N then space else c) t.

(** The label of the answer in the copied text, a Korean word, a colon and
    a space. *)
Definition answer_label : text := [51221; 45813; 58; 32]%N.

(** [copyOriginalText]: the text written to the clipboard, if any. *)
Definition copyOriginalText (s : State) : option text :=
  match currentCard s with
  | ShownCard _ =>
      base ← at_index (rawRows s) (currentIndex s);
      Some (unbreak (q base) ++ newline :: newline :: answer_label
            ++ unbreak (a base))
  | _ => None
  end.

(* ===================================================================== *)
(** ** Notions used by the properties *)
(* ===================================================================== *)

(** The pages the app reaches with every click run on the latest render,
    when every [Math.random()] is in [0, 1) and every imported or loaded
    deck is an array. *)
Definition admissible (ev : Event) : Prop :=
  match ev with
  | Click (FileInput records) => len records < 2 ^ 32
  | Click (LoadButton set) => len (questions set) < 2 ^ 32
  | _ => True
  end.

(** Two controls of the page stay outside the engine: the header button
    that opens and closes the list of saved sets, and the title field of the
    upload card, rendered once there is a deck.  Neither changes [started],
    [idx] or [queue], so the registered listener stays. *)
Definition toggleSavedSets (app : App) : App :=
  mkApp (apply_update (view app)
           (setShowSavedSets (const (negb (showSavedSets (view app))))))
        (listener app).

Definition typeTitle (value : text) (app : App) : App :=
  if (length (rawRows (view app)) =? 0)%nat then app
  else mkApp (apply_update (view app) (setCurrentSetTitle (const value)))
             (listener app).

Inductive fairly_reachable : App -> Prop :=
| fair_mount : fairly_reachable mount
| fair_step rnd ev app :
    fair rnd -> admissible ev -> fairly_reachable app ->
    fairly_reachable (step rnd ev app)
| fair_saved_sets app :
    fairly_reachable app -> fairly_reachable (toggleSavedSets app)
| fair_title value app :
    fairly_reachable app -> fairly_reachable (typeTitle value app).

(** An index of the deck. *)
Definition row_index (s : State) (v : Z) : Prop := 0 <= v < len (rawRows s).

(** The session fits its deck: the queue holds row indices and misses none,
    the cursor is inside the queue (0 for an empty one), the two
    classification lists hold row indices, and a started session has a
    deck. *)
Definition well_formed (s : State) : Prop :=
  len (rawRows s) < 2 ^ 32
  /\ Forall (row_index s) (queue s)
  /\ (forall v, row_index s v -> In v (queue s))
  /\ 0 <= idx s
  /\ (idx s < len (queue s) \/ idx s = 0 /\ queue s = [])
  /\ Forall (row_index s) (known s)
  /\ Forall (row_index s) (unknown s)
  /\ (started s = true -> rawRows s <> []).

(** The render a handler closes over shows the cursor and the queue of the
    state its updates land on. *)
Definition agree (c v : State) : Prop :=
  idx c = idx v /\ queue c = queue v.

(** The number of option markers of a text. *)
Fixpoint count_markers (t : text) : nat :=
  match t with
  | [] => O
  | c :: rest =>
      match rest with
      | [] => O
      | d :: _ =>
          ((if is_option_letter c && is_dot d then 1 else 0)
           + count_markers rest)%nat
      end
  end.

(** Whether a line starts with an option marker. *)
Definition starts_with_marker (line : text) : bool :=
  match line with
  | c :: d :: _ => is_option_letter c && is_dot d
  | _ => false
  end.

(** The number of markers of a text that stand at the start of a line;
    [at_start] tells whether the text itself starts a line. *)
Fixpoint line_markers (at_start : bool) (t : text) : nat :=
  match t with
  | [] => O
  | c :: rest =>
      ((if at_start && starts_with_marker t then 1 else 0)
       + line_markers (c =? newline)%N rest)%nat
  end.


(** The events that replace the deck, and those that rebuild the queue. *)
Definition replaces_deck (ev : Event) : bool :=
  match ev with
  | Click (LoadButton _) | Click (FileInput _) => true
  | _ => false
  end.

Definition rebuilds_queue (ev : Event) : bool :=
  match ev with
  | Click ResetButton | Click SessionShuffleSwitch => true
  | _ => replaces_deck ev
  end.

(** The characters of a text that are not white space. *)
Definition ink (t : text) : text :=
  List.filter (fun c => negb (is_space c)) t.

(** The number of line feeds of a text. *)
Definition line_feeds (t : text) : nat := count_occ N.eq_dec t newline.

(** The position label of the study card: [idx + 1] of [queue.length] once
    the session has started, 0 of [queue.length] before. *)
Definition position_label (s : State) : Z * Z :=
  (if started s then idx s + 1 else 0, len (queue s)).

(** The order of two doubles with negative exponents. *)
Definition below (x y : B64.t) : Prop :=
  B64.mant x * 2 ^ (- B64.expo y) <= B64.mant y * 2 ^ (- B64.expo x).

Definition is_option_row (r : Row) : bool :=
  match r with OptionRow _ _ => true | PlainRow _ => false end.

(** The study card is a [motion.div] inside [AnimatePresence mode="wait"],
    keyed by [currentIndex], [flipped] and [reverse], and mounted while the
    deck is not empty and the session is started.  A render that changes
    the key does not replace the card at once: the card of the old key
    stays on screen, with the handlers of the render it was built from,
    until its exit animation has run; a card whose key is unchanged is
    rebuilt from the latest render. *)
Definition mounted (s : State) : bool :=
  negb (length (rawRows s) =? 0)%nat && started s.

Definition same_key (s c : State) : bool :=
  (currentIndex s =? currentIndex c) && Bool.eqb (flipped s) (flipped c)
  && Bool.eqb (reverse s) (reverse c).

(** The page together with the render its study card was built from. *)
Record Screen := mkScreen { page : App; card : State }.

(** The card on screen after a render [s'] of a page that showed [c] for
    the state [v]. *)
Definition shown (v c s' : State) : State :=
  if mounted v && mounted s' && negb (same_key s' c) then c else s'.

(** The buttons of the study card. *)
Definition on_card (c : Control) : bool :=
  match c with
  | FlipButton | PrevButton | UnknownButton | KnownButton | NextButton => true
  | _ => false
  end.

(** [disabled] of the two navigation buttons. *)
Definition enabled (s : State) (c : Control) : bool :=
  match c with
  | PrevButton => negb (idx s =? 0)
  | NextButton => negb (len (queue s) - 1 <=? idx s)
  | _ => true
  end.

(** The page after the updates [us] were applied: [step] for updates that
    any handler queued. *)
Definition land (us : list Update) (app : App) : App :=
  let s' := apply_updates us (view app) in
  let renewed :=
    negb (eqb (started s') (started (listener app)))
    || negb (idx s' =? idx (listener app))
    || touches_queue us in
  mkApp s' (if renewed then s' else listener app).

(** What happens on screen: an event of the page, the end of an exit
    animation, a click on the button of the saved sets, or typing in the
    title field. *)
Inductive ScreenEvent :=
| Input (ev : Event)
| ExitComplete
| SavedSetsButton
| TitleInput (value : text).

(** A click on a button of the study card runs the handler of the render
    the card was built from; every other control and the key listener are
    those of [updates_of]. *)
Definition screen_updates (rnd : Random) (ev : Event) (scr : Screen)
  : list Update :=
  match ev with
  | Click c =>
      if on_card c
      then if mounted (view (page scr)) && enabled (card scr) c
           then onClick rnd c (card scr) else []
      else updates_of rnd ev (page scr)
  | KeyDown _ => updates_of rnd ev (page scr)
  end.

Definition screen_step (rnd : Random) (sev : ScreenEvent) (scr : Screen)
  : Screen :=
  let v := view (page scr) in
  match sev with
  | Input ev =>
      let app' := land (screen_updates rnd ev scr) (page scr) in
      mkScreen app' (shown v (card scr) (view app'))
  | ExitComplete => mkScreen (page scr) v
  | SavedSetsButton =>
      let app' := toggleSavedSets (page scr) in
      mkScreen app' (shown v (card scr) (view app'))
  | TitleInput value =>
      let app' := typeTitle value (page scr) in
      mkScreen app' (shown v (card scr) (view app'))
  end.

Definition admissible_on_screen (sev : ScreenEvent) : Prop :=
  match sev with
  | Input ev => admissible ev
  | _ => True
  end.

(** The screens the app reaches, clicks on a leaving card included. *)
Inductive on_screen : Screen -> Prop :=
| on_mount : on_screen (mkScreen mount initial)
| on_step rnd sev scr :
    fair rnd -> admissible_on_screen sev -> on_screen scr ->
    on_screen (screen_step rnd sev scr).

(** The session without its cursor: the queue holds row indices and misses
    none, the two classification lists hold row indices, and a started
    session has a deck. *)
Definition deck_formed (s : State) : Prop :=
  len (rawRows s) < 2 ^ 32
  /\ Forall (row_index s) (queue s)
  /\ (forall v, row_index s v -> In v (queue s))
  /\ Forall (row_index s) (known s)
  /\ Forall (row_index s) (unknown s)
  /\ (started s = true -> rawRows s <> []).

(** The card under the cursor of a render is a row of the deck [s], or
    there is none. *)
Definition card_of (s c : State) : Prop :=
  currentIndex c < 0 \/ row_index s (currentIndex c).

(** What holds of every screen. *)
Definition screen_ok (scr : Screen) : Prop :=
  let v := view (page scr) in
  synced (page scr)
  /\ deck_formed v
  /\ (started v = false -> idx v = 0)
  /\ (mounted v = true ->
      rawRows (card scr) = rawRows v /\ card_of v (card scr)).

(** What a render keeps of the state it replaces: the session still fits
    its deck, an unstarted session is on its first entry, and a started one
    has the deck it had. *)
Definition tame (v s' : State) : Prop :=
  deck_formed s'
  /\ (started s' = false -> idx s' = 0)
  /\ (started s' = true -> rawRows s' = rawRows v).

(** The page after three rows were imported and the session was started,
    the same page after two clicks on the next button of the first card,
    which is leaving from the first click on, and after a third one. *)
Definition on_first_card : Screen :=
  screen_step zero_source (Input (Click StartButton))
    (screen_step zero_source (Input (Click (FileInput three_rows)))
       (mkScreen mount initial)).

Definition leaving_first : Screen :=
  screen_step zero_source (Input (Click NextButton))
    (screen_step zero_source (Input (Click NextButton)) on_first_card).

Definition overshot : Screen :=
  screen_step zero_source (Input (Click NextButton)) leaving_first.

(* ===================================================================== *)
(** * Properties *)
(* ===================================================================== *)

(** ** Rounding *)

Module B64_facts.
Import B64.

(** The powers of two that bound mantissas and array lengths, as literals
    for [lia] and [nia]. *)
Ltac pow2_literal k v :=
  repeat match goal with
         | |- context [2 ^ k] => change (2 ^ k) with v
         | H : context [2 ^ k] |- _ => change (2 ^ k) with v in H
         end.

Ltac pow2_literals :=
  pow2_literal 32 4294967296;
  pow2_literal 52 4503599627370496;
  pow2_literal 53 9007199254740992;
  pow2_literal 54 18014398509481984.

Lemma div_lt_inv a b c : 0 < b -> a / b < c -> a < c * b.
Proof.
  intros Hb H. pose proof (Z_div_mod_eq_full a b).
  pose proof (Z.mod_pos_bound a b Hb). nia.
Qed.

Lemma div_ge_inv a b c : 0 < b -> c <= a / b -> c * b <= a.
Proof.
  intros Hb H. pose proof (Z_div_mod_eq_full a b).
  pose proof (Z.mod_pos_bound a b Hb). nia.
Qed.

(** The chosen exponent leaves a mantissa of exactly 53 bits. *)
Lemma exponent_spec n d :
  0 < n -> 0 < d ->
  let e := exponent n d in
  0 < scale_den d e /\
  2 ^ 52 * scale_den d e <= scale_num n e < 2 ^ 53 * scale_den d e.
Proof.
  intros Hn Hd.
  pose proof (Z.log2_spec n Hn) as [Ha1 Ha2].
  pose proof (Z.log2_spec d Hd) as [Hb1 Hb2].
  pose proof (Z.log2_nonneg n) as Ha0.
  pose proof (Z.log2_nonneg d) as Hb0.
  rewrite Z.pow_succ_r in Ha2, Hb2 by assumption.
  unfold exponent, prec.
  set (a := Z.log2 n) in *. set (b := Z.log2 d) in *.
  set (e0 := a - b - 53).
  assert (H0 : 0 < scale_den d e0 /\
               2 ^ 52 * scale_den d e0 < scale_num n e0 < 2 ^ 54 * scale_den d e0).
  { unfold scale_num, scale_den. destruct (Z.ltb_spec e0 0) as [He|He].
    - assert (Hx : 2 ^ (- e0) * 2 ^ a = 2 ^ b * 2 ^ 53).
      { rewrite <- !Z.pow_add_r by lia. f_equal. lia. }
      assert (0 < 2 ^ (- e0)) by (apply Z.pow_pos_nonneg; lia).
      pow2_literals.
      nia.
    - assert (Hx : 2 ^ a = 2 ^ b * 2 ^ 53 * 2 ^ e0).
      { rewrite <- !Z.pow_add_r by lia. f_equal. lia. }
      assert (0 < 2 ^ e0) by (apply Z.pow_pos_nonneg; lia).
      pow2_literals.
      nia. }
  destruct H0 as (HD0 & Hlo & Hhi).
  destruct (Z.ltb_spec (scale_num n e0 / scale_den d e0) (2 ^ 53)) as [Hq|Hq].
  - apply div_lt_inv in Hq; [|assumption]. cbv zeta. lia.
  - apply div_ge_inv in Hq; [|assumption]. cbv zeta.
    revert HD0 Hlo Hhi Hq. unfold scale_num, scale_den.
    destruct (Z.ltb_spec e0 0) as [He|He];
      destruct (Z.ltb_spec (e0 + 1) 0) as [He'|He']; try lia.
    + replace (- e0) with (Z.succ (- (e0 + 1))) by lia.
      rewrite Z.pow_succ_r by lia.
      pow2_literals.
      change (2 ^ 54) with 18014398509481984. intros. nia.
    + replace e0 with (-1) by lia. change (-1 + 1) with 0. simpl (- -1).
      change (2 ^ 0) with 1. change (2 ^ 1) with 2.
      pow2_literals.
      change (2 ^ 54) with 18014398509481984. intros. nia.
    + replace (e0 + 1) with (Z.succ e0) by lia.
      rewrite Z.pow_succ_r by lia.
      pow2_literals.
      change (2 ^ 54) with 18014398509481984. intros. nia.
Qed.

(** Rounding to nearest moves by at most half a unit. *)
Lemma nearest_even_spec N D :
  0 < D ->
  let m := nearest_even N D in
  - D <= 2 * (m * D - N) <= D /\ (N mod D = 0 -> m = N / D).
Proof.
  intros HD. unfold nearest_even.
  pose proof (Z_div_mod_eq_full N D) as Heq.
  pose proof (Z.mod_pos_bound N D HD) as Hr.
  set (k := N / D) in *. set (r := N mod D) in *.
  destruct (Z.ltb_spec (2 * r) D); [split; [nia|easy]|].
  destruct (Z.ltb_spec D (2 * r)); [split; [nia|lia]|].
  destruct (Z.even k); (split; [nia|lia]).
Qed.

(** What [round_pos] returns: a 53-bit mantissa at the exponent of the
    value, within half a unit of it. *)
Lemma round_pos_spec n d :
  0 < n -> 0 < d ->
  let x := round_pos n d in
  let N := scale_num n (expo x) in
  let D := scale_den d (expo x) in
  0 < D /\ 2 ^ 52 * D <= N < 2 ^ 53 * D /\
  - D <= 2 * (mant x * D - N) <= D /\
  (N mod D = 0 -> mant x = N / D).
Proof.
  intros Hn Hd. pose proof (exponent_spec n d Hn Hd) as (HD & Hnorm).
  unfold round_pos. cbn [expo mant]. cbv zeta.
  pose proof (nearest_even_spec (scale_num n (exponent n d)) _ HD) as [? ?].
  auto.
Qed.

(** A product with a fractional part: the exact value as a fraction. *)
Lemma mul_frac x y :
  expo x + expo y < 0 ->
  mul x y = round (mant x * mant y) (2 ^ (- (expo x + expo y))).
Proof.
  intros He. unfold mul, scale_num, scale_den.
  destruct (Z.ltb_spec (- (expo x + expo y)) 0); [lia|].
  now rewrite Z.mul_1_l.
Qed.

Lemma round_pos_eq n d : 0 < n -> round n d = round_pos n d.
Proof.
  intros Hn. unfold round.
  destruct (Z.eqb_spec n 0); [lia|]. destruct (Z.ltb_spec n 0); [lia|easy].
Qed.

(** [Math.floor(Math.random() * n)] is one of [0 .. n-1]. *)
Lemma random_floor_range r n :
  unit_interval r -> 0 < n <= 2 ^ 52 ->
  0 <= floor (mul r (of_Z n)) < n.
Proof.
  intros (Hm & He & Hlt) Hn. destruct r as [m x]. cbn [mant expo] in *.
  rewrite mul_frac by (cbn; lia). cbn [mant expo of_Z]. rewrite Z.add_0_r.
  set (X := 2 ^ (- x)) in *.
  assert (HX : 0 < X) by (apply Z.pow_pos_nonneg; lia).
  destruct (Z.eqb_spec (m * n) 0) as [H0|H0].
  { rewrite H0. change (floor (round 0 X)) with 0. lia. }
  assert (Hmn : 0 < m * n) by nia.
  rewrite round_pos_eq by assumption.
  pose proof (round_pos_spec (m * n) X Hmn HX) as (HD & Hnorm & Hnear & _).
  cbv zeta in *. set (y := round_pos (m * n) X) in *.
  destruct y as [M E]. cbn [mant expo] in *.
  pow2_literals.
  change (2 ^ prec) with 9007199254740992 in *.
  unfold floor. cbn [mant expo].
  revert HD Hnorm Hnear. unfold scale_num, scale_den.
  destruct (Z.ltb_spec E 0) as [HE|HE].
  - set (Y := 2 ^ (- E)).
    assert (HY : 0 < Y) by (apply Z.pow_pos_nonneg; lia).
    intros HD Hnorm Hnear. split.
    + apply Z.div_pos; [nia|lia].
    + apply Z.div_lt_upper_bound; [lia|].
      destruct (Z_lt_le_dec M (Y * n)) as [|Hge]; [assumption|exfalso].
      assert (2 * n * Y * (X - m) <= X) by nia.
      assert (2 * n * Y <= X) by nia.
      nia.
  - assert (0 < 2 ^ E) by (apply Z.pow_pos_nonneg; lia).
    intros HD Hnorm Hnear. exfalso. nia.
Qed.

(** [Math.floor(n * 0.3)] is the exact [floor (3 n / 10)] for every
    array length [n]. *)
Lemma floor_times_0_3 n :
  0 <= n < 2 ^ 32 -> floor (mul (of_Z n) c0_3) = 3 * n / 10.
Proof.
  intros Hn. rewrite mul_frac by (cbn; lia).
  cbn [mant expo of_Z c0_3]. change (- (0 + -54)) with 54.
  destruct (Z.eqb_spec n 0) as [->|H0]; [reflexivity|].
  rewrite round_pos_eq by lia.
  pose proof (round_pos_spec (n * 5404319552844595) (2 ^ 54))
    as (HD & Hnorm & Hnear & _); [lia|reflexivity|].
  cbv zeta in *. destruct (round_pos _ _) as [M E]. cbn [mant expo] in *.
  unfold floor. cbn [mant expo].
  revert HD Hnorm Hnear. unfold scale_num, scale_den.
  pow2_literals.
  destruct (Z.ltb_spec E 0) as [HE|HE].
  - set (Y := 2 ^ (- E)).
    assert (HY : 0 < Y) by (apply Z.pow_pos_nonneg; lia).
    intros _ Hnorm Hnear.
    pose proof (Z_div_mod_eq_full (3 * n) 10) as Hk.
    pose proof (Z.mod_pos_bound (3 * n) 10 eq_refl) as Hrho.
    set (k := 3 * n / 10) in *. set (rho := (3 * n) mod 10) in *.
    assert (HP : 3 * (n * Y) = 10 * (k * Y) + rho * Y) by nia.
    assert (HR : 0 <= rho * Y <= 9 * Y) by nia.
    assert (HN : n * 5404319552844595 * Y = 5404319552844595 * (n * Y)) by ring.
    assert (HM : M * 18014398509481984 = 18014398509481984 * M) by ring.
    assert (HnY : (n * Y) * 4503599627370496 < 9007199254740992 * 18014398509481984) by nia.
    assert (HY21 : 2097152 < Y) by nia.
    symmetry. apply (Z.div_unique M Y k (M - Y * k)); [|ring].
    left. replace (Y * k) with (k * Y) by ring.
    rewrite HN, HM in *. clearbody Y k rho. clear HN HM Hk.
    generalize dependent (n * Y). generalize dependent (k * Y).
    generalize dependent (rho * Y). intros. lia.
  - assert (0 < 2 ^ E) by (apply Z.pow_pos_nonneg; lia).
    intros. exfalso. nia.
Qed.

Lemma div_of_Z i t : 0 < t -> div (of_Z i) (of_Z t) = round i t.
Proof.
  intros Ht. unfold div, of_Z. cbn [mant expo]. change (- (0 - 0)) with 0.
  unfold scale_num, scale_den. change (0 <? 0) with false. cbv iota.
  change (2 ^ 0) with 1. rewrite Z.mul_1_r.
  destruct (Z.ltb_spec t 0); [lia|reflexivity].
Qed.

(** [Math.round(i / t * 100)] for a position [i] of a [t]-element array. *)
Lemma percent_range i t :
  0 <= i < t ->
  0 <= jsround (mul (div (of_Z i) (of_Z t)) (of_Z 100)) <= 100.
Proof.
  intros Hi. rewrite div_of_Z by lia.
  destruct (Z.eqb_spec i 0) as [->|H0]; [now vm_compute|].
  rewrite round_pos_eq by lia.
  pose proof (round_pos_spec i t) as (HD1 & Hnorm1 & Hnear1 & _); [lia..|].
  cbv zeta in *. destruct (round_pos i t) as [M1 E1]. cbn [mant expo] in *.
  revert HD1 Hnorm1 Hnear1. unfold scale_num, scale_den.
  pow2_literals.
  destruct (Z.ltb_spec E1 0) as [HE1|HE1];
    [|assert (0 < 2 ^ E1) by (apply Z.pow_pos_nonneg; lia); intros; exfalso; nia].
  intros _ Hnorm1 Hnear1.
  rewrite mul_frac by (cbn; lia). cbn [mant expo of_Z]. rewrite Z.add_0_r.
  set (Y1 := 2 ^ (- E1)) in *.
  assert (HY1 : 0 < Y1) by (apply Z.pow_pos_nonneg; lia).
  assert (HM1 : 0 < M1 <= Y1) by nia.
  rewrite round_pos_eq by lia.
  pose proof (round_pos_spec (M1 * 100) Y1) as (HD2 & Hnorm2 & Hnear2 & _);
    [lia..|].
  cbv zeta in *. destruct (round_pos (M1 * 100) Y1) as [M2 E2].
  cbn [mant expo] in *.
  revert HD2 Hnorm2 Hnear2. unfold scale_num, scale_den, jsround.
  cbn [mant expo].
  pow2_literals.
  destruct (Z.ltb_spec E2 0) as [HE2|HE2];
    [|assert (0 < 2 ^ E2) by (apply Z.pow_pos_nonneg; lia); intros; exfalso; nia].
  intros _ Hnorm2 Hnear2.
  replace (1 - E2) with (Z.succ (- E2)) by lia.
  rewrite Z.pow_succ_r by lia.
  set (Y2 := 2 ^ (- E2)) in *.
  assert (HY2 : 0 < Y2) by (apply Z.pow_pos_nonneg; lia).
  assert (HM2 : 0 <= M2 <= 100 * Y2) by nia.
  split.
  - apply Z.div_pos; lia.
  - assert (Hlt : (2 * M2 + Y2) / (2 * Y2) < 101); [|lia].
    apply Z.div_lt_upper_bound; lia.
Qed.

(** Below 99.5 % of the way the rounded percentage is below 100. *)
Lemma percent_below_100 i t :
  0 <= i -> 0 < t < 2 ^ 32 -> 200 * i < 199 * t ->
  jsround (mul (div (of_Z i) (of_Z t)) (of_Z 100)) < 100.
Proof.
  intros Hi Ht Hlt. rewrite div_of_Z by lia.
  destruct (Z.eqb_spec i 0) as [->|H0]; [now vm_compute|].
  rewrite round_pos_eq by lia.
  pose proof (round_pos_spec i t) as (HD1 & Hnorm1 & Hnear1 & _); [lia..|].
  cbv zeta in *. destruct (round_pos i t) as [M1 E1]. cbn [mant expo] in *.
  revert HD1 Hnorm1 Hnear1. unfold scale_num, scale_den.
  pow2_literals.
  destruct (Z.ltb_spec E1 0) as [HE1|HE1];
    [|assert (0 < 2 ^ E1) by (apply Z.pow_pos_nonneg; lia); intros; exfalso; nia].
  intros _ Hnorm1 Hnear1.
  rewrite mul_frac by (cbn; lia). cbn [mant expo of_Z]. rewrite Z.add_0_r.
  set (Y1 := 2 ^ (- E1)) in *.
  assert (HY1 : 0 < Y1) by (apply Z.pow_pos_nonneg; lia).
  assert (HM1 : 0 < M1 <= Y1) by nia.
  rewrite round_pos_eq by lia.
  pose proof (round_pos_spec (M1 * 100) Y1) as (HD2 & Hnorm2 & Hnear2 & _);
    [lia..|].
  cbv zeta in *. destruct (round_pos (M1 * 100) Y1) as [M2 E2].
  cbn [mant expo] in *.
  revert HD2 Hnorm2 Hnear2. unfold scale_num, scale_den, jsround.
  cbn [mant expo].
  pow2_literals.
  destruct (Z.ltb_spec E2 0) as [HE2|HE2];
    [|assert (0 < 2 ^ E2) by (apply Z.pow_pos_nonneg; lia); intros; exfalso; nia].
  intros _ Hnorm2 Hnear2.
  replace (1 - E2) with (Z.succ (- E2)) by lia.
  rewrite Z.pow_succ_r by lia.
  set (Y2 := 2 ^ (- E2)) in *.
  assert (HY2 : 0 < Y2) by (apply Z.pow_pos_nonneg; lia).
  clearbody Y1 Y2.
  assert (Hi1 : i * Y1 <= (t - 1) * Y1) by (apply Z.mul_le_mono_nonneg_r; lia).
  assert (HY1big : 4503599627370496 < Y1).
  { destruct (Z_lt_le_dec 4503599627370496 Y1) as [|Hle]; [assumption|exfalso].
    assert ((t - 1) * Y1 <= (t - 1) * 4503599627370496)
      by (apply Z.mul_le_mono_nonneg_l; lia).
    lia. }
  assert (HMY : M1 * Y2 <= Y1 * Y2) by (apply Z.mul_le_mono_nonneg_r; lia).
  assert (HY2big : 35184372088832 <= Y2).
  { destruct (Z_lt_le_dec Y2 35184372088832) as [Hlt2|]; [exfalso|assumption].
    assert (Y1 * Y2 <= Y1 * 35184372088831)
      by (apply Z.mul_le_mono_nonneg_l; lia).
    lia. }
  assert (Hstep1 : 200 * (M1 * t) <= (199 * t - 1) * Y1 + 100 * t).
  { assert (200 * (i * Y1) <= (199 * t - 1) * Y1).
    { rewrite Z.mul_assoc. apply Z.mul_le_mono_nonneg_r; lia. }
    lia. }
  assert (Hstep2 : 2 * (M2 * Y1) <= Y1 + 200 * (M1 * Y2)) by lia.
  assert (Hstep3 : 2 * (M2 * Y1) * t <= Y1 * t + Y2 * (200 * (M1 * t))).
  { assert (2 * (M2 * Y1) * t <= (Y1 + 200 * (M1 * Y2)) * t)
      by (apply Z.mul_le_mono_nonneg_r; lia).
    replace (Y2 * (200 * (M1 * t))) with (200 * (M1 * Y2) * t) by ring. lia. }
  assert (Hstep4 : 2 * (M2 * Y1) * t
                   <= 199 * (Y1 * t) * Y2 + (Y1 * t - Y1 * Y2 + 100 * (t * Y2))).
  { assert (Y2 * (200 * (M1 * t)) <= Y2 * ((199 * t - 1) * Y1 + 100 * t))
      by (apply Z.mul_le_mono_nonneg_l; lia).
    replace (199 * (Y1 * t) * Y2 + (Y1 * t - Y1 * Y2 + 100 * (t * Y2)))
      with (Y1 * t + Y2 * ((199 * t - 1) * Y1 + 100 * t)) by ring.
    lia. }
  assert (Hneg : Y1 * t - Y1 * Y2 + 100 * (t * Y2) < 0).
  { assert (Y1 * t <= Y1 * 4294967295) by (apply Z.mul_le_mono_nonneg_l; lia).
    assert (t * Y2 <= 4294967295 * Y2) by (apply Z.mul_le_mono_nonneg_r; lia).
    assert (Y1 * 35184372088832 <= Y1 * Y2) by (apply Z.mul_le_mono_nonneg_l; lia).
    assert (4503599627370496 * Y2 <= Y1 * Y2) by (apply Z.mul_le_mono_nonneg_r; lia).
    lia. }
  assert (Hfin : (Y1 * t) * (2 * M2) < (Y1 * t) * (199 * Y2)).
  { replace (Y1 * t * (2 * M2)) with (2 * (M2 * Y1) * t) by ring.
    replace (Y1 * t * (199 * Y2)) with (199 * (Y1 * t) * Y2) by ring. lia. }
  apply Z.mul_lt_mono_pos_l in Hfin; [|apply Z.mul_pos_pos; lia].
  apply Z.div_lt_upper_bound; lia.
Qed.
(** From 99.5 % of the way on the rounded percentage is 100. *)
Lemma percent_100 i t :
  0 < t < 2 ^ 32 -> i < t -> 199 * t <= 200 * i ->
  jsround (mul (div (of_Z i) (of_Z t)) (of_Z 100)) = 100.
Proof.
  intros Ht Hi Hge.
  pose proof (percent_range i t) as Hrange.
  assert (Hlow : 100 <= jsround (mul (div (of_Z i) (of_Z t)) (of_Z 100)));
    [|lia].
  clear Hrange. rewrite div_of_Z by lia. rewrite round_pos_eq by lia.
  pose proof (round_pos_spec i t) as (HD1 & Hnorm1 & Hnear1 & _); [lia..|].
  cbv zeta in *. destruct (round_pos i t) as [M1 E1]. cbn [mant expo] in *.
  revert HD1 Hnorm1 Hnear1. unfold scale_num, scale_den.
  pow2_literals.
  destruct (Z.ltb_spec E1 0) as [HE1|HE1];
    [|assert (0 < 2 ^ E1) by (apply Z.pow_pos_nonneg; lia); intros; exfalso; nia].
  intros _ Hnorm1 Hnear1.
  rewrite mul_frac by (cbn; lia). cbn [mant expo of_Z]. rewrite Z.add_0_r.
  assert (HY1 : 0 < 2 ^ (- E1)) by (apply Z.pow_pos_nonneg; lia).
  assert (Hi1 : i * 2 ^ (- E1) <= (t - 1) * 2 ^ (- E1))
    by (apply Z.mul_le_mono_nonneg_r; lia).
  assert (HY1lt : 2 ^ 52 < 2 ^ (- E1)).
  { change (2 ^ 52) with 4503599627370496.
    destruct (Z_lt_le_dec 4503599627370496 (2 ^ (- E1))) as [|Hle]; [assumption|exfalso].
    assert ((t - 1) * 2 ^ (- E1) <= (t - 1) * 4503599627370496)
      by (apply Z.mul_le_mono_nonneg_l; lia).
    lia. }
  apply Z.pow_lt_mono_r_iff in HY1lt; [|lia..].
  assert (HY1big : 2 ^ 53 <= 2 ^ (- E1)) by (apply Z.pow_le_mono_r; lia).
  pow2_literals.
  set (Y1 := 2 ^ (- E1)) in *. clearbody Y1.
  assert (Hi2 : 199 * t * Y1 <= 200 * i * Y1)
    by (apply Z.mul_le_mono_nonneg_r; lia).
  assert (HM1 : 0 < M1) by nia.
  assert (HM1low : 198 * Y1 <= 200 * M1).
  { assert (198 * Y1 * t <= 200 * M1 * t) by nia.
    apply Z.mul_le_mono_pos_r with (p := t); lia. }
  rewrite round_pos_eq by lia.
  pose proof (round_pos_spec (M1 * 100) Y1) as (HD2 & Hnorm2 & Hnear2 & _);
    [lia..|].
  cbv zeta in *. destruct (round_pos (M1 * 100) Y1) as [M2 E2].
  cbn [mant expo] in *.
  revert HD2 Hnorm2 Hnear2. unfold scale_num, scale_den, jsround.
  cbn [mant expo].
  pow2_literals.
  destruct (Z.ltb_spec E2 0) as [HE2|HE2].
  2:{ assert (0 < 2 ^ E2) by (apply Z.pow_pos_nonneg; lia). intros. exfalso.
      assert (M1 <= Y1) by nia. nia. }
  intros _ Hnorm2 Hnear2.
  replace (1 - E2) with (Z.succ (- E2)) by lia.
  rewrite Z.pow_succ_r by lia.
  assert (HY2 : 0 < 2 ^ (- E2)) by (apply Z.pow_pos_nonneg; lia).
  assert (HY2lt : 2 ^ (- E2) < 2 ^ 47).
  { change (2 ^ 47) with 140737488355328.
    destruct (Z_lt_le_dec (2 ^ (- E2)) 140737488355328) as [|Hle]; [assumption|exfalso].
    assert (198 * Y1 * 2 ^ (- E2) <= 200 * M1 * 2 ^ (- E2))
      by (apply Z.mul_le_mono_nonneg_r; lia).
    assert (Y1 * 140737488355328 <= Y1 * 2 ^ (- E2))
      by (apply Z.mul_le_mono_nonneg_l; lia).
    lia. }
  apply Z.pow_lt_mono_r_iff in HY2lt; [|lia..].
  assert (HY2big : 2 ^ (- E2) <= 2 ^ 46) by (apply Z.pow_le_mono_r; lia).
  change (2 ^ 46) with 70368744177664 in HY2big.
  assert (Heven : 2 ^ (- E2) = 2 * 2 ^ (- E2 - 1)).
  { rewrite <- Z.pow_succ_r by lia. f_equal. lia. }
  set (Y2 := 2 ^ (- E2)) in *. set (Y2h := 2 ^ (- E2 - 1)) in *.
  clearbody Y2 Y2h.
  assert (Hstep1 : 199 * t * Y1 - 100 * t <= 200 * (M1 * t)) by lia.
  assert (Hstep2 : 200 * (M1 * Y2) - Y1 <= 2 * (M2 * Y1)) by lia.
  assert (Hstep3 : (199 * t * Y1 - 100 * t) * Y2 <= 200 * (M1 * t) * Y2)
    by (apply Z.mul_le_mono_nonneg_r; lia).
  assert (Hstep4 : (200 * (M1 * Y2) - Y1) * t <= 2 * (M2 * Y1) * t)
    by (apply Z.mul_le_mono_nonneg_r; lia).
  assert (Hstep5 : t * (199 * (Y1 * Y2) - 100 * Y2 - Y1) <= t * (2 * (M2 * Y1))).
  { replace (t * (199 * (Y1 * Y2) - 100 * Y2 - Y1))
      with ((199 * t * Y1 - 100 * t) * Y2 - Y1 * t) by ring.
    replace (200 * (M1 * t) * Y2) with (200 * (M1 * Y2) * t) in Hstep3 by ring.
    lia. }
  apply Z.mul_le_mono_pos_l in Hstep5; [|lia].
  assert (Hstep6 : Y1 * (199 * Y2 - 2) < Y1 * (2 * M2)).
  { replace (Y1 * (199 * Y2 - 2)) with (199 * (Y1 * Y2) - 2 * Y1) by ring.
    replace (Y1 * (2 * M2)) with (2 * (M2 * Y1)) by ring. lia. }
  apply Z.mul_lt_mono_pos_l in Hstep6; [|lia].
  apply Z.div_le_lower_bound; lia.
Qed.
End B64_facts.

(** ** Navigation *)

Section Navigation.
Variable s : State.

Lemma dispatch_next :
  dispatch next s =
  if idx s <? len (queue s) - 1 then moved s (idx s + 1) else s.
Proof.
  unfold dispatch, next. destruct (idx s <? len (queue s) - 1); [|reflexivity].
  now destruct s.
Qed.

Lemma dispatch_prev :
  dispatch prev s = if 0 <? idx s then moved s (idx s - 1) else s.
Proof.
  unfold dispatch, prev. destruct (0 <? idx s); [|reflexivity].
  now destruct s.
Qed.

(** C3: [next()] moves the cursor forward and turns the card face down
    when the cursor is before the last position and otherwise changes
    nothing (no wraparound); [prev()] moves it back and turns the card
    face down when the cursor is after the first position and otherwise
    changes nothing.  The flip flag is cleared by every successful move
    and untouched by a move that does nothing. *)
Theorem navigation_bounds :
  (dispatch next s =
     if idx s <? len (queue s) - 1 then moved s (idx s + 1) else s)
  /\ (dispatch prev s = if 0 <? idx s then moved s (idx s - 1) else s)
  /\ (forall i, idx (moved s i) = i /\ flipped (moved s i) = false
                /\ queue (moved s i) = queue s
                /\ known (moved s i) = known s
                /\ unknown (moved s i) = unknown s
                /\ started (moved s i) = started s).
Proof.
  split; [apply dispatch_next|]. split; [apply dispatch_prev|].
  intros i. now cbn.
Qed.

End Navigation.

(** ** The keyboard listener and the rendered controls *)


Lemma untouched_queue us : forall s,
  touches_queue us = false -> queue (apply_updates us s) = queue s.
Proof.
  induction us as [|u us IH]; intros s Hus; [reflexivity|].
  cbn in Hus. apply orb_false_elim in Hus as [Hu Hus].
  cbn. unfold apply_updates in IH. rewrite IH by assumption.
  destruct s, u; try reflexivity; discriminate.
Qed.

Lemma step_synced rnd ev app : synced app -> synced (step rnd ev app).
Proof.
  intros (Hst & Hidx & Hq). unfold synced, step. cbn [view listener].
  set (us := updates_of rnd ev app).
  destruct (eqb_spec (started (apply_updates us (view app))) (started (listener app)))
    as [Hs|Hs]; cbn [negb orb]; [|easy].
  destruct (Z.eqb_spec (idx (apply_updates us (view app))) (idx (listener app)))
    as [Hi|Hi]; cbn [negb orb]; [|easy].
  destruct (touches_queue us) eqn:Htq; [easy|].
  repeat split; try congruence.
  rewrite untouched_queue by assumption. congruence.
Qed.






(** C7 (the code breaks it): Known is meant to hold every index at most
    once, and a click on the button keeps it so; the registered key
    listener, though, is renewed only when [started], [idx] or [queue]
    change.  On the last card [markKnown] changes none of them, so a second
    press of the key 1 tests the [known] of the earlier render and appends
    the index again. *)
Theorem known_duplicated_by_key_repeat :
  reachable at_last_card
  /\ currentIndex (view at_last_card) = 0
  /\ known (view at_last_card) = []
  /\ known (view (run [ (zero_source, KeyDown key_1);
                        (zero_source, KeyDown key_1) ] at_last_card)) = [0; 0]
  /\ known (view (run [ (zero_source, Click KnownButton);
                        (zero_source, Click KnownButton) ] at_last_card)) = [0].
Proof.
  split; [repeat apply reach_step; apply reach_mount|].
  now vm_compute.
Qed.

(** C8 (the code breaks it): the switch of the session options queues the
    new shuffle value and then calls the [resetSession] of the current
    render, which still reads the old value, so the queue is rebuilt for the
    setting that was just left; the switch of the upload card queues the new
    value and resets nothing.  Turning shuffling off on the running sample
    session leaves the queue [1; 2; 0]. *)
Theorem shuffle_toggle_uses_old_setting :
  (forall rnd s,
     let s' := dispatch (onClick rnd SessionShuffleSwitch) s in
     shuffle s' = negb (shuffle s)
     /\ queue s' = if shuffle s
                   then shuffleArray rnd (identity_queue (length (rawRows s)))
                   else identity_queue (length (rawRows s)))
  /\ (forall rnd s,
        let s' := dispatch (onClick rnd ShuffleSwitch) s in
        shuffle s' = negb (shuffle s)
        /\ queue s' = queue s /\ idx s' = idx s
        /\ known s' = known s /\ unknown s' = unknown s)
  /\ (let app := step zero_source (Click SessionShuffleSwitch) studying in
      shuffle (view studying) = true
      /\ shuffle (view app) = false
      /\ queue (view app) = [1; 2; 0]
      /\ identity_queue 3 = [0; 1; 2])
  /\ (let app := step zero_source (Click ShuffleSwitch) at_last_card in
      shuffle (view app) = false
      /\ queue (view app) = [1; 2; 0]
      /\ idx (view app) = 2).
Proof.
  split; [|split; [|now vm_compute]].
  - intros rnd s. unfold dispatch. now destruct s as [? ? ? ? ? ? ? [] ? ? ? ?].
  - intros rnd s. unfold dispatch. now destruct s.
Qed.

(** ** Session reset *)

Section Shuffle.
Context {A : Type}.
Implicit Types (l arr : list A) (i j k : nat).
#[local] Open Scope nat_scope.

Lemma transpose_involutive i j k : transpose i j (transpose i j k) = k.
Proof. unfold transpose. repeat case_decide; congruence. Qed.

#[local] Instance transpose_inj i j : Inj (=) (=) (transpose i j).
Proof.
  intros k1 k2 Hk. rewrite <- (transpose_involutive i j k1), Hk.
  apply transpose_involutive.
Qed.

Lemma swap_length l i j : length (swap l i j) = length l.
Proof.
  unfold swap. destruct (l !! i), (l !! j); rewrite ?length_insert; reflexivity.
Qed.

Lemma swap_lookup l i j k :
  i < length l -> j < length l ->
  swap l i j !! k = l !! transpose j i k.
Proof.
  intros Hi Hj. unfold swap, transpose.
  destruct (lookup_lt_is_Some_2 l i Hi) as [x Hx].
  destruct (lookup_lt_is_Some_2 l j Hj) as [y Hy].
  rewrite Hx, Hy, !list_lookup_insert, !length_insert.
  repeat case_decide; subst; try congruence; lia.
Qed.

Lemma swap_perm l i j : i < length l -> j < length l -> swap l i j ≡ₚ l.
Proof.
  intros Hi Hj. apply Permutation_inj. split; [apply swap_length|].
  exists (transpose j i). split; [apply _|].
  intros k. now apply swap_lookup.
Qed.

Lemma shuffle_loop_perm rnd : forall i k arr,
  fair rnd -> i < length arr -> (Z.of_nat (length arr) <= 2 ^ 52)%Z ->
  shuffle_loop rnd k i arr ≡ₚ arr.
Proof.
  induction i as [|i IH]; intros k arr Hfair Hi Hlen; [reflexivity|].
  cbn [shuffle_loop]. unfold random_below.
  pose proof (B64_facts.random_floor_range (rnd k) (Z.of_nat (S i) + 1)%Z
                (Hfair k)) as Hj.
  set (j := B64.floor _) in *.
  assert (Hj' : (0 <= j < Z.of_nat (S i) + 1)%Z) by (apply Hj; lia).
  assert (Z.to_nat j < length arr) by lia.
  rewrite IH; [apply swap_perm; lia|assumption|rewrite swap_length; lia..].
Qed.

Lemma shuffleArray_perm rnd arr :
  fair rnd -> (Z.of_nat (length arr) <= 2 ^ 52)%Z ->
  shuffleArray rnd arr ≡ₚ arr.
Proof.
  intros Hfair Hlen. unfold shuffleArray. destruct arr as [|x arr]; [reflexivity|].
  apply shuffle_loop_perm; [assumption|cbn; lia|assumption].
Qed.

End Shuffle.

Lemma identity_queue_NoDup n : NoDup (identity_queue n).
Proof. unfold identity_queue. apply (NoDup_fmap_2 Z.of_nat), NoDup_seq. Qed.

Lemma identity_queue_In n v : In v (identity_queue n) <-> 0 <= v < Z.of_nat n.
Proof.
  unfold identity_queue. rewrite in_map_iff. split.
  - intros (i & <- & Hi). apply in_seq in Hi. lia.
  - intros Hv. exists (Z.to_nat v). split; [lia|]. apply in_seq. lia.
Qed.

Lemma resetSession_effect rnd n c s :
  let s' := apply_updates (resetSession rnd n c) s in
  queue s' = (if shuffle c then shuffleArray rnd (identity_queue n)
              else identity_queue n)
  /\ idx s' = 0 /\ flipped s' = false /\ known s' = [] /\ unknown s' = []
  /\ started s' = false.
Proof. now destruct s. Qed.

(** C2: whatever the random source returns, [resetSession(n)] leaves a queue
    that is a permutation of [0 .. n-1] holding each index exactly once (the
    identity sequence when the shuffle setting it reads is off), with the
    cursor at 0, the card face down, Known and Unknown empty and the session
    not started.  [n] is the length of an array. *)
Theorem resetSession_builds_permutation rnd n c s :
  fair rnd -> Z.of_nat n < 2 ^ 32 ->
  let s' := apply_updates (resetSession rnd n c) s in
  queue s' ≡ₚ identity_queue n
  /\ NoDup (queue s')
  /\ (forall v, 0 <= v < Z.of_nat n -> count_occ Z.eq_dec (queue s') v = 1%nat)
  /\ (shuffle c = false -> queue s' = identity_queue n)
  /\ idx s' = 0 /\ flipped s' = false /\ known s' = [] /\ unknown s' = []
  /\ started s' = false.
Proof.
  intros Hfair Hn s'.
  destruct (resetSession_effect rnd n c s) as (Hq & Hrest). fold s' in Hq, Hrest.
  assert (Hperm : queue s' ≡ₚ identity_queue n).
  { rewrite Hq. destruct (shuffle c); [|reflexivity].
    apply shuffleArray_perm; [assumption|].
    unfold identity_queue. rewrite length_map, length_seq.
    change (2 ^ 32) with 4294967296 in Hn. change (2 ^ 52) with 4503599627370496.
    lia. }
  assert (Hnodup : NoDup (queue s')).
  { rewrite Hperm. apply identity_queue_NoDup. }
  split; [exact Hperm|]. split; [exact Hnodup|]. split; [|split; [|exact Hrest]].
  - intros v Hv. apply NoDup_count_occ'; [now apply NoDup_ListNoDup|].
    eapply Permutation_in; [symmetry; exact Hperm|]. now apply identity_queue_In.
  - intros Hoff. now rewrite Hq, Hoff.
Qed.

Lemma zero_source_fair : fair zero_source.
Proof. intros k. repeat split; now vm_compute. Qed.

Lemma resetSession_builds_permutation_witness :
  fair zero_source /\ Z.of_nat 3 < 2 ^ 32
  /\ queue (apply_updates (resetSession zero_source 3 initial) initial)
       ≡ₚ identity_queue 3.
Proof.
  split; [apply zero_source_fair|]. split; [reflexivity|].
  apply (resetSession_builds_permutation zero_source 3 initial initial).
  - apply zero_source_fair.
  - reflexivity.
Defined.

(** ** Progress *)

(** C4 (as amended): the progress value is [Math.round(idx / total * 100)]
    for a non-empty queue and 0 for an empty one; at a valid position it
    lies in [0, 100], the upper end included: it is below 100 as long as the
    cursor is less than 99.5 % of the way through the queue and 100 from
    there on (for a queue that is an array, of length below 2^32). *)
Theorem progress_range s :
  (total s = 0 -> progress s = 0)
  /\ (0 < total s ->
      progress s = B64.jsround (B64.mul (B64.div (B64.of_Z (idx s))
                                                 (B64.of_Z (total s)))
                                        (B64.of_Z 100)))
  /\ (0 <= idx s < total s -> 0 <= progress s <= 100)
  /\ (0 <= idx s < total s -> total s < 2 ^ 32 ->
      (progress s < 100 <-> 200 * idx s < 199 * total s)).
Proof.
  unfold progress. split; [now intros ->|].
  split; [intros Ht; destruct (Z.eqb_spec (total s) 0); [lia|reflexivity]|].
  split.
  - intros Hi. destruct (Z.eqb_spec (total s) 0); [lia|].
    now apply B64_facts.percent_range.
  - intros Hi Ht. destruct (Z.eqb_spec (total s) 0); [lia|].
    split.
    + intros Hlt. destruct (Z_lt_le_dec (200 * idx s) (199 * total s)) as [|Hge];
        [assumption|].
      rewrite B64_facts.percent_100 in Hlt; lia.
    + intros Hlt. apply B64_facts.percent_below_100; lia.
Qed.

Lemma progress_range_witness :
  0 <= idx second_of_3 < total second_of_3
  /\ 0 <= progress second_of_3 <= 100
  /\ progress second_of_3 < 100.
Proof.
  destruct (progress_range second_of_3) as (_ & _ & Hrange & Hbelow).
  assert (Hi : 0 <= idx second_of_3 < total second_of_3) by now vm_compute.
  split; [exact Hi|]. split; [exact (Hrange Hi)|].
  apply (Hbelow Hi); now vm_compute.
Defined.

(** C4 as stated fails: on the last card of a 200-card queue the cursor is
    a valid position and the progress value is 100. *)
Lemma progress_reaches_100 :
  0 <= idx last_of_200 < total last_of_200 /\ progress last_of_200 = 100.
Proof. now vm_compute. Qed.

(** ** Classification *)

Lemma at_index_Some {A} (l : list A) i x :
  at_index l i = Some x -> 0 <= i < len l /\ l !! Z.to_nat i = Some x.
Proof.
  unfold at_index, len. destruct (Z.ltb_spec i 0); [discriminate|].
  intros Hx. split; [|exact Hx]. apply lookup_lt_Some in Hx. lia.
Qed.

(** A current card is a position inside the queue. *)
Lemma current_card_position s :
  0 <= currentIndex s ->
  0 <= idx s < len (queue s)
  /\ queue s !! Z.to_nat (idx s) = Some (currentIndex s).
Proof.
  unfold currentIndex. destruct (at_index (queue s) (idx s)) as [v|] eqn:Hv.
  - intros _. now apply at_index_Some.
  - cbn. lia.
Qed.

Lemma includes_In l x : includes l x = true <-> In x l.
Proof.
  unfold includes. rewrite existsb_exists. split.
  - intros (y & Hy & Heq). apply Z.eqb_eq in Heq. now subst.
  - intros Hx. exists x. split; [assumption|apply Z.eqb_refl].
Qed.

Lemma remove_all_In i l x : In x (remove_all i l) <-> In x l /\ x <> i.
Proof.
  unfold remove_all. rewrite filter_In, negb_true_iff, Z.eqb_neq. tauto.
Qed.

Section Splice.
Context {A : Type}.
Implicit Types (l : list A) (x : A) (p : Z).

Lemma splice_insert_inside l p x :
  0 <= p <= len l ->
  splice_insert l p x = take (Z.to_nat p) l ++ x :: drop (Z.to_nat p) l.
Proof.
  intros Hp. unfold splice_insert.
  destruct (Z.ltb_spec p 0); [lia|]. now rewrite Z.min_l by lia.
Qed.

Lemma splice_insert_length l p x : len (splice_insert l p x) = len l + 1.
Proof.
  unfold splice_insert, len.
  rewrite length_app, length_cons, length_take, length_drop. lia.
Qed.

Lemma splice_insert_at l p x :
  0 <= p <= len l -> at_index (splice_insert l p x) p = Some x.
Proof.
  intros Hp. rewrite splice_insert_inside by assumption. unfold at_index, len in *.
  destruct (Z.ltb_spec p 0); [lia|].
  rewrite lookup_app_r by (rewrite length_take; lia).
  rewrite length_take. now replace (_ - _)%nat with 0%nat by lia.
Qed.

Lemma splice_insert_before l p x k :
  0 <= p <= len l -> (k < Z.to_nat p)%nat ->
  splice_insert l p x !! k = l !! k.
Proof.
  intros Hp Hk. rewrite splice_insert_inside by assumption. unfold len in *.
  rewrite lookup_app_l by (rewrite length_take; lia).
  now apply lookup_take_lt.
Qed.

End Splice.

(** The state [markKnown] leaves, field by field. *)
Lemma markKnown_effect s :
  0 <= currentIndex s ->
  let i := currentIndex s in
  let s' := dispatch markKnown s in
  known s' = (if includes (known s) i then known s else known s ++ [i])
  /\ unknown s' = (if autoRepeatUnknown s then remove_all i (unknown s)
                   else unknown s)
  /\ queue s' = queue s
  /\ idx s' = idx (dispatch next s)
  /\ flipped s' = flipped (dispatch next s)
  /\ autoRepeatUnknown s' = autoRepeatUnknown s.
Proof.
  intros Hi. cbv zeta. unfold dispatch, markKnown, next.
  destruct (Z.ltb_spec (currentIndex s) 0); [lia|].
  destruct (includes (known s) (currentIndex s)), (autoRepeatUnknown s) eqn:Har,
    (idx s <? len (queue s) - 1); destruct s; cbn in *; subst; auto 10.
Qed.

(** The state [markUnknown] leaves, field by field. *)
Lemma markUnknown_effect r s :
  0 <= currentIndex s ->
  let i := currentIndex s in
  let s' := dispatch (markUnknown r) s in
  unknown s' = (if includes (unknown s) i then unknown s else unknown s ++ [i])
  /\ known s' = known s
  /\ queue s' = (if autoRepeatUnknown s
                 then splice_insert (queue s) (insertAt r (idx s) (queue s)) i
                 else queue s)
  /\ idx s' = idx (dispatch next s)
  /\ flipped s' = flipped (dispatch next s)
  /\ autoRepeatUnknown s' = autoRepeatUnknown s.
Proof.
  intros Hi. cbv zeta. unfold dispatch, markUnknown, next.
  destruct (Z.ltb_spec (currentIndex s) 0); [lia|].
  destruct (includes (unknown s) (currentIndex s)), (autoRepeatUnknown s) eqn:Har,
    (idx s <? len (queue s) - 1); destruct s; cbn in *; subst; auto 10.
Qed.

Lemma len_nonneg {A} (l : list A) : 0 <= len l.
Proof. unfold len. lia. Qed.

(** The insertion point in the terms of the specification. *)
Lemma insertAt_spec r ix copy :
  B64.unit_interval r -> len copy < 2 ^ 32 ->
  0 <= random_below r 5 <= 4
  /\ insertAt r ix copy
     = Z.min (len copy)
             (ix + Z.max 10 (3 * len copy / 10) + random_below r 5).
Proof.
  intros Hr Hlen. pose proof (len_nonneg copy).
  pose proof (B64_facts.random_floor_range r 5 Hr) as Hj.
  unfold insertAt, minGap, random_below in *.
  rewrite B64_facts.floor_times_0_3 by lia.
  split; [|reflexivity]. assert (0 < 5 <= 2 ^ 52) by now vm_compute. lia.
Qed.

(** C1: with the repeat option on and a current card, [markUnknown()]
    stores one more copy of the current index in the queue, at position
    [min(|Queue|, cursor + max(10, floor(|Queue| * 0.3)) + jitter)] with a
    jitter among 0 .. 4, so the queue grows by exactly one entry.  The
    position is computed from the cursor before it advances, the queue
    update is queued ahead of the cursor update, and everything up to and
    including the current position stays in place.  For a queue of 20 and
    the cursor at 0 the copy lands in [10, 14] and the queue has 21
    entries.  (The queue is an array: its length is below 2^32.) *)
Theorem markUnknown_reinserts r s :
  B64.unit_interval r -> autoRepeatUnknown s = true ->
  0 <= currentIndex s -> len (queue s) < 2 ^ 32 ->
  let i := currentIndex s in
  let n := len (queue s) in
  let s' := dispatch (markUnknown r) s in
  exists jitter, 0 <= jitter <= 4 /\
    let p := Z.min n (idx s + Z.max 10 (3 * n / 10) + jitter) in
    queue s' = take (Z.to_nat p) (queue s) ++ i :: drop (Z.to_nat p) (queue s)
    /\ at_index (queue s') p = Some i
    /\ len (queue s') = n + 1
    /\ idx s < p
    /\ at_index (queue s') (idx s) = Some i
    /\ (exists first f, markUnknown r s = first ++ setQueue f :: next s)
    /\ idx s' = (if idx s <? n - 1 then idx s + 1 else idx s)
    /\ (n = 20 -> idx s = 0 -> 10 <= p <= 14 /\ len (queue s') = 21).
Proof.
  intros Hr Har Hi Hlen. cbv zeta.
  destruct (insertAt_spec r (idx s) (queue s) Hr Hlen) as (Hj & Hp).
  destruct (current_card_position s Hi) as (Hidx & Hcur).
  destruct (markUnknown_effect r s Hi) as (_ & _ & Hq & Hix & _).
  rewrite Har in Hq. rewrite dispatch_next in Hix.
  exists (random_below r 5). split; [exact Hj|].
  rewrite <- Hp. set (p := insertAt r (idx s) (queue s)) in *.
  assert (Hpr : idx s < p <= len (queue s)) by lia.
  rewrite Hq.
  split; [apply splice_insert_inside; lia|].
  split; [apply splice_insert_at; lia|].
  split; [apply splice_insert_length|].
  split; [lia|].
  split.
  { unfold at_index. destruct (Z.ltb_spec (idx s) 0); [lia|].
    rewrite splice_insert_before by lia. exact Hcur. }
  split.
  { unfold markUnknown. destruct (Z.ltb_spec (currentIndex s) 0); [lia|].
    rewrite Har. eexists _, _. reflexivity. }
  split.
  { rewrite Hix. now destruct (idx s <? len (queue s) - 1). }
  intros Hn H0. rewrite splice_insert_length. clearbody p.
  rewrite Hn, H0 in Hp. change (3 * 20 / 10) with 6 in Hp. lia.
Qed.

Lemma markUnknown_reinserts_witness :
  B64.unit_interval one_half /\ autoRepeatUnknown first_of_20 = true
  /\ currentIndex first_of_20 = 5 /\ len (queue first_of_20) = 20
  /\ exists jitter, 0 <= jitter <= 4
       /\ at_index (queue (dispatch (markUnknown one_half) first_of_20))
                   (Z.min 20 (0 + Z.max 10 (3 * 20 / 10) + jitter)) = Some 5.
Proof.
  assert (Hr : B64.unit_interval one_half) by (repeat split; now vm_compute).
  split; [exact Hr|]. repeat (split; [reflexivity|]).
  destruct (markUnknown_reinserts one_half first_of_20 Hr eq_refl)
    as (jitter & Hj & _ & Hat & _); [now vm_compute..|].
  exists jitter. split; [exact Hj|exact Hat].
Defined.

Lemma moved_currentIndex s i :
  currentIndex (moved s i) = default (-1) (at_index (queue s) i).
Proof. reflexivity. Qed.

(** C6: with a current card, [markKnown()] puts the current index into
    Known, removes it from Unknown when the repeat option is on, and then
    advances the way [next()] does.  So when a card is marked unknown, the
    cursor is moved back onto it and the card is marked known with the
    repeat option on, its index is in Known and no longer in Unknown. *)
Theorem markKnown_cancels_unknown s :
  0 <= currentIndex s ->
  let i := currentIndex s in
  let s' := dispatch markKnown s in
  In i (known s')
  /\ (forall x, In x (known s') <-> In x (known s) \/ x = i)
  /\ (autoRepeatUnknown s = true ->
      forall x, In x (unknown s') <-> In x (unknown s) /\ x <> i)
  /\ (autoRepeatUnknown s = false -> unknown s' = unknown s)
  /\ queue s' = queue s
  /\ idx s' = idx (dispatch next s) /\ flipped s' = flipped (dispatch next s)
  /\ (forall r, B64.unit_interval r -> autoRepeatUnknown s = true ->
        idx s < len (queue s) - 1 ->
        let s1 := dispatch (markUnknown r) s in
        let s2 := dispatch prev s1 in
        let s3 := dispatch markKnown s2 in
        In i (unknown s1) /\ idx s1 = idx s + 1
        /\ idx s2 = idx s /\ currentIndex s2 = i
        /\ In i (known s3) /\ ~ In i (unknown s3)).
Proof.
  assert (Hbase : forall t, 0 <= currentIndex t ->
            (forall x, In x (known (dispatch markKnown t))
                       <-> In x (known t) \/ x = currentIndex t)
            /\ (autoRepeatUnknown t = true ->
                forall x, In x (unknown (dispatch markKnown t))
                          <-> In x (unknown t) /\ x <> currentIndex t)).
  { intros t Ht. destruct (markKnown_effect t Ht) as (Hk & Hu & _).
    split.
    - intros x. rewrite Hk.
      destruct (includes (known t) (currentIndex t)) eqn:Hinc.
      + apply includes_In in Hinc. split; [tauto|]. intros [?| ->]; assumption.
      + rewrite in_app_iff. cbn. intuition congruence.
    - intros Har x. rewrite Hu, Har. apply remove_all_In. }
  intros Hi. cbv zeta.
  destruct (Hbase s Hi) as (Hk & Hu).
  destruct (markKnown_effect s Hi) as (_ & Hu' & Hq & Hix & Hfl & _).
  split; [apply Hk; now right|]. split; [exact Hk|]. split; [exact Hu|].
  split; [intros Har; now rewrite Hu', Har|].
  split; [exact Hq|]. split; [exact Hix|]. split; [exact Hfl|].
  intros r Hr Har Hlt.
  destruct (current_card_position s Hi) as (Hidx & Hcur).
  destruct (markUnknown_effect r s Hi) as (Hu1 & _ & Hq1 & Hix1 & _ & Har1).
  rewrite Har in Hq1. rewrite dispatch_next in Hix1.
  destruct (Z.ltb_spec (idx s) (len (queue s) - 1)) as [_|]; [|lia].
  cbn [idx moved] in Hix1.
  set (s1 := dispatch (markUnknown r) s) in *.
  assert (Hs2 : dispatch prev s1 = moved s1 (idx s)).
  { rewrite dispatch_prev, Hix1.
    destruct (Z.ltb_spec 0 (idx s + 1)); [|lia]. f_equal. lia. }
  rewrite Hs2.
  assert (Hcur2 : currentIndex (moved s1 (idx s)) = currentIndex s).
  { rewrite moved_currentIndex, Hq1.
    pose proof (len_nonneg (queue s)).
    unfold at_index. destruct (Z.ltb_spec (idx s) 0); [lia|].
    unfold splice_insert, insertAt, minGap.
    set (j := random_below r 5).
    assert (0 <= j < 5) by (apply B64_facts.random_floor_range; [exact Hr|now vm_compute]).
    destruct (Z.ltb_spec (Z.min (len (queue s)) (idx s + Z.max 10 (B64.floor (B64.mul (B64.of_Z (len (queue s))) B64.c0_3)) + j)) 0); [lia|].
    rewrite lookup_app_l by (rewrite length_take; unfold len in *; lia).
    rewrite lookup_take_lt by (unfold len in *; lia).
    now rewrite Hcur. }
  split.
  { rewrite Hu1. destruct (includes (unknown s) (currentIndex s)) eqn:Hinc.
    - now apply includes_In.
    - apply in_app_iff. right. now left. }
  split; [exact Hix1|]. split; [reflexivity|]. split; [exact Hcur2|].
  assert (Hi2 : 0 <= currentIndex (moved s1 (idx s))) by (rewrite Hcur2; exact Hi).
  destruct (Hbase _ Hi2) as (Hk3 & Hu3). rewrite Hcur2 in Hk3, Hu3.
  split; [apply Hk3; now right|].
  intros Hin. apply Hu3 in Hin; [tauto|]. cbn. exact (eq_trans Har1 Har).
Qed.

Lemma markKnown_cancels_unknown_witness :
  0 <= currentIndex first_of_20
  /\ In 5 (known (dispatch markKnown first_of_20))
  /\ let s3 := dispatch markKnown
                 (dispatch prev (dispatch (markUnknown one_half) first_of_20)) in
     In 5 (known s3) /\ ~ In 5 (unknown s3).
Proof.
  assert (Hi : 0 <= currentIndex first_of_20) by now vm_compute.
  destruct (markKnown_cancels_unknown first_of_20 Hi)
    as (Hk & _ & _ & _ & _ & _ & _ & Hscen).
  split; [exact Hi|]. split; [exact Hk|].
  destruct (Hscen one_half) as (_ & _ & _ & _ & Hk3 & Hu3);
    [repeat split; now vm_compute|reflexivity|now vm_compute|].
  split; [exact Hk3|exact Hu3].
Defined.

(** Run on the latest render, as the buttons run them, the two
    classifications keep Known and Unknown free of duplicates. *)
Lemma click_keeps_sets_duplicate_free r s :
  List.NoDup (known s) -> List.NoDup (unknown s) ->
  (List.NoDup (known (dispatch markKnown s))
   /\ List.NoDup (unknown (dispatch markKnown s)))
  /\ (List.NoDup (known (dispatch (markUnknown r) s))
      /\ List.NoDup (unknown (dispatch (markUnknown r) s))).
Proof.
  intros Hk Hu.
  assert (Hadd : forall l x, List.NoDup l ->
            List.NoDup (if includes l x then l else l ++ [x])).
  { intros l x Hl. destruct (includes l x) eqn:Hinc; [assumption|].
    apply NoDup_ListNoDup, NoDup_app. repeat split.
    - now apply NoDup_ListNoDup.
    - intros y Hy Hy'. apply list_elem_of_In in Hy, Hy'.
      destruct Hy' as [->|[]]. apply includes_In in Hy. congruence.
    - apply NoDup_singleton. }
  destruct (Z_lt_le_dec (currentIndex s) 0) as [Hneg|Hpos].
  - assert (Hk0 : dispatch markKnown s = s).
    { unfold dispatch, markKnown. now destruct (Z.ltb_spec (currentIndex s) 0); [|lia]. }
    assert (Hu0 : dispatch (markUnknown r) s = s).
    { unfold dispatch, markUnknown. now destruct (Z.ltb_spec (currentIndex s) 0); [|lia]. }
    now rewrite Hk0, Hu0.
  - destruct (markKnown_effect s Hpos) as (-> & -> & _).
    destruct (markUnknown_effect r s Hpos) as (-> & -> & _).
    repeat split; try assumption; try now apply Hadd.
    destruct (autoRepeatUnknown s); [|assumption].
    now apply List.NoDup_filter.
Qed.

(** The key listener on the last card: [markKnown] changes neither the
    cursor nor the queue there, the listener is not renewed, and each
    further press of the key 1 appends the current index once more. *)
Lemma key_repeat_appends_twice rnd1 rnd2 s :
  started s = true -> 0 <= currentIndex s -> idx s = len (queue s) - 1 ->
  includes (known s) (currentIndex s) = false ->
  known (view (step rnd2 (KeyDown key_1)
                 (step rnd1 (KeyDown key_1) (mkApp s s))))
  = known s ++ [currentIndex s; currentIndex s].
Proof.
  intros Hst Hi Hlast Hnew.
  assert (Hus : forall r, onKey r key_1 s =
            setKnown (fun k => k ++ [currentIndex s])
            :: (if autoRepeatUnknown s
                then [ setUnknown (fun u => remove_all (currentIndex s) u) ]
                else [])).
  { intros r. unfold onKey. rewrite Hst. cbn [negb key code key_1].
    change (String.eqb "1" " ") with false.
    change (String.eqb "Digit1" "Space") with false.
    change (String.eqb "1" "ArrowRight") with false.
    change (String.eqb "1" "ArrowLeft") with false.
    change (String.eqb "1" "1") with true.
    change (String.eqb "1" "2") with false.
    cbn [orb app]. rewrite app_nil_r.
    unfold markKnown, next. rewrite Hnew.
    destruct (Z.ltb_spec (currentIndex s) 0); [lia|].
    destruct (Z.ltb_spec (idx s) (len (queue s) - 1)); [lia|].
    now rewrite app_nil_r. }
  unfold step at 2. cbn [updates_of view listener]. rewrite Hus.
  set (i := currentIndex s) in *. clearbody i.
  assert (Hs1 : forall t, let t' := apply_updates
                  (setKnown (fun k => k ++ [i])
                   :: (if autoRepeatUnknown s
                       then [ setUnknown (fun u => remove_all i u) ] else [])) t in
            known t' = known t ++ [i] /\ started t' = started t
            /\ idx t' = idx t).
  { intros t. destruct t, (autoRepeatUnknown s); now cbn. }
  destruct (Hs1 s) as (Hk1 & Hst1 & Hix1).
  rewrite Hst1, Hix1, eqb_reflx, Z.eqb_refl.
  replace (touches_queue _) with false by now destruct (autoRepeatUnknown s).
  cbn [negb orb]. unfold step. cbn [updates_of view listener]. rewrite Hus.
  destruct (Hs1 (apply_updates
                   (setKnown (fun k => k ++ [i])
                    :: (if autoRepeatUnknown s
                        then [ setUnknown (fun u => remove_all i u) ] else [])) s))
    as (Hk2 & _).
  now rewrite Hk2, Hk1, <- app_assoc.
Qed.

(** ** Text *)

Lemma option_letter_not_space c : is_option_letter c = true -> is_space c = false.
Proof.
  unfold is_option_letter, is_space. intros H.
  apply andb_prop in H as [H1 H2]. apply N.leb_le in H1, H2.
  repeat match goal with
         | |- context [(c =? ?k)%N] =>
             rewrite (proj2 (N.eqb_neq c k)) by lia
         end.
  rewrite (proj2 (N.leb_gt 8192 c)) by lia. reflexivity.
Qed.

Lemma option_letter_not_dot c : is_option_letter c = true -> is_dot c = false.
Proof.
  unfold is_option_letter, is_dot. intros H.
  apply andb_prop in H as [H1 H2]. apply N.leb_le in H1, H2.
  apply N.eqb_neq. lia.
Qed.

(** Induction over a text two characters at a time, the way the scan of
    [replace_markers] consumes it. *)
Lemma text_pair_ind (P : text -> Prop) :
  P [] -> (forall c, P [c]) ->
  (forall c d t, P t -> P (d :: t) -> P (c :: d :: t)) ->
  forall t, P t.
Proof.
  intros Hnil Hone Hstep t.
  assert (H : P t /\ forall c, P (c :: t)); [|apply H].
  induction t as [|d t [IH1 IH2]]; [now split|].
  split; [apply IH2|]. intros c. apply Hstep; [exact IH1|apply IH2].
Qed.

(** One step of the scan with at least two characters ahead. *)
Lemma replace_markers_step skipping c d t :
  replace_markers skipping (c :: d :: t) =
  if skipping && is_space c then replace_markers true (d :: t)
  else if is_option_letter c && is_dot d
       then newline :: c :: d :: space :: replace_markers true t
       else c :: replace_markers false (d :: t).
Proof. reflexivity. Qed.

(** The scan adds and drops white space only. *)
Lemma replace_markers_visible t : forall skipping,
  visible (replace_markers skipping t) = visible t.
Proof.
  induction t as [|c|c d t IH1 IH2] using text_pair_ind; intros skipping.
  - reflexivity.
  - unfold visible. cbn.
    destruct skipping; destruct (is_space c) eqn:Hc; cbn; rewrite ?Hc; reflexivity.
  - rewrite replace_markers_step.
    destruct (skipping && is_space c) eqn:Hskip.
    + apply andb_prop in Hskip as [_ Hc]. rewrite IH2.
      unfold visible at 2. cbn [existsb]. now rewrite Hc.
    + destruct (is_option_letter c && is_dot d) eqn:Hm.
      * apply andb_prop in Hm as [Hc _].
        apply option_letter_not_space in Hc.
        unfold visible. cbn [existsb]. rewrite Hc.
        now rewrite !orb_true_r.
      * unfold visible. cbn [existsb]. f_equal. apply IH2.
Qed.

Lemma drop_spaces_visible t : visible (drop_spaces t) = visible t.
Proof.
  induction t as [|c t IH]; [reflexivity|]. cbn [drop_spaces].
  destruct (is_space c) eqn:Hc; [|reflexivity].
  rewrite IH. unfold visible. cbn [existsb]. now rewrite Hc.
Qed.

Lemma drop_spaces_nil t : drop_spaces t = [] <-> visible t = false.
Proof.
  induction t as [|c t IH]; [easy|]. cbn [drop_spaces]. unfold visible in *.
  cbn [existsb]. destruct (is_space c); [exact IH|easy].
Qed.

Lemma visible_rev t : visible (rev t) = visible t.
Proof.
  unfold visible. apply eq_true_iff_eq. rewrite !existsb_exists.
  split; intros (c & Hc & ?); exists c; (split; [|assumption]).
  - now apply in_rev.
  - now apply in_rev in Hc.
Qed.

(** A text survives trimming exactly when it has a visible character. *)
Lemma trim_nil t : trim t = [] <-> visible t = false.
Proof.
  unfold trim. split.
  - intros H. apply (f_equal (@rev N)) in H. rewrite rev_involutive in H.
    cbn in H. apply drop_spaces_nil in H.
    now rewrite visible_rev, drop_spaces_visible in H.
  - intros H.
    assert (Hd : drop_spaces (rev (drop_spaces t)) = []).
    { apply drop_spaces_nil. now rewrite visible_rev, drop_spaces_visible. }
    now rewrite Hd.
Qed.

Lemma trim_visible t : visible (trim t) = visible t.
Proof.
  unfold trim.
  now rewrite visible_rev, drop_spaces_visible, visible_rev, drop_spaces_visible.
Qed.

(** A question that survived trimming survives formatting too. *)
Lemma stored_question_visible t :
  trim t <> [] -> trim (formatText (trim t)) <> [].
Proof.
  intros Ht Hnil. apply trim_nil in Hnil.
  unfold formatText in Hnil. rewrite replace_markers_visible, trim_visible in Hnil.
  now apply trim_nil in Hnil.
Qed.

(** ** Record normalizer *)

Lemma normalizeRecords_flat records :
  normalizeRecords records = flat_map normalizeRecord records.
Proof.
  unfold normalizeRecords.
  assert (H : forall out, fold_left (fun out r => out ++ normalizeRecord r) records out
                          = out ++ flat_map normalizeRecord records); [|apply H].
  induction records as [|r records IH]; intros out; cbn.
  - now rewrite app_nil_r.
  - now rewrite IH, app_assoc.
Qed.

Lemma positional_record_question r :
  named_columns r = false ->
  Forall (fun row => trim (q row) <> []) (normalizeRecord r).
Proof.
  destruct r as [|cells|fields|]; cbn [normalizeRecord named_columns];
    try (intros _; constructor).
  - intros _. destruct (cells !! 0%nat ≫= id) as [q0|]; [|constructor].
    destruct (cells !! 1%nat ≫= id) as [a0|]; [|constructor].
    case_bool_decide; [|constructor].
    repeat constructor. cbn. now apply stored_question_visible.
  - destruct (get fields "question" ?? get fields "Question"
              ?? get fields "Q" ?? get fields "q") as [q0|],
             (get fields "answer" ?? get fields "Answer"
              ?? get fields "A" ?? get fields "a") as [a0|];
      try discriminate; intros _.
    all: destruct (map fst fields) as [|k0 [|k1 ?]]; try constructor.
    all: destruct (get fields k0) as [q2|]; try constructor.
    all: destruct (get fields k1) as [a2|]; try constructor.
    all: case_bool_decide; try constructor.
    all: try (cbn; now apply stored_question_visible).
    all: constructor.
Qed.

(** C9 (as amended): a record read by position, from an array or through
    the first two keys of an object without question and answer columns, is
    dropped when its question is empty after trimming; so each such record
    that enters the deck has a question that is non-empty after trimming.
    Its answer only has to be present. *)
Theorem positional_records_have_a_question records :
  Forall (fun r => named_columns r = false) records ->
  Forall (fun row => trim (q row) <> []) (normalizeRecords records).
Proof.
  intros Hpos. rewrite normalizeRecords_flat.
  induction Hpos as [|r records Hr _ IH]; [constructor|].
  cbn [flat_map]. apply Forall_app. split; [|exact IH].
  now apply positional_record_question.
Qed.

Lemma positional_records_have_a_question_witness :
  Forall (fun r => named_columns r = false) three_rows
  /\ Forall (fun row => trim (q row) <> []) (normalizeRecords three_rows).
Proof.
  assert (H : Forall (fun r => named_columns r = false) three_rows)
    by (repeat constructor).
  split; [exact H|]. exact (positional_records_have_a_question three_rows H).
Defined.

(** C9 as stated fails: a row whose answer is blank enters the deck, with
    an answer that is empty after trimming. *)
Lemma blank_answer_is_stored :
  normalizeRecords [ RArray [Some (utf16 "Q1"); Some (utf16 "  ")] ]
  = [ mkQA (utf16 "Q1") [] ]
  /\ trim (a (mkQA (utf16 "Q1") [])) = [].
Proof. now vm_compute. Qed.

(** With question and answer columns the question is not tested: a row with
    a blank question enters the deck. *)
Lemma named_columns_keep_blank_question :
  normalizeRecords
    [ RObject [ ("question"%string, Some (utf16 " "));
                ("answer"%string, Some (utf16 "A1")) ] ]
  = [ mkQA [] (utf16 "A1") ].
Proof. now vm_compute. Qed.

(** ** Saving and loading *)

(** Up to the first marker the scan copies the text. *)
Lemma replace_markers_prefix p : forall x tail,
  has_marker p = false -> is_dot x = false ->
  replace_markers false (p ++ x :: tail)
  = p ++ replace_markers false (x :: tail).
Proof.
  induction p as [|c p IH]; intros x tail Hp Hx; [reflexivity|].
  destruct p as [|d p].
  - cbn [app]. rewrite replace_markers_step. cbn [andb].
    now rewrite Hx, andb_false_r.
  - cbn [has_marker] in Hp. apply orb_false_elim in Hp as [Hcd Hp].
    change ((c :: d :: p) ++ x :: tail) with (c :: d :: (p ++ x :: tail)).
    rewrite replace_markers_step. cbn [andb]. rewrite Hcd.
    change (d :: p ++ x :: tail) with ((d :: p) ++ x :: tail).
    now rewrite IH.
Qed.

(** The text before the first marker, and the marker. *)
Lemma first_marker t :
  has_marker t = true ->
  exists p c d rest,
    t = p ++ c :: d :: rest /\ has_marker p = false
    /\ is_option_letter c = true /\ is_dot d = true.
Proof.
  induction t as [|c t IH]; [discriminate|].
  destruct t as [|d t]; [discriminate|].
  cbn [has_marker].
  destruct (is_option_letter c && is_dot d) eqn:Hcd.
  - intros _. apply andb_prop in Hcd as [Hc Hd].
    now exists [], c, d, t.
  - cbn [orb]. intros Ht.
    destruct (IH Ht) as (p & c' & d' & rest & Heq & Hp & Hc' & Hd').
    exists (c :: p), c', d', rest. rewrite Heq. repeat split; try assumption.
    destruct p as [|y p]; [reflexivity|].
    injection Heq as <- _. cbn [has_marker]. now rewrite Hcd.
Qed.

(** Formatting a text with a marker twice is not formatting it once: the
    second pass puts another line break in front of the first marker. *)
Lemma formatText_not_idempotent t :
  has_marker t = true -> formatText (formatText t) <> formatText t.
Proof.
  intros Ht.
  destruct (first_marker t Ht) as (p & c & d & rest & -> & Hp & Hc & Hd).
  unfold formatText.
  rewrite (replace_markers_prefix p c) by
    (try assumption; now apply option_letter_not_dot).
  rewrite replace_markers_step. cbn [andb]. rewrite Hc, Hd. cbn [andb].
  rewrite (replace_markers_prefix p newline) by (try assumption; reflexivity).
  rewrite replace_markers_step. cbn [andb].
  change (is_option_letter newline) with false. cbn [andb].
  rewrite replace_markers_step. cbn [andb]. rewrite Hc, Hd. cbn [andb].
  intros Heq. apply app_inv_head in Heq. injection Heq as Heq _.
  subst c. discriminate.
Qed.

Lemma map_fixed {A} (f : A -> A) l : map f l = l <-> Forall (fun x => f x = x) l.
Proof.
  induction l as [|x l IH]; cbn; [split; [constructor|reflexivity]|].
  split.
  - intros H. injection H as Hx Hl. constructor; [assumption|now apply IH].
  - intros H. inversion H; subst. f_equal; [assumption|now apply IH].
Qed.

(** C10: saving the deck and loading the saved entry applies [formatText]
    once more to every field: the deck after [loadStudySet] of the saved
    entry is the saved deck with [formatText] mapped over the questions and
    the answers, it equals the saved deck exactly when every field is a
    fixed point of [formatText], and [formatText] is not idempotent on a
    text with an option marker such as [A.]. *)
Theorem save_load_reformats rnd s set :
  saveStudySet s = Some set ->
  let s' := dispatch (loadStudySet rnd set) s in
  rawRows s' = loaded_rows set
  /\ rawRows s'
     = map (fun row => mkQA (formatText (q row)) (formatText (a row)))
           (rawRows s)
  /\ (rawRows s' = rawRows s
      <-> Forall (fun row => formatText (q row) = q row
                             /\ formatText (a row) = a row) (rawRows s))
  /\ (forall t, has_marker t = true ->
                formatText (formatText t) <> formatText t)
  /\ formatText (utf16 "A. x") = newline :: utf16 "A. x"
  /\ formatText (formatText (utf16 "A. x")) = newline :: newline :: utf16 "A. x".
Proof.
  intros Hsave. cbv zeta.
  assert (Hload : rawRows (dispatch (loadStudySet rnd set) s) = loaded_rows set)
    by now destruct s.
  rewrite Hload. split; [reflexivity|].
  revert Hsave. unfold saveStudySet. destruct (_ || _); [discriminate|].
  intros [= <-]. unfold loaded_rows. cbn [questions].
  rewrite map_map. cbn [question answer].
  split; [reflexivity|]. split; [|split; [apply formatText_not_idempotent|]].
  - rewrite map_fixed. apply Forall_iff. intros [q0 a0]. cbn. split.
    + now intros [= -> ->].
    + intros [Hq Ha]. now rewrite Hq, Ha.
  - now vm_compute.
Qed.

Lemma save_load_reformats_witness :
  exists set, saveStudySet choice_deck = Some set
              /\ rawRows (dispatch (loadStudySet zero_source set) choice_deck)
                 <> rawRows choice_deck
              /\ has_marker (utf16 "A. x") = true
              /\ formatText (formatText (utf16 "A. x")) <> formatText (utf16 "A. x").
Proof.
  destruct (saveStudySet choice_deck) as [set|] eqn:Hsave; [|discriminate].
  exists set.
  destruct (save_load_reformats zero_source choice_deck set Hsave)
    as (_ & Hload & _ & Hnot & _).
  split; [reflexivity|]. split; [|split; [reflexivity|now apply Hnot]].
  rewrite Hload. intros Heq.
  apply (f_equal (map (fun row => length (q row)))) in Heq.
  vm_compute in Heq. discriminate.
Defined.

(* ===================================================================== *)
(** * Further properties of the code *)
(* ===================================================================== *)

(** ** Formatting and rendering *)

Lemma replace_markers_plain t :
  has_marker t = false -> replace_markers false t = t.
Proof.
  induction t as [|c|c d t _ IH] using text_pair_ind; intros Hm;
    [reflexivity..|].
  cbn [has_marker] in Hm. apply orb_false_elim in Hm as [Hcd Hm].
  rewrite replace_markers_step. cbn [andb]. rewrite Hcd. f_equal. now apply IH.
Qed.

Lemma space_not_option_letter c : is_space c = true -> is_option_letter c = false.
Proof.
  intros Hc. destruct (is_option_letter c) eqn:Hl; [|reflexivity].
  apply option_letter_not_space in Hl. congruence.
Qed.

(** The characters that are not white space, in order. *)
Lemma replace_markers_ink t : forall skipping,
  List.filter (fun c => negb (is_space c)) (replace_markers skipping t)
  = List.filter (fun c => negb (is_space c)) t.
Proof.
  induction t as [|c|c d t IH1 IH2] using text_pair_ind; intros skipping.
  - reflexivity.
  - cbn. destruct skipping; destruct (is_space c) eqn:Hc; cbn; rewrite ?Hc;
      reflexivity.
  - rewrite replace_markers_step.
    destruct (skipping && is_space c) eqn:Hskip.
    + apply andb_prop in Hskip as [_ Hc]. rewrite IH2.
      cbn [List.filter]. now rewrite Hc.
    + destruct (is_option_letter c && is_dot d) eqn:Hm.
      * apply andb_prop in Hm as [Hc Hd].
        apply option_letter_not_space in Hc.
        assert (Hd' : is_space d = false).
        { unfold is_dot in Hd. apply N.eqb_eq in Hd. now subst d. }
        cbn [List.filter]. rewrite Hc, Hd'.
        change (is_space newline) with true. change (is_space space) with true.
        cbn [negb]. now rewrite IH1.
      * cbn [List.filter]. now rewrite IH2.
Qed.

Lemma count_markers_skip c t :
  is_option_letter c = false -> count_markers (c :: t) = count_markers t.
Proof. intros Hc. destruct t; cbn [count_markers]; [reflexivity|]. now rewrite Hc. Qed.

Lemma count_markers_step c d t :
  count_markers (c :: d :: t)
  = ((if is_option_letter c && is_dot d then 1 else 0) + count_markers (d :: t))%nat.
Proof. reflexivity. Qed.

Lemma replace_markers_nonempty t : t <> [] -> replace_markers false t <> [].
Proof.
  destruct t as [|c [|d t]]; [easy|easy|]. intros _.
  rewrite replace_markers_step. cbn [andb].
  now destruct (is_option_letter c && is_dot d).
Qed.

(** The first character of a scanned text is the first of the text or a line break. *)
Lemma replace_markers_first d t x out :
  replace_markers false (d :: t) = x :: out -> x = d \/ x = newline.
Proof.
  destruct t as [|e t].
  - cbn. intros [= <- _]. now left.
  - rewrite replace_markers_step. cbn [andb].
    destruct (is_option_letter d && is_dot e); intros [= <- _]; [now right|now left].
Qed.

Lemma replace_markers_count t : forall skipping,
  count_markers (replace_markers skipping t) = count_markers t.
Proof.
  induction t as [|c|c d t IH1 IH2] using text_pair_ind; intros skipping.
  - reflexivity.
  - cbn. now destruct (skipping && is_space c).
  - rewrite replace_markers_step.
    destruct (skipping && is_space c) eqn:Hskip.
    + apply andb_prop in Hskip as [_ Hc]. rewrite IH2. symmetry.
      apply count_markers_skip. now apply space_not_option_letter.
    + rewrite count_markers_step.
      destruct (is_option_letter c && is_dot d) eqn:Hm.
      * pose proof Hm as Hm'. apply andb_prop in Hm' as [Hc Hd].
        assert (Hd' : is_option_letter d = false).
        { unfold is_dot in Hd. apply N.eqb_eq in Hd. now subst d. }
        rewrite (count_markers_skip newline) by reflexivity.
        rewrite count_markers_step, Hm.
        rewrite (count_markers_skip d) by assumption.
        rewrite (count_markers_skip space) by reflexivity.
        rewrite IH1. now rewrite (count_markers_skip d t Hd').
      * cbn [Nat.add]. rewrite <- (IH2 false).
        pose proof (replace_markers_nonempty (d :: t)) as Hne.
        destruct (replace_markers false (d :: t)) as [|x out] eqn:Hout;
          [now destruct Hne|].
        rewrite count_markers_step.
        assert (Hx : is_option_letter c && is_dot x = false); [|now rewrite Hx].
        destruct (replace_markers_first _ _ _ _ Hout) as [-> | ->];
          [exact Hm|apply andb_false_r].
Qed.

(** X1: [formatText] leaves a text without option marker as it is, and in
    every text it only adds and drops white space: the other characters
    stay, in their order, and so does the number of markers. *)
Theorem formatText_keeps_the_ink t :
  (has_marker t = false -> formatText t = t)
  /\ List.filter (fun c => negb (is_space c)) (formatText t)
     = List.filter (fun c => negb (is_space c)) t
  /\ count_markers (formatText t) = count_markers t.
Proof.
  split; [apply replace_markers_plain|]. split; [apply replace_markers_ink|].
  apply replace_markers_count.
Qed.

Lemma formatText_keeps_the_ink_witness :
  has_marker (utf16 "TCP or UDP") = false
  /\ formatText (utf16 "TCP or UDP") = utf16 "TCP or UDP".
Proof.
  split; [reflexivity|].
  now apply (formatText_keeps_the_ink (utf16 "TCP or UDP")).
Defined.

Lemma starts_with_marker_cons c t :
  starts_with_marker (c :: t)
  = is_option_letter c && match t with d :: _ => is_dot d | [] => false end.
Proof. destruct t; cbn; [now rewrite andb_false_r|reflexivity]. Qed.

(** In a scanned text every marker starts a line. *)
Lemma replace_markers_lines t : forall skipping at_start,
  line_markers at_start (replace_markers skipping t) = count_markers t.
Proof.
  induction t as [|c|c d t IH1 IH2] using text_pair_ind; intros skipping at_start.
  - reflexivity.
  - cbn. destruct (skipping && is_space c); [reflexivity|].
    cbn. now rewrite andb_false_r.
  - rewrite replace_markers_step.
    destruct (skipping && is_space c) eqn:Hskip.
    + apply andb_prop in Hskip as [_ Hc]. rewrite IH2. symmetry.
      apply count_markers_skip. now apply space_not_option_letter.
    + rewrite count_markers_step.
      destruct (is_option_letter c && is_dot d) eqn:Hm.
      * pose proof Hm as Hm'. apply andb_prop in Hm' as [Hc Hd].
        assert (Hd' : is_option_letter d = false).
        { unfold is_dot in Hd. apply N.eqb_eq in Hd. now subst d. }
        assert (Hcn : (c =? newline)%N = false).
        { apply N.eqb_neq. intros ->. discriminate. }
        assert (Hdn : (d =? newline)%N = false).
        { apply N.eqb_neq. intros ->. discriminate. }
        cbn [line_markers]. rewrite !starts_with_marker_cons.
        change (is_option_letter newline) with false.
        change (newline =? newline)%N with true.
        change (space =? newline)%N with false.
        rewrite Hc, Hd, Hd', Hcn, Hdn, IH1. cbn [andb].
        rewrite andb_false_r. cbn [Nat.add].
        now rewrite (count_markers_skip d t Hd').
      * cbn [Nat.add]. rewrite <- (IH2 false (c =? newline)%N).
        cbn [line_markers].
        assert (Hx : starts_with_marker (c :: replace_markers false (d :: t)) = false);
          [|now rewrite Hx, andb_false_r].
        pose proof (replace_markers_nonempty (d :: t)) as Hne.
        destruct (replace_markers false (d :: t)) as [|x out] eqn:Hout;
          [now destruct Hne|].
        rewrite starts_with_marker_cons.
        destruct (replace_markers_first _ _ _ _ Hout) as [-> | ->];
          [exact Hm|apply andb_false_r].
Qed.

Lemma split_lines_cons c t :
  split_lines (c :: t)
  = if (c =? newline)%N then [] :: split_lines t
    else (c :: hd [] (split_lines t)) :: tl (split_lines t).
Proof.
  cbn [split_lines]. destruct (c =? newline)%N; [reflexivity|].
  now destruct (split_lines t).
Qed.

Lemma split_lines_first t :
  match hd [] (split_lines t) with d :: _ => is_dot d | [] => false end
  = match t with d :: _ => is_dot d | [] => false end.
Proof.
  destruct t as [|d t]; [reflexivity|]. rewrite split_lines_cons.
  destruct (N.eqb_spec d newline) as [->|]; reflexivity.
Qed.

(** The lines that start with a marker, counted along the text. *)
Lemma split_lines_markers t :
  length (List.filter starts_with_marker (split_lines t)) = line_markers true t
  /\ length (List.filter starts_with_marker (tl (split_lines t)))
     = line_markers false t.
Proof.
  induction t as [|c t [IH1 IH2]]; [now split|].
  rewrite split_lines_cons. cbn [line_markers andb].
  rewrite (starts_with_marker_cons c t).
  destruct (N.eqb_spec c newline) as [->|Hc].
  - change (is_option_letter newline) with false. cbn [andb Nat.add].
    cbn [tl List.filter starts_with_marker]. now split.
  - cbn [tl List.filter]. split; [|exact IH2].
    rewrite starts_with_marker_cons, split_lines_first.
    destruct (is_option_letter c && _); cbn [length Nat.add]; now rewrite IH2.
Qed.

Lemma marker_line_not_blank line :
  starts_with_marker line = true -> bool_decide (trim line <> []) = true.
Proof.
  intros Hl. apply bool_decide_eq_true. intros Hnil. apply trim_nil in Hnil.
  destruct line as [|c [|d line]]; try discriminate.
  cbn in Hl. apply andb_prop in Hl as [Hc _].
  apply option_letter_not_space in Hc. unfold visible in Hnil. cbn in Hnil.
  now rewrite Hc in Hnil.
Qed.

Lemma render_part_option part :
  is_option_row (render_part part) = starts_with_marker part.
Proof.
  destruct part as [|c [|d part]]; [reflexivity..|]. cbn.
  now destruct (is_option_letter c && is_dot d).
Qed.

Lemma option_rows_count t :
  length (List.filter is_option_row (renderFormattedText t)) = line_markers true t.
Proof.
  rewrite <- (proj1 (split_lines_markers t)). unfold renderFormattedText.
  induction (split_lines t) as [|line lines IH]; [reflexivity|].
  cbn [List.filter]. destruct (starts_with_marker line) eqn:Hl.
  - rewrite (marker_line_not_blank line Hl). cbn [map List.filter].
    rewrite render_part_option, Hl. cbn [length]. now rewrite IH.
  - destruct (bool_decide (trim line <> [])); [|exact IH].
    cbn [map List.filter]. now rewrite render_part_option, Hl.
Qed.

(** X2: in a formatted text every option marker starts a line, so
    [renderFormattedText] shows a formatted text with one option row for
    each marker of the text. *)
Theorem options_get_their_own_row t :
  line_markers true (formatText t) = count_markers (formatText t)
  /\ length (List.filter is_option_row (renderFormattedText (formatText t)))
     = count_markers t.
Proof.
  unfold formatText. rewrite option_rows_count, replace_markers_lines.
  now rewrite replace_markers_count.
Qed.

Lemma split_lines_chars t :
  Forall (fun line => forall c, In c line -> In c t /\ c <> newline)
         (split_lines t).
Proof.
  induction t as [|c t IH]; [repeat constructor; easy|].
  rewrite split_lines_cons. destruct (N.eqb_spec c newline) as [->|Hc].
  - constructor; [easy|]. eapply Forall_impl; [exact IH|].
    intros line Hline x Hx. destruct (Hline x Hx). split; [now right|assumption].
  - destruct (split_lines t) as [|line lines]; cbn [hd tl].
    + constructor; [|constructor]. intros x [<-|[]]. split; [now left|assumption].
    + inversion IH as [|? ? Hline Hlines]; subst. constructor.
      * intros x [<-|Hx]; [split; [now left|assumption]|].
        destruct (Hline x Hx). split; [now right|assumption].
      * eapply Forall_impl; [exact Hlines|].
        intros l Hl x Hx. destruct (Hl x Hx). split; [now right|assumption].
Qed.

Lemma until_line_end_chars t :
  Forall (fun c => is_line_terminator c = false) (until_line_end t).
Proof.
  induction t as [|c t IH]; [constructor|]. cbn.
  destruct (is_line_terminator c) eqn:Hc; now constructor.
Qed.

Lemma visible_false t : visible t = false <-> forall c, In c t -> is_space c = true.
Proof.
  unfold visible. split.
  - intros H c Hc. destruct (is_space c) eqn:Hs; [reflexivity|].
    assert (existsb (fun c => negb (is_space c)) t = true); [|congruence].
    apply existsb_exists. exists c. now rewrite Hs.
  - intros H. destruct (existsb _ t) eqn:He; [|reflexivity].
    apply existsb_exists in He as (c & Hc & Hs). rewrite (H c Hc) in Hs.
    discriminate.
Qed.

(** X3: [renderFormattedText] never shows an empty row: a plain row has a
    visible character and no line break in it, an option row carries a badge
    letter A to E and the rest of its line; a text of white space only is
    rendered as no row at all. *)
Theorem rendered_rows_are_not_blank t :
  Forall (fun r => match r with
                   | OptionRow badge body =>
                       is_option_letter badge = true
                       /\ Forall (fun c => is_line_terminator c = false) body
                   | PlainRow body => trim body <> [] /\ ~ In newline body
                   end) (renderFormattedText t)
  /\ (visible t = false -> renderFormattedText t = []).
Proof.
  unfold renderFormattedText. pose proof (split_lines_chars t) as Hchars.
  split.
  - induction Hchars as [|line lines Hline _ IH]; [constructor|].
    cbn [List.filter]. case_bool_decide as Hvis; [|exact IH].
    cbn [map]. constructor; [|exact IH].
    assert (Hplain : trim line <> [] /\ ~ In newline line).
    { split; [exact Hvis|]. intros Hin. now destruct (Hline _ Hin). }
    destruct line as [|c [|d line]]; [exact Hplain..|]. cbn [render_part].
    destruct (is_option_letter c && is_dot d) eqn:Hm; [|exact Hplain].
    apply andb_prop in Hm as [Hc _]. split; [exact Hc|].
    apply until_line_end_chars.
  - intros Hblank. rewrite visible_false in Hblank.
    induction Hchars as [|line lines Hline _ IH]; [reflexivity|].
    cbn [List.filter]. case_bool_decide as Hvis; [|exact IH].
    exfalso. apply Hvis, trim_nil, visible_false.
    intros c Hc. apply Hblank. now apply Hline.
Qed.

Lemma rendered_rows_are_not_blank_witness :
  visible (utf16 "   ") = false /\ renderFormattedText (utf16 "   ") = [].
Proof.
  split; [reflexivity|].
  now apply (rendered_rows_are_not_blank (utf16 "   ")).
Defined.

(** ** The session and its deck *)

Lemma apply_updates_app us1 us2 s :
  apply_updates (us1 ++ us2) s = apply_updates us2 (apply_updates us1 s).
Proof. unfold apply_updates. apply fold_left_app. Qed.

(** What a navigation queued by the render [c] does to the state [v]. *)
Lemma next_on c v :
  let v' := apply_updates (next c) v in
  rawRows v' = rawRows v /\ queue v' = queue v /\ known v' = known v
  /\ unknown v' = unknown v /\ started v' = started v
  /\ idx v' = (if idx c <? len (queue c) - 1 then idx v + 1 else idx v).
Proof.
  unfold next. destruct (idx c <? len (queue c) - 1); now destruct v.
Qed.

Lemma prev_on c v :
  let v' := apply_updates (prev c) v in
  rawRows v' = rawRows v /\ queue v' = queue v /\ known v' = known v
  /\ unknown v' = unknown v /\ started v' = started v
  /\ idx v' = (if 0 <? idx c then idx v - 1 else idx v).
Proof. unfold prev. destruct (0 <? idx c); now destruct v. Qed.

Lemma markKnown_on c v :
  0 <= currentIndex c ->
  let i := currentIndex c in
  let v' := apply_updates (markKnown c) v in
  rawRows v' = rawRows v /\ queue v' = queue v /\ started v' = started v
  /\ known v' = (if includes (known c) i then known v else known v ++ [i])
  /\ unknown v' = (if autoRepeatUnknown c then remove_all i (unknown v)
                   else unknown v)
  /\ idx v' = (if idx c <? len (queue c) - 1 then idx v + 1 else idx v).
Proof.
  intros Hi. cbv zeta. unfold markKnown, next.
  destruct (Z.ltb_spec (currentIndex c) 0); [lia|].
  destruct (includes (known c) (currentIndex c)), (autoRepeatUnknown c),
    (idx c <? len (queue c) - 1); now destruct v.
Qed.

Lemma markUnknown_on r c v :
  0 <= currentIndex c ->
  let i := currentIndex c in
  let v' := apply_updates (markUnknown r c) v in
  rawRows v' = rawRows v /\ started v' = started v /\ known v' = known v
  /\ unknown v' = (if includes (unknown c) i then unknown v else unknown v ++ [i])
  /\ queue v' = (if autoRepeatUnknown c
                 then splice_insert (queue v) (insertAt r (idx c) (queue v)) i
                 else queue v)
  /\ idx v' = (if idx c <? len (queue c) - 1 then idx v + 1 else idx v).
Proof.
  intros Hi. cbv zeta. unfold markUnknown, next.
  destruct (Z.ltb_spec (currentIndex c) 0); [lia|].
  destruct (includes (unknown c) (currentIndex c)), (autoRepeatUnknown c),
    (idx c <? len (queue c) - 1); now destruct v.
Qed.

Lemma no_card_no_updates r c :
  currentIndex c < 0 -> markKnown c = [] /\ markUnknown r c = [].
Proof.
  intros Hi. unfold markKnown, markUnknown.
  now destruct (Z.ltb_spec (currentIndex c) 0); [|lia].
Qed.

(** The card under the cursor of a well-formed session is a row of the
    deck. *)
Lemma agreed_card c v :
  agree c v -> well_formed v -> 0 <= currentIndex c ->
  0 <= idx v < len (queue v) /\ In (currentIndex c) (queue v)
  /\ row_index v (currentIndex c).
Proof.
  intros [Hidx Hq] (_ & Hrows & _) Hi.
  destruct (current_card_position c Hi) as (Hpos & Hcur).
  rewrite Hidx, Hq in *.
  assert (Hin : In (currentIndex c) (queue v)).
  { apply list_elem_of_In. eapply list_elem_of_lookup_2. exact Hcur. }
  repeat split; try lia; [exact Hin|..];
    rewrite Forall_forall in Hrows; apply list_elem_of_In in Hin;
    now apply Hrows.
Qed.

(** Ways to stay well formed. *)
Lemma well_formed_same v v' :
  well_formed v ->
  rawRows v' = rawRows v -> queue v' = queue v -> idx v' = idx v ->
  known v' = known v -> unknown v' = unknown v -> started v' = started v ->
  well_formed v'.
Proof.
  unfold well_formed, row_index. intros H Hr Hq Hi Hk Hu Hs.
  now rewrite Hr, Hq, Hi, Hk, Hu, Hs.
Qed.

Lemma well_formed_moved v v' :
  well_formed v ->
  rawRows v' = rawRows v -> queue v' = queue v ->
  known v' = known v -> unknown v' = unknown v -> started v' = started v ->
  (idx v' = idx v \/ 0 <= idx v' < len (queue v)) ->
  well_formed v'.
Proof.
  unfold well_formed, row_index. intros H Hr Hq Hk Hu Hs Hi.
  rewrite Hr, Hq, Hk, Hu, Hs.
  destruct Hi as [->|Hi]; [exact H|].
  destruct H as (? & ? & ? & ? & ? & ? & ? & ?). repeat split; auto; lia.
Qed.

Lemma splice_insert_In {A} (l : list A) p x y :
  In y (splice_insert l p x) <-> y = x \/ In y l.
Proof.
  unfold splice_insert. set (st := Z.to_nat _).
  assert (H : In y l <-> In y (take st l) \/ In y (drop st l)).
  { rewrite <- (take_drop st l) at 1. apply in_app_iff. }
  rewrite in_app_iff. cbn [In]. intuition congruence.
Qed.

Lemma well_formed_next c v :
  agree c v -> well_formed v -> well_formed (apply_updates (next c) v).
Proof.
  intros [Hidx Hq] Hwf.
  destruct (next_on c v) as (Hr & Hqu & Hk & Hu & Hs & Hi).
  apply (well_formed_moved v); try assumption. rewrite Hi, Hidx, Hq.
  destruct Hwf as (_ & _ & _ & H0 & _).
  destruct (Z.ltb_spec (idx v) (len (queue v) - 1)); [right; lia|now left].
Qed.

Lemma well_formed_prev c v :
  agree c v -> well_formed v -> well_formed (apply_updates (prev c) v).
Proof.
  intros [Hidx Hq] Hwf.
  destruct (prev_on c v) as (Hr & Hqu & Hk & Hu & Hs & Hi).
  apply (well_formed_moved v); try assumption. rewrite Hi, Hidx.
  destruct Hwf as (_ & _ & _ & H0 & [Hlt|[H1 _]] & _);
    destruct (Z.ltb_spec 0 (idx v)); try (now left); right; lia.
Qed.

Lemma well_formed_markKnown c v :
  agree c v -> well_formed v -> well_formed (apply_updates (markKnown c) v).
Proof.
  intros Hag Hwf.
  destruct (Z_lt_le_dec (currentIndex c) 0) as [Hneg|Hpos].
  { now rewrite (proj1 (no_card_no_updates (B64.mk 0 0) c Hneg)). }
  destruct (agreed_card c v Hag Hwf Hpos) as (Hpos' & Hin & Hrow).
  destruct (markKnown_on c v Hpos) as (Hr & Hqu & Hs & Hk & Hu & Hi).
  destruct Hag as [Hidx Hq].
  destruct Hwf as (H1 & H2 & H3 & H4 & H5 & H6 & H7 & H8).
  unfold well_formed, row_index in *. rewrite Hr, Hqu, Hs, Hk, Hu, Hi, Hidx, Hq.
  split; [exact H1|]. clear H1. repeat split; auto.
  - destruct (idx v <? len (queue v) - 1); lia.
  - destruct (Z.ltb_spec (idx v) (len (queue v) - 1)); left; lia.
  - destruct (includes _ _); [assumption|]. apply Forall_app. split; [assumption|].
    now repeat constructor.
  - destruct (autoRepeatUnknown c); [|assumption].
    unfold remove_all. rewrite Forall_forall in *. intros x Hx.
    apply H7. apply list_elem_of_In in Hx. apply filter_In in Hx as [Hx _].
    now apply list_elem_of_In.
Qed.

Lemma well_formed_markUnknown r c v :
  agree c v -> well_formed v ->
  well_formed (apply_updates (markUnknown r c) v).
Proof.
  intros Hag Hwf.
  destruct (Z_lt_le_dec (currentIndex c) 0) as [Hneg|Hpos].
  { now rewrite (proj2 (no_card_no_updates r c Hneg)). }
  destruct (agreed_card c v Hag Hwf Hpos) as (Hpos' & Hin & Hrow).
  destruct (markUnknown_on r c v Hpos) as (Hr & Hs & Hk & Hu & Hqu & Hi).
  destruct Hag as [Hidx Hq].
  destruct Hwf as (H1 & H2 & H3 & H4 & H5 & H6 & H7 & H8).
  assert (Hlen : len (queue v) <= len (queue (apply_updates (markUnknown r c) v))).
  { rewrite Hqu. destruct (autoRepeatUnknown c); [|lia].
    rewrite splice_insert_length. lia. }
  unfold well_formed, row_index in *. rewrite Hr, Hs, Hk, Hu, Hi, Hidx, Hq.
  split; [exact H1|]. clear H1. repeat split; auto.
  - rewrite Hqu. destruct (autoRepeatUnknown c); [|assumption].
    rewrite Forall_forall in *. intros x Hx. apply list_elem_of_In in Hx.
    apply splice_insert_In in Hx as [->|Hx]; [exact Hrow|].
    apply H2. now apply list_elem_of_In.
  - intros x Hx. rewrite Hqu. destruct (autoRepeatUnknown c); [|now apply H3].
    apply splice_insert_In. right. now apply H3.
  - destruct (idx v <? len (queue v) - 1); lia.
  - destruct (Z.ltb_spec (idx v) (len (queue v) - 1)); left; lia.
  - destruct (includes _ _); [assumption|]. apply Forall_app. split; [assumption|].
    now repeat constructor.
Qed.

(** A reset for a deck of [n] rows leaves a well-formed session. *)
Lemma well_formed_reset v n :
  len (rawRows v) = Z.of_nat n -> Z.of_nat n < 2 ^ 32 ->
  queue v ≡ₚ identity_queue n -> idx v = 0 -> known v = [] -> unknown v = [] ->
  started v = false ->
  well_formed v.
Proof.
  intros Hn Hsize Hperm Hi Hk Hu Hs. unfold well_formed, row_index.
  rewrite Hn, Hi, Hk, Hu, Hs. repeat split; try easy.
  - rewrite Forall_forall. intros x Hx. apply identity_queue_In.
    apply list_elem_of_In. now rewrite <- Hperm.
  - intros x Hx. apply list_elem_of_In. rewrite Hperm. apply list_elem_of_In.
    now apply identity_queue_In.
  - destruct (queue v) as [|x qu] eqn:Hq; [now right|left]. unfold len. cbn. lia.
Qed.

Lemma resetSession_queue rnd n c :
  fair rnd -> Z.of_nat n < 2 ^ 32 ->
  (if shuffle c then shuffleArray rnd (identity_queue n) else identity_queue n)
  ≡ₚ identity_queue n.
Proof.
  intros Hfair Hn. destruct (shuffle c); [|reflexivity].
  apply shuffleArray_perm; [assumption|].
  unfold identity_queue. rewrite length_map, length_seq.
  change (2 ^ 32) with 4294967296 in Hn. change (2 ^ 52) with 4503599627370496.
  lia.
Qed.

Lemma normalizeRecord_length r : (length (normalizeRecord r) <= 1)%nat.
Proof.
  destruct r as [|cells|fields|]; cbn [normalizeRecord]; try (cbn; lia).
  - destruct (cells !! 0%nat ≫= id), (cells !! 1%nat ≫= id); try (cbn; lia).
    case_bool_decide; cbn; lia.
  - destruct (get fields "question" ?? get fields "Question"
              ?? get fields "Q" ?? get fields "q"),
             (get fields "answer" ?? get fields "Answer"
              ?? get fields "A" ?? get fields "a"); try (cbn; lia).
    all: destruct (map fst fields) as [|k0 [|k1 ?]]; try (cbn; lia).
    all: destruct (get fields k0), (get fields k1); try (cbn; lia).
    all: case_bool_decide; cbn; lia.
Qed.

Lemma normalizeRecords_length records :
  (length (normalizeRecords records) <= length records)%nat.
Proof.
  rewrite normalizeRecords_flat.
  induction records as [|r records IH]; [reflexivity|].
  cbn [flat_map]. rewrite length_app. pose proof (normalizeRecord_length r).
  cbn [length]. lia.
Qed.

Lemma resetSession_on rnd n c v :
  let v' := apply_updates (resetSession rnd n c) v in
  rawRows v' = rawRows v
  /\ queue v' = (if shuffle c then shuffleArray rnd (identity_queue n)
                 else identity_queue n)
  /\ idx v' = 0 /\ known v' = [] /\ unknown v' = [] /\ started v' = false
  /\ flipped v' = false
  /\ shuffle v' = shuffle v /\ reverse v' = reverse v
  /\ autoRepeatUnknown v' = autoRepeatUnknown v
  /\ currentSetTitle v' = currentSetTitle v.
Proof. now destruct v. Qed.

Lemma well_formed_resetSession rnd c v :
  fair rnd -> well_formed v ->
  well_formed (apply_updates (resetSession rnd (length (rawRows v)) c) v).
Proof.
  intros Hfair (Hsize & _).
  destruct (resetSession_on rnd (length (rawRows v)) c v)
    as (Hr & Hq & Hi & Hk & Hu & Hs & _).
  apply (well_formed_reset _ (length (rawRows v))); try assumption.
  - now rewrite Hr.
  - rewrite Hq. now apply resetSession_queue.
Qed.

Lemma toggleFlip_on c v :
  let v' := apply_updates (toggleFlip c) v in
  rawRows v' = rawRows v /\ queue v' = queue v /\ idx v' = idx v
  /\ known v' = known v /\ unknown v' = unknown v /\ started v' = started v
  /\ flipped v' = negb (flipped v).
Proof. now destruct v. Qed.

(** What a key press queues: at most a flip, and then at most one
    operation of the engine. *)
Lemma onKey_shape r e c :
  exists fl op,
    (fl = [] \/ fl = toggleFlip c)
    /\ (op = [] \/ op = next c \/ op = prev c \/ op = markKnown c
        \/ op = markUnknown r c)
    /\ onKey r e c = fl ++ op.
Proof.
  unfold onKey. destruct (started c); cbn [negb]; [|exists [], []; auto].
  exists (if String.eqb (key e) " " || String.eqb (code e) "Space"
          then toggleFlip c else []).
  destruct (String.eqb_spec (key e) "ArrowRight") as [Hr|_];
    destruct (String.eqb_spec (key e) "ArrowLeft") as [Hl|_];
    destruct (String.eqb_spec (key e) "1") as [H1|_];
    destruct (String.eqb_spec (key e) "2") as [H2|_];
    try congruence.
  all: cbn beta iota; cbn [app]; rewrite ?app_nil_r.
  all: eexists; split; [destruct (_ || _); auto|].
  all: split; cycle 1; [try reflexivity; now rewrite app_nil_r|auto 6].
Qed.

Lemma well_formed_operation r c v op :
  op = [] \/ op = next c \/ op = prev c \/ op = markKnown c
  \/ op = markUnknown r c ->
  agree c v -> well_formed v -> well_formed (apply_updates op v).
Proof.
  intros [->|[->|[->|[->| ->]]]] Hag Hwf.
  - exact Hwf.
  - now apply well_formed_next.
  - now apply well_formed_prev.
  - now apply well_formed_markKnown.
  - now apply well_formed_markUnknown.
Qed.

Lemma well_formed_key r e c v :
  agree c v -> well_formed v -> well_formed (apply_updates (onKey r e c) v).
Proof.
  intros Hag Hwf. destruct (onKey_shape r e c) as (fl & op & Hfl & Hop & ->).
  rewrite apply_updates_app.
  destruct (toggleFlip_on c v) as (Hr & Hq & Hi & Hk & Hu & Hs & _).
  apply (well_formed_operation r c _ op Hop).
  - destruct Hfl as [-> | ->]; [exact Hag|].
    destruct Hag as [Hidx Hqu]. split; congruence.
  - destruct Hfl as [-> | ->]; [exact Hwf|].
    now apply (well_formed_same v).
Qed.

Lemma agree_refl v : agree v v.
Proof. now split. Qed.

Lemma loadStudySet_on rnd set c v :
  let v' := apply_updates (loadStudySet rnd set c) v in
  rawRows v' = loaded_rows set
  /\ queue v' = (if shuffle c
                 then shuffleArray rnd (identity_queue (length (loaded_rows set)))
                 else identity_queue (length (loaded_rows set)))
  /\ idx v' = 0 /\ known v' = [] /\ unknown v' = [] /\ started v' = false
  /\ flipped v' = false
  /\ currentSetTitle v' = title set /\ showSavedSets v' = false
  /\ shuffle v' = shuffle v /\ reverse v' = reverse v
  /\ autoRepeatUnknown v' = autoRepeatUnknown v.
Proof. now destruct v. Qed.

Lemma handleFiles_on rnd records c v :
  let v' := apply_updates (handleFiles rnd records c) v in
  rawRows v' = normalizeRecords records
  /\ queue v' = shuffleArray rnd
                  (identity_queue (length (normalizeRecords records)))
  /\ idx v' = 0 /\ known v' = [] /\ unknown v' = [] /\ started v' = false
  /\ flipped v' = false
  /\ shuffle v' = shuffle v /\ reverse v' = reverse v
  /\ autoRepeatUnknown v' = autoRepeatUnknown v
  /\ currentSetTitle v' = currentSetTitle v.
Proof. now destruct v. Qed.

Lemma session_shuffle_on rnd v :
  let v' := apply_updates (onClick rnd SessionShuffleSwitch v) v in
  rawRows v' = rawRows v
  /\ queue v' = (if shuffle v
                 then shuffleArray rnd (identity_queue (length (rawRows v)))
                 else identity_queue (length (rawRows v)))
  /\ idx v' = 0 /\ known v' = [] /\ unknown v' = [] /\ started v' = false.
Proof. now destruct v. Qed.

Lemma startSession_on c v :
  let v' := apply_updates (startSession c) v in
  rawRows v' = rawRows v /\ queue v' = queue v /\ idx v' = idx v
  /\ known v' = known v /\ unknown v' = unknown v /\ started v' = true.
Proof. now destruct v. Qed.

Lemma well_formed_click rnd c v :
  fair rnd -> admissible (Click c) -> well_formed v ->
  well_formed (apply_updates (if rendered v c then onClick rnd c v else []) v).
Proof.
  intros Hfair Hadm Hwf. destruct (rendered v c) eqn:Hrend; [|exact Hwf].
  pose proof Hwf as (Hsize & _).
  destruct c; cbn [onClick].
  - now apply well_formed_resetSession.
  - destruct (loadStudySet_on rnd set v v) as (Hr & Hq & Hi & Hk & Hu & Hs & _).
    assert (Hlen : length (loaded_rows set) = length (questions set))
      by (unfold loaded_rows; apply length_map).
    cbn in Hadm. unfold len in Hadm.
    apply (well_formed_reset _ (length (loaded_rows set))); try assumption.
    + now rewrite Hr.
    + lia.
    + rewrite Hq. apply resetSession_queue; [assumption|lia].
  - destruct (handleFiles_on rnd records v v) as (Hr & Hq & Hi & Hk & Hu & Hs & _).
    pose proof (normalizeRecords_length records) as Hlen.
    cbn in Hadm. unfold len in Hadm.
    apply (well_formed_reset _ (length (normalizeRecords records)));
      try assumption.
    + now rewrite Hr.
    + lia.
    + rewrite Hq. apply (resetSession_queue rnd _ initial); [assumption|lia].
  - apply (well_formed_same v); try assumption; now destruct v.
  - apply (well_formed_same v); try assumption; now destruct v.
  - apply (well_formed_same v); try assumption; now destruct v.
  - cbn in Hrend. apply andb_prop in Hrend as [Hdeck _].
    destruct (startSession_on v v) as (Hr & Hq & Hi & Hk & Hu & Hs).
    destruct Hwf as (H1 & H2 & H3 & H4 & H5 & H6 & H7 & H8).
    unfold well_formed, row_index in *. rewrite Hr, Hq, Hi, Hk, Hu.
    repeat split; try assumption.
    intros _ Hnil. rewrite Hnil in Hdeck. discriminate.
  - destruct (toggleFlip_on v v) as (Hr & Hq & Hi & Hk & Hu & Hs & _).
    now apply (well_formed_same v).
  - apply well_formed_prev; [apply agree_refl|assumption].
  - apply well_formed_markUnknown; [apply agree_refl|assumption].
  - apply well_formed_markKnown; [apply agree_refl|assumption].
  - apply well_formed_next; [apply agree_refl|assumption].
  - destruct (session_shuffle_on rnd v) as (Hr & Hq & Hi & Hk & Hu & Hs).
    cbn [onClick] in Hr, Hq, Hi, Hk, Hu, Hs.
    apply (well_formed_reset _ (length (rawRows v))); try assumption.
    + now rewrite Hr.
    + rewrite Hq. now apply resetSession_queue.
  - apply (well_formed_same v); try assumption; now destruct v.
  - apply (well_formed_same v); try assumption; now destruct v.
Qed.

Lemma initial_well_formed : well_formed initial.
Proof.
  unfold well_formed, row_index. cbn.
  repeat split; try easy; try (now right); try constructor.
  intros v Hv. unfold len in Hv. cbn in Hv. lia.
Qed.

Lemma fairly_reachable_synced app : fairly_reachable app -> synced app.
Proof.
  induction 1 as [|rnd ev app _ _ _ IH|app _ IH|value app _ IH]; [now cbv|..].
  - now apply step_synced.
  - unfold toggleSavedSets, synced in *. cbn [view listener].
    now destruct (view app).
  - unfold typeTitle. destruct (_ =? _)%nat; [exact IH|].
    unfold synced in *. cbn [view listener]. now destruct (view app).
Qed.

Lemma step_well_formed rnd ev app :
  fair rnd -> admissible ev -> synced app -> well_formed (view app) ->
  well_formed (view (step rnd ev app)).
Proof.
  intros Hfair Hadm (_ & Hidx & Hq) Hwf. unfold step. cbn [view updates_of].
  destruct ev as [c|e]; cbn [updates_of].
  - now apply well_formed_click.
  - apply well_formed_key; [now split|assumption].
Qed.

Lemma fairly_reachable_well_formed app :
  fairly_reachable app -> well_formed (view app).
Proof.
  induction 1 as [|rnd ev app Hfair Hadm Hreach IH|app _ IH|value app _ IH];
    [apply initial_well_formed|..].
  - apply step_well_formed; try assumption. now apply fairly_reachable_synced.
  - apply (well_formed_same (view app)); [exact IH|..];
      unfold toggleSavedSets; cbn [view]; now destruct (view app).
  - unfold typeTitle. destruct (_ =? _)%nat; [exact IH|].
    apply (well_formed_same (view app)); [exact IH|..];
      cbn [view]; now destruct (view app).
Qed.

Lemma sample_run_fair : fairly_reachable at_last_card.
Proof.
  repeat (apply fair_step; [apply zero_source_fair|now cbn|]). apply fair_mount.
Qed.

(** The row under the cursor of a well-formed session with a deck. *)
Lemma well_formed_card s :
  well_formed s -> rawRows s <> [] ->
  exists base, at_index (rawRows s) (currentIndex s) = Some base
               /\ 0 <= currentIndex s /\ In base (rawRows s).
Proof.
  intros (_ & Hrows & Hall & Hidx & Hin & _) Hdeck. unfold row_index in *.
  assert (H0 : In 0 (queue s)).
  { apply Hall. unfold len. destruct (rawRows s); [easy|cbn; lia]. }
  destruct Hin as [Hlt|[_ Hq]]; [|now rewrite Hq in H0].
  destruct (lookup_lt_is_Some_2 (queue s) (Z.to_nat (idx s))) as [v Hv];
    [unfold len in Hlt; lia|].
  assert (Hcur : currentIndex s = v).
  { unfold currentIndex, at_index. destruct (Z.ltb_spec (idx s) 0); [lia|].
    now rewrite Hv. }
  rewrite Forall_forall in Hrows.
  assert (Hrow : 0 <= v < len (rawRows s)).
  { apply Hrows. eapply list_elem_of_lookup_2. exact Hv. }
  destruct (lookup_lt_is_Some_2 (rawRows s) (Z.to_nat v)) as [base Hbase];
    [unfold len in Hrow; lia|].
  exists base. rewrite Hcur. unfold at_index.
  destruct (Z.ltb_spec v 0); [lia|]. repeat split; [exact Hbase|lia|].
  apply list_elem_of_In. eapply list_elem_of_lookup_2. exact Hbase.
Qed.



(** ** Navigation, keys and the card on screen *)

(** X7: moving forward and then back returns to the card one came from,
    face down, and nothing else has changed; so does moving back and then
    forward. *)
Theorem next_and_prev_undo_each_other s :
  (0 <= idx s -> idx s < len (queue s) - 1 ->
   dispatch prev (dispatch next s) = moved s (idx s))
  /\ (0 < idx s -> idx s <= len (queue s) - 1 ->
      dispatch next (dispatch prev s) = moved s (idx s)).
Proof.
  split.
  - intros H0 Hlt. rewrite dispatch_next.
    destruct (Z.ltb_spec (idx s) (len (queue s) - 1)); [|lia].
    rewrite dispatch_prev. cbn [idx moved].
    destruct (Z.ltb_spec 0 (idx s + 1)); [|lia].
    unfold moved. cbn. f_equal. lia.
  - intros H0 Hle. rewrite dispatch_prev.
    destruct (Z.ltb_spec 0 (idx s)); [|lia].
    rewrite dispatch_next. cbn [idx queue moved].
    destruct (Z.ltb_spec (idx s - 1) (len (queue s) - 1)); [|lia].
    unfold moved. cbn. f_equal. lia.
Qed.

Lemma next_and_prev_undo_each_other_witness :
  dispatch prev (dispatch next second_of_3) = moved second_of_3 1
  /\ dispatch next (dispatch prev second_of_3) = moved second_of_3 1.
Proof.
  destruct (next_and_prev_undo_each_other second_of_3) as [H1 H2].
  split; [apply H1|apply H2]; now vm_compute.
Defined.

Lemma no_card_index s :
  idx s < 0 \/ len (queue s) <= idx s -> currentIndex s = -1.
Proof.
  intros H. unfold currentIndex, at_index.
  destruct (Z.ltb_spec (idx s) 0); [reflexivity|].
  rewrite lookup_ge_None_2; [reflexivity|]. unfold len in H. lia.
Qed.

(** X8: without a current card (an empty queue, or a cursor outside the
    queue) [markKnown] and [markUnknown] change nothing, [currentCard] is
    [null] and [copyOriginalText] copies nothing. *)
Theorem nothing_happens_without_a_card r s :
  idx s < 0 \/ len (queue s) <= idx s ->
  dispatch markKnown s = s /\ dispatch (markUnknown r) s = s
  /\ currentCard s = NoCard /\ copyOriginalText s = None.
Proof.
  intros H. pose proof (no_card_index s H) as Hi.
  assert (Hneg : currentIndex s < 0) by lia.
  destruct (no_card_no_updates r s Hneg) as [Hk Hu].
  unfold dispatch. rewrite Hk, Hu. unfold copyOriginalText, currentCard.
  rewrite Hi. now cbn.
Qed.

Lemma nothing_happens_without_a_card_witness :
  len (queue initial) <= idx initial
  /\ dispatch markKnown initial = initial
  /\ dispatch (markUnknown one_half) initial = initial.
Proof.
  assert (H : len (queue initial) <= idx initial) by now vm_compute.
  destruct (nothing_happens_without_a_card one_half initial (or_intror H))
    as (Hk & Hu & _).
  repeat split; assumption.
Defined.



(** ** Copying, saving and loading *)

Lemma unbreak_spec t :
  ink (unbreak t) = ink t /\ line_feeds (unbreak t) = O
  /\ length (unbreak t) = length t.
Proof.
  unfold ink, line_feeds, unbreak. induction t as [|c t (IH1 & IH2 & IH3)];
    [easy|].
  cbn [map List.filter count_occ length]. rewrite IH1, IH2, IH3.
  destruct (N.eqb_spec c newline) as [->|Hc].
  - now cbn.
  - repeat split. destruct (N.eq_dec c newline); [|reflexivity]. congruence.
Qed.

Lemma line_feeds_app t u : line_feeds (t ++ u) = (line_feeds t + line_feeds u)%nat.
Proof. apply count_occ_app. Qed.

Lemma copied_text_spec question answer :
  let out := unbreak question ++ newline :: newline :: answer_label
             ++ unbreak answer in
  line_feeds out = 2%nat
  /\ ink out = ink question ++ ink answer_label ++ ink answer
  /\ length out = (length question + 6 + length answer)%nat.
Proof.
  cbv zeta.
  change (unbreak question ++ newline :: newline :: answer_label
          ++ unbreak answer)
    with (unbreak question ++ ([newline; newline] ++ answer_label)
          ++ unbreak answer).
  destruct (unbreak_spec question) as (Hq1 & Hq2 & Hq3).
  destruct (unbreak_spec answer) as (Ha1 & Ha2 & Ha3).
  split; [|split].
  - rewrite !line_feeds_app, Hq2, Ha2. reflexivity.
  - unfold ink in *. rewrite !List.filter_app, Hq1, Ha1. reflexivity.
  - rewrite !length_app, Hq3, Ha3. cbn. lia.
Qed.

(** X11: what [copyOriginalText] copies is the stored question and answer
    of the current card whether or not the card is shown reversed: the
    question, an empty line, the answer label and the answer, with every
    line feed of the two texts replaced by a space, so that the copy holds
    exactly two line feeds and the visible characters of both texts. *)
Theorem copy_is_the_stored_card rnd s :
  copyOriginalText (dispatch (onClick rnd ReverseSwitch) s) = copyOriginalText s
  /\ forall out, copyOriginalText s = Some out ->
     exists base,
       at_index (rawRows s) (currentIndex s) = Some base
       /\ line_feeds out = 2%nat
       /\ ink out = ink (q base) ++ ink answer_label ++ ink (a base)
       /\ length out = (length (q base) + 6 + length (a base))%nat.
Proof.
  split.
  - unfold copyOriginalText, currentCard, dispatch. cbn [onClick].
    destruct s as [rr qu ix fl kn un st sh rv ar ti ss].
    cbn [apply_updates fold_left apply_update rawRows reverse].
    change (currentIndex (mkState rr qu ix fl kn un st sh
                                  (const (negb rv) rv) ar ti ss))
      with (currentIndex (mkState rr qu ix fl kn un st sh rv ar ti ss)).
    destruct (_ <? 0); [reflexivity|].
    destruct (at_index rr _); [reflexivity|]. now destruct rv.
  - intros out. unfold copyOriginalText, currentCard.
    destruct (currentIndex s <? 0); [easy|].
    destruct (at_index (rawRows s) (currentIndex s)) as [base|];
      [|now destruct (reverse s)].
    intros [= <-]. exists base. split; [reflexivity|].
    apply copied_text_spec.
Qed.

Lemma copy_is_the_stored_card_witness :
  exists base,
    at_index (rawRows choice_deck) (currentIndex choice_deck) = Some base
    /\ line_feeds (unbreak (q base) ++ newline :: newline :: answer_label
                   ++ unbreak (a base)) = 2%nat.
Proof.
  destruct (copy_is_the_stored_card zero_source choice_deck) as [_ H].
  destruct (H _ eq_refl) as (base & Hb & Hl & _).
  exists base. split; [exact Hb|].
  vm_compute in Hb. injection Hb as <-. exact Hl.
Defined.

(** X12: [saveStudySet] refuses exactly when the title has no visible
    character or the deck is empty; what it stores otherwise is the title as
    typed and the cards of the deck, as many and in their order. *)
Theorem save_needs_a_title_and_a_deck s :
  (saveStudySet s = None <->
   visible (currentSetTitle s) = false \/ rawRows s = [])
  /\ forall set, saveStudySet s = Some set ->
     title set = currentSetTitle s
     /\ length (questions set) = length (rawRows s)
     /\ questions set <> []
     /\ map question (questions set) = map q (rawRows s)
     /\ map answer (questions set) = map a (rawRows s).
Proof.
  unfold saveStudySet. split.
  - rewrite <- trim_nil. case_bool_decide as Ht; cbn [orb].
    + split; [now left|reflexivity].
    + destruct (rawRows s) as [|row rows]; cbn.
      * split; [now right|reflexivity].
      * split; [discriminate|]. now intros [?|?].
  - intros set. destruct (_ || _) eqn:Hrefused; [discriminate|].
    intros [= <-]. cbn [title questions].
    apply orb_false_elim in Hrefused as [_ Hdeck].
    rewrite length_map, !map_map. cbn [question answer].
    repeat split; try reflexivity.
    destruct (rawRows s); [discriminate|easy].
Qed.

Lemma save_needs_a_title_and_a_deck_witness :
  title (mkStudySet (currentSetTitle choice_deck)
           (map (fun row => mkQuestion (q row) (a row)) (rawRows choice_deck)))
  = utf16 "quiz".
Proof.
  now apply (save_needs_a_title_and_a_deck choice_deck).
Defined.

Lemma progress_at_first_card s : idx s = 0 -> progress s = 0.
Proof.
  intros Hi. unfold progress. rewrite Hi. destruct (total s =? 0); [reflexivity|].
  unfold B64.div, B64.of_Z. cbn [B64.mant B64.expo].
  change (B64.scale_num 0 (- (0 - 0))) with 0.
  assert (H : forall d, B64.round 0 d = B64.mk 0 0) by reflexivity.
  change (- 0) with 0. rewrite !H. now destruct (_ <? 0).
Qed.

(** X13: loading a saved set starts a fresh session on the loaded deck: one
    card per stored question, a queue that holds every card exactly once
    (in stored order when shuffle is off), the cursor on the first card,
    progress 0, both classification lists empty, not started; the title
    becomes the one of the set, the list of saved sets closes and the three
    options stay as they were. *)
Theorem loading_starts_a_fresh_session rnd set s :
  fair rnd -> len (questions set) < 2 ^ 32 ->
  let s' := dispatch (loadStudySet rnd set) s in
  length (rawRows s') = length (questions set)
  /\ queue s' ≡ₚ identity_queue (length (questions set))
  /\ List.NoDup (queue s')
  /\ (shuffle s = false -> queue s' = identity_queue (length (questions set)))
  /\ idx s' = 0 /\ progress s' = 0 /\ flipped s' = false
  /\ known s' = [] /\ unknown s' = [] /\ started s' = false
  /\ currentSetTitle s' = title set /\ showSavedSets s' = false
  /\ shuffle s' = shuffle s /\ reverse s' = reverse s
  /\ autoRepeatUnknown s' = autoRepeatUnknown s.
Proof.
  intros Hfair Hsize. cbv zeta. unfold dispatch.
  destruct (loadStudySet_on rnd set s s)
    as (Hr & Hq & Hi & Hk & Hu & Hs & Hf & Ht & Hss & Hsh & Hrv & Har).
  assert (Hn : length (loaded_rows set) = length (questions set))
    by apply length_map.
  rewrite Hn in Hq.
  assert (Hperm : queue (apply_updates (loadStudySet rnd set s) s)
                  ≡ₚ identity_queue (length (questions set))).
  { rewrite Hq. now apply resetSession_queue. }
  repeat split; try assumption.
  - now rewrite Hr.
  - apply NoDup_ListNoDup. rewrite Hperm. apply identity_queue_NoDup.
  - intros Hoff. now rewrite Hq, Hoff.
  - now apply progress_at_first_card.
Qed.

Lemma loading_starts_a_fresh_session_witness :
  queue (dispatch (loadStudySet zero_source
                     (mkStudySet (utf16 "set")
                        [ mkQuestion (utf16 "Q1") (utf16 "A1");
                          mkQuestion (utf16 "Q2") (utf16 "A2") ]))
                  second_of_3)
  = identity_queue 2.
Proof.
  apply (loading_starts_a_fresh_session zero_source
           (mkStudySet (utf16 "set")
              [ mkQuestion (utf16 "Q1") (utf16 "A1");
                mkQuestion (utf16 "Q2") (utf16 "A2") ]) second_of_3).
  - exact zero_source_fair.
  - now vm_compute.
  - reflexivity.
Defined.

(** X14: saving a deck and loading the stored set gives a deck with the
    same title, as many cards, and on every card the same visible
    characters in the same order: only white space can differ. *)
Theorem save_then_load_keeps_the_ink rnd s set :
  saveStudySet s = Some set ->
  let s' := dispatch (loadStudySet rnd set) s in
  currentSetTitle s' = currentSetTitle s
  /\ length (rawRows s') = length (rawRows s)
  /\ map (fun row => ink (q row)) (rawRows s')
     = map (fun row => ink (q row)) (rawRows s)
  /\ map (fun row => ink (a row)) (rawRows s')
     = map (fun row => ink (a row)) (rawRows s).
Proof.
  unfold saveStudySet. destruct (_ || _); [discriminate|]. intros [= <-].
  cbv zeta. unfold dispatch.
  destruct (loadStudySet_on rnd
              (mkStudySet (currentSetTitle s)
                 (map (fun row => mkQuestion (q row) (a row)) (rawRows s))) s s)
    as (Hr & _ & _ & _ & _ & _ & _ & Ht & _).
  rewrite Hr, Ht. unfold loaded_rows. cbn [title questions].
  rewrite !map_map, !length_map. cbn [question answer q a].
  repeat split; apply map_ext; intros row; apply replace_markers_ink.
Qed.

Lemma save_then_load_keeps_the_ink_witness :
  length (rawRows (dispatch (loadStudySet zero_source
                     (mkStudySet (currentSetTitle choice_deck)
                        (map (fun row => mkQuestion (q row) (a row))
                             (rawRows choice_deck)))) choice_deck))
  = length (rawRows choice_deck).
Proof.
  now apply (save_then_load_keeps_the_ink zero_source choice_deck).
Defined.

(** ** Import *)

(** X15: an imported file always gives a shuffled session, whatever the
    shuffle switch shows: the deck is the normalized records, the queue is
    [shuffleArray] of the row indices (each exactly once), and the cursor,
    the lists and the start flag are reset while the options, the title and
    the switch itself stay as they were. *)
Theorem import_always_shuffles rnd records s :
  let s' := dispatch (handleFiles rnd records) s in
  let n := length (normalizeRecords records) in
  rawRows s' = normalizeRecords records
  /\ queue s' = shuffleArray rnd (identity_queue n)
  /\ shuffle s' = shuffle s
  /\ idx s' = 0 /\ known s' = [] /\ unknown s' = [] /\ started s' = false
  /\ flipped s' = false /\ reverse s' = reverse s
  /\ autoRepeatUnknown s' = autoRepeatUnknown s
  /\ currentSetTitle s' = currentSetTitle s
  /\ (fair rnd -> len records < 2 ^ 32 ->
      queue s' ≡ₚ identity_queue n /\ List.NoDup (queue s')).
Proof.
  cbv zeta. unfold dispatch.
  destruct (handleFiles_on rnd records s s)
    as (Hr & Hq & Hi & Hk & Hu & Hs & Hf & Hsh & Hrv & Har & Ht).
  repeat split; try assumption.
  all: assert (Hperm : shuffleArray rnd
         (identity_queue (length (normalizeRecords records)))
         ≡ₚ identity_queue (length (normalizeRecords records))).
  1,3: apply (resetSession_queue rnd _ initial); [assumption|];
    pose proof (normalizeRecords_length records); unfold len in *; lia.
  - now rewrite Hq.
  - apply NoDup_ListNoDup. rewrite Hq, Hperm. apply identity_queue_NoDup.
Qed.

Lemma import_always_shuffles_witness :
  shuffle second_of_3 = false
  /\ queue (dispatch (handleFiles zero_source three_rows) second_of_3)
     = [1; 2; 0]
  /\ queue (dispatch (handleFiles zero_source three_rows) second_of_3)
     ≡ₚ identity_queue 3.
Proof.
  split; [reflexivity|]. split; [reflexivity|].
  apply (import_always_shuffles zero_source three_rows second_of_3).
  - exact zero_source_fair.
  - now vm_compute.
Defined.

(** X16: [normalizeRecords] reads the records one by one and in order: the
    deck of a concatenation is the concatenation of the decks, a record
    gives at most one card, so a deck is never longer than the input;
    falsy records, other primitives and rows with fewer than two cells give
    none, and the cells of a row after the second are ignored. *)
Theorem normalizeRecords_reads_in_order xs ys :
  normalizeRecords (xs ++ ys) = normalizeRecords xs ++ normalizeRecords ys
  /\ (length (normalizeRecords xs) <= length xs)%nat
  /\ normalizeRecords (RFalsy :: xs) = normalizeRecords xs
  /\ normalizeRecords (ROther :: xs) = normalizeRecords xs
  /\ (forall c0, normalizeRecords (RArray [c0] :: xs) = normalizeRecords xs)
  /\ normalizeRecords (RArray [] :: xs) = normalizeRecords xs
  /\ (forall c0 c1 more,
        normalizeRecords (RArray (c0 :: c1 :: more) :: xs)
        = normalizeRecords (RArray [c0; c1] :: xs)).
Proof.
  rewrite !normalizeRecords_flat. split; [apply flat_map_app|].
  split; [rewrite <- normalizeRecords_flat; apply normalizeRecords_length|].
  repeat split; intros; rewrite !normalizeRecords_flat; cbn [flat_map];
    try reflexivity.
  cbn [normalizeRecord]. now destruct c0.
Qed.

Lemma shuffleArray_length {A} rnd (arr : list A) :
  length (shuffleArray rnd arr) = length arr.
Proof.
  unfold shuffleArray. generalize 0%nat, (length arr - 1)%nat. intros k i.
  revert k arr. induction i as [|i IH]; intros k arr; [reflexivity|].
  cbn [shuffle_loop]. rewrite IH. apply swap_length.
Qed.

(** X17: [shuffleArray] only reorders: for every array (of any element
    type) and every random source the result is a permutation of the input,
    of the same length, and arrays of at most one element come back as they
    are. *)
Theorem shuffleArray_only_reorders {A} rnd (arr : list A) :
  ((length arr <= 1)%nat -> shuffleArray rnd arr = arr)
  /\ (fair rnd -> len arr < 2 ^ 32 ->
      shuffleArray rnd arr ≡ₚ arr
      /\ length (shuffleArray rnd arr) = length arr
      /\ forall x, In x (shuffleArray rnd arr) <-> In x arr).
Proof.
  split.
  - intros Hlen. unfold shuffleArray.
    destruct arr as [|x [|y arr]]; [reflexivity..|cbn in Hlen; lia].
  - intros Hfair Hsize.
    assert (Hperm : shuffleArray rnd arr ≡ₚ arr).
    { apply shuffleArray_perm; [assumption|]. unfold len in Hsize.
      change (2 ^ 32) with 4294967296 in Hsize.
      change (2 ^ 52) with 4503599627370496. lia. }
    split; [exact Hperm|]. split; [apply shuffleArray_length|].
    intros x. rewrite <- !list_elem_of_In. now rewrite Hperm.
Qed.

Lemma shuffleArray_only_reorders_witness :
  shuffleArray zero_source [7] = [7]
  /\ shuffleArray zero_source [1; 2; 3] ≡ₚ [1; 2; 3].
Proof.
  destruct (shuffleArray_only_reorders zero_source [7]) as [H1 _].
  destruct (shuffleArray_only_reorders zero_source [1; 2; 3]) as [_ H3].
  split; [apply H1; cbn; lia|].
  apply H3; [exact zero_source_fair|now vm_compute].
Defined.

(** ** Classification, reset and flip *)

(** X18: marking a card unknown never touches Known, and with the repeat
    option off marking it known never touches Unknown and marking it unknown
    never touches the queue: a card marked both ways is then in both
    lists. *)
Theorem a_card_can_be_in_both_lists r s :
  0 <= currentIndex s ->
  let i := currentIndex s in
  known (dispatch (markUnknown r) s) = known s
  /\ In i (unknown (dispatch (markUnknown r) s))
  /\ In i (known (dispatch markKnown s))
  /\ (autoRepeatUnknown s = false ->
      unknown (dispatch markKnown s) = unknown s
      /\ queue (dispatch (markUnknown r) s) = queue s
      /\ (In i (unknown s) ->
          In i (known (dispatch markKnown s))
          /\ In i (unknown (dispatch markKnown s)))).
Proof.
  intros Hi. cbv zeta. unfold dispatch.
  destruct (markKnown_on s s Hi) as (_ & _ & _ & Hk & Hu & _).
  destruct (markUnknown_on r s s Hi) as (_ & _ & Hk' & Hu' & Hq' & _).
  assert (Hin : In (currentIndex s) (known (apply_updates (markKnown s) s))).
  { rewrite Hk. destruct (includes (known s) (currentIndex s)) eqn:Hinc.
    - now apply includes_In.
    - apply in_or_app. right. now left. }
  split; [exact Hk'|]. split; [|split; [exact Hin|]].
  - rewrite Hu'. destruct (includes (unknown s) (currentIndex s)) eqn:Hinc.
    + now apply includes_In.
    + apply in_or_app. right. now left.
  - intros Hoff. rewrite Hoff in Hu, Hq'. rewrite Hu, Hq'. auto.
Qed.

Lemma a_card_can_be_in_both_lists_witness :
  known (dispatch (markUnknown one_half) second_of_3) = known second_of_3
  /\ In 1 (unknown (dispatch (markUnknown one_half) second_of_3)).
Proof.
  assert (Hi : 0 <= currentIndex second_of_3) by now vm_compute.
  destruct (a_card_can_be_in_both_lists one_half second_of_3 Hi)
    as (Hk & Hu & _).
  split; [exact Hk|exact Hu].
Defined.

(** X19: the reset button keeps the deck, the title and the three options
    and puts the session back to its start: cursor 0, progress 0, question
    side up, empty lists, not started; with shuffle off the queue is the
    file order, and a second reset changes nothing. *)
Theorem reset_returns_to_the_start rnd rnd' s :
  let s' := dispatch (onClick rnd ResetButton) s in
  rawRows s' = rawRows s /\ currentSetTitle s' = currentSetTitle s
  /\ shuffle s' = shuffle s /\ reverse s' = reverse s
  /\ autoRepeatUnknown s' = autoRepeatUnknown s
  /\ idx s' = 0 /\ progress s' = 0 /\ flipped s' = false
  /\ known s' = [] /\ unknown s' = [] /\ started s' = false
  /\ len (queue s') = len (rawRows s)
  /\ (shuffle s = false ->
      queue s' = identity_queue (length (rawRows s))
      /\ dispatch (onClick rnd' ResetButton) s' = s').
Proof.
  cbv zeta. unfold dispatch. cbn [onClick].
  destruct (resetSession_on rnd (length (rawRows s)) s s)
    as (Hr & Hq & Hi & Hk & Hu & Hs & Hf & Hsh & Hrv & Har & Ht).
  repeat split; try assumption.
  - now apply progress_at_first_card.
  - rewrite Hq. unfold len. f_equal.
    assert (Hid : length (identity_queue (length (rawRows s)))
                  = length (rawRows s)).
    { unfold identity_queue. now rewrite length_map, length_seq. }
    destruct (shuffle s); [|exact Hid]. now rewrite shuffleArray_length.
  - rewrite Hq. now destruct (shuffle s).
  - destruct s as [rr qu ix fl kn un st sh rv ar ti ss].
    cbn [shuffle] in *. subst sh. reflexivity.
Qed.

Lemma reset_returns_to_the_start_witness :
  queue (dispatch (onClick zero_source ResetButton) second_of_3)
  = identity_queue 3.
Proof.
  now apply (reset_returns_to_the_start zero_source zero_source second_of_3).
Defined.




(** What one operation of the engine, queued by the render [c], does to the
    deck and the queue of the state [v]. *)
Lemma operation_keeps_deck r c v op :
  op = [] \/ op = next c \/ op = prev c \/ op = markKnown c
  \/ op = markUnknown r c ->
  let v' := apply_updates op v in
  rawRows v' = rawRows v
  /\ (queue v' = queue v
      \/ exists p i, queue v' = splice_insert (queue v) p i).
Proof.
  intros [->|[->|[->|[->| ->]]]]; cbv zeta.
  - auto.
  - destruct (next_on c v) as (Hr & Hq & _). auto.
  - destruct (prev_on c v) as (Hr & Hq & _). auto.
  - destruct (Z_lt_le_dec (currentIndex c) 0) as [Hneg|Hpos].
    + destruct (no_card_no_updates r c Hneg) as [-> _]. auto.
    + destruct (markKnown_on c v Hpos) as (Hr & Hq & _). auto.
  - destruct (Z_lt_le_dec (currentIndex c) 0) as [Hneg|Hpos].
    + destruct (no_card_no_updates r c Hneg) as [_ ->]. auto.
    + destruct (markUnknown_on r c v Hpos) as (Hr & _ & _ & _ & Hq & _).
      split; [exact Hr|]. rewrite Hq. destruct (autoRepeatUnknown c); eauto.
Qed.

Lemma event_keeps_deck rnd ev app :
  let v := view app in
  let v' := view (step rnd ev app) in
  (replaces_deck ev = false -> rawRows v' = rawRows v)
  /\ (rebuilds_queue ev = false ->
      queue v' = queue v
      \/ exists p i, queue v' = splice_insert (queue v) p i).
Proof.
  cbv zeta. unfold step. cbn [view]. destruct ev as [c|e].
  - cbn [updates_of]. destruct (rendered (view app) c); [|now auto].
    pose proof (operation_keeps_deck (rnd 0%nat) (view app) (view app)) as Hop.
    cbv zeta in Hop.
    destruct c; cbn [replaces_deck rebuilds_queue onClick].
    + split; [intros _|discriminate].
      now destruct (resetSession_on rnd (length (rawRows (view app)))
                      (view app) (view app)) as (? & _).
    + split; discriminate.
    + split; discriminate.
    + split; intros _; [|left]; now destruct (view app).
    + split; intros _; [|left]; now destruct (view app).
    + split; intros _; [|left]; now destruct (view app).
    + split; intros _; [|left]; now destruct (view app).
    + split; intros _; [|left]; now destruct (view app).
    + split; intros _; apply Hop; auto.
    + split; intros _; apply Hop; auto 6.
    + split; intros _; apply Hop; auto 6.
    + split; intros _; apply Hop; auto.
    + split; [intros _|discriminate].
      now destruct (session_shuffle_on rnd (view app)) as (? & _).
    + split; intros _; [|left]; now destruct (view app).
    + split; intros _; [|left]; now destruct (view app).
  - cbn [updates_of replaces_deck rebuilds_queue].
    destruct (onKey_shape (rnd 0%nat) e (listener app))
      as (fl & op & Hfl & Hop & ->).
    rewrite apply_updates_app.
    destruct (operation_keeps_deck (rnd 0%nat) (listener app)
                (apply_updates fl (view app)) op Hop) as [Hr Hq].
    assert (Hflip : rawRows (apply_updates fl (view app)) = rawRows (view app)
                    /\ queue (apply_updates fl (view app)) = queue (view app)).
    { destruct Hfl as [-> | ->]; [now split|].
      now destruct (toggleFlip_on (listener app) (view app)) as (? & ? & _). }
    destruct Hflip as [Hr' Hq']. rewrite Hr' in Hr. rewrite Hq' in Hq. auto.
Qed.

(** X21: the deck changes only when a file is imported or a saved set is
    loaded, and apart from those two, the reset button and the shuffle
    switch of the session options, no click and no key press takes a card
    out of the queue: the queue stays as it is or gets one more entry, and
    every entry stays. *)
Theorem cards_stay_in_the_queue rnd ev app :
  let v := view app in
  let v' := view (step rnd ev app) in
  (replaces_deck ev = false -> rawRows v' = rawRows v)
  /\ (rebuilds_queue ev = false ->
      len (queue v) <= len (queue v') <= len (queue v) + 1
      /\ (forall i, In i (queue v) -> In i (queue v'))
      /\ (len (queue v') = len (queue v) -> queue v' = queue v)).
Proof.
  cbv zeta. destruct (event_keeps_deck rnd ev app) as [Hdeck Hqueue].
  split; [exact Hdeck|]. intros Hev.
  destruct (Hqueue Hev) as [-> | (p & i & ->)].
  - repeat split; auto; lia.
  - rewrite splice_insert_length. repeat split; try lia.
    intros j Hj. apply splice_insert_In. now right.
Qed.

Lemma cards_stay_in_the_queue_witness :
  rawRows (view (step zero_source (Click UnknownButton) at_last_card))
  = rawRows (view at_last_card)
  /\ len (queue (view at_last_card))
     <= len (queue (view (step zero_source (Click UnknownButton) at_last_card))).
Proof.
  destruct (cards_stay_in_the_queue zero_source (Click UnknownButton)
              at_last_card) as [Hdeck Hqueue].
  split; [exact (Hdeck eq_refl)|].
  destruct (Hqueue eq_refl) as ((Hlen & _) & _). exact Hlen.
Defined.

(** ** Going through a session *)

Lemma moved_twice s i j : moved (moved s i) j = moved s j.
Proof. reflexivity. Qed.

Lemma moved_queue s s' i : moved s' i = moved s i -> queue s' = queue s.
Proof. intros H. now apply (f_equal queue) in H. Qed.

(** X23: [next] stops at the last card and [prev] at the first: pressed k
    times from a position of the queue they lead to the position k further,
    but not beyond the end, and k back, but not before the start, and they
    change nothing but the cursor and the side shown. *)
Theorem navigation_stops_at_the_ends k s :
  0 <= idx s < len (queue s) ->
  let forth := Nat.iter k (dispatch next) s in
  let back := Nat.iter k (dispatch prev) s in
  idx forth = Z.min (idx s + Z.of_nat k) (len (queue s) - 1)
  /\ idx back = Z.max (idx s - Z.of_nat k) 0
  /\ moved forth (idx s) = moved s (idx s)
  /\ moved back (idx s) = moved s (idx s).
Proof.
  intros Hi. cbv zeta.
  assert (Hforth : idx (Nat.iter k (dispatch next) s)
                   = Z.min (idx s + Z.of_nat k) (len (queue s) - 1)
                   /\ moved (Nat.iter k (dispatch next) s) (idx s)
                      = moved s (idx s)).
  { induction k as [|k [IHi IHm]]; [split; [cbn; lia|reflexivity]|].
    rewrite Nat.iter_succ, dispatch_next, (moved_queue _ _ _ IHm), IHi.
    destruct (Z.ltb_spec (Z.min (idx s + Z.of_nat k) (len (queue s) - 1))
                (len (queue s) - 1)).
    - rewrite moved_twice. split; [cbn [moved idx]; lia|exact IHm].
    - split; [lia|exact IHm]. }
  assert (Hback : idx (Nat.iter k (dispatch prev) s)
                  = Z.max (idx s - Z.of_nat k) 0
                  /\ moved (Nat.iter k (dispatch prev) s) (idx s)
                     = moved s (idx s)).
  { clear Hforth. induction k as [|k [IHi IHm]]; [split; [cbn; lia|reflexivity]|].
    rewrite Nat.iter_succ, dispatch_prev, IHi.
    destruct (Z.ltb_spec 0 (Z.max (idx s - Z.of_nat k) 0)).
    - rewrite moved_twice. split; [cbn [moved idx]; lia|exact IHm].
    - split; [lia|exact IHm]. }
  destruct Hforth, Hback. auto.
Qed.

Lemma navigation_stops_at_the_ends_witness :
  idx (Nat.iter 5 (dispatch next) second_of_3) = 2
  /\ idx (Nat.iter 5 (dispatch prev) second_of_3) = 0.
Proof.
  assert (Hi : 0 <= idx second_of_3 < len (queue second_of_3)) by now vm_compute.
  destruct (navigation_stops_at_the_ends 5 second_of_3 Hi) as (Hf & Hb & _).
  split; [exact Hf|exact Hb].
Defined.

Lemma current_card_at s i c :
  idx s = Z.of_nat i -> queue s !! i = Some c -> currentIndex s = c.
Proof.
  intros Hi Hc. unfold currentIndex, at_index. rewrite Hi.
  destruct (Z.ltb_spec (Z.of_nat i) 0); [lia|]. now rewrite Nat2Z.id, Hc.
Qed.

(** One more click on the known button, [k] clicks into a fresh session. *)
Lemma markKnown_round s k f :
  List.NoDup (queue s) -> Forall (fun v => 0 <= v) (queue s) ->
  queue f = queue s /\ rawRows f = rawRows s
  /\ known f = take k (queue s)
  /\ idx f = Z.max 0 (Z.min (Z.of_nat k) (len (queue s) - 1)) ->
  let f' := dispatch markKnown f in
  queue f' = queue s /\ rawRows f' = rawRows s
  /\ known f' = take (S k) (queue s)
  /\ idx f' = Z.max 0 (Z.min (Z.of_nat (S k)) (len (queue s) - 1)).
Proof.
  intros Hnd Hpos (Hq & Hr & Hk & Hi). cbv zeta. unfold dispatch.
  destruct (queue s) as [|v0 qu] eqn:Hqs.
  { assert (Hneg : currentIndex f < 0).
    { unfold currentIndex, at_index. rewrite Hq.
      destruct (idx f <? 0); [cbn; lia|]. rewrite lookup_nil. cbn. lia. }
    destruct (no_card_no_updates (B64.mk 0 0) f Hneg) as [-> _].
    cbn [apply_updates fold_left]. rewrite Hq, Hr, Hk, Hi, !take_nil.
    unfold len. cbn [length]. repeat split. lia. }
  rewrite <- Hqs in *.
  assert (Hn : 0 < len (queue s)) by (rewrite Hqs; unfold len; cbn; lia).
  set (i := Z.to_nat (Z.max 0 (Z.min (Z.of_nat k) (len (queue s) - 1)))).
  assert (Hidx : idx f = Z.of_nat i) by (subst i; lia).
  assert (Hspec : Z.of_nat i = Z.max 0 (Z.min (Z.of_nat k) (len (queue s) - 1)))
    by (subst i; lia).
  clearbody i.
  destruct (lookup_lt_is_Some_2 (queue s) i) as [c Hc];
    [unfold len in *; lia|].
  assert (Hcur : currentIndex f = c).
  { apply (current_card_at f i); [exact Hidx|now rewrite Hq]. }
  assert (Hc0 : 0 <= c).
  { rewrite Forall_forall in Hpos. apply Hpos.
    eapply list_elem_of_lookup_2. exact Hc. }
  destruct (markKnown_on f f) as (Hr' & Hq' & _ & Hk' & _ & Hi'); [lia|].
  rewrite Hr', Hq', Hk', Hi', Hq, Hr, Hk, Hcur. repeat split.
  - destruct (Nat.lt_ge_cases k (length (queue s))) as [Hlt|Hge].
    + assert (Hik : i = k) by (unfold len in *; lia). subst k.
      rewrite (take_S_r _ _ c Hc).
      destruct (includes (take i (queue s)) c) eqn:Hinc; [|reflexivity].
      exfalso. apply includes_In, list_elem_of_In in Hinc.
      apply list_elem_of_lookup_1 in Hinc as [j Hj].
      apply lookup_take_Some in Hj as [Hj Hlt'].
      apply NoDup_ListNoDup in Hnd.
      pose proof (NoDup_lookup _ _ _ _ Hnd Hj Hc). lia.
    + rewrite !take_ge by lia.
      destruct (includes (queue s) c) eqn:Hinc; [reflexivity|].
      exfalso. assert (Hin : In c (queue s)).
      { apply list_elem_of_In. eapply list_elem_of_lookup_2. exact Hc. }
      apply includes_In in Hin. congruence.
  - rewrite Hidx. destruct (Z.ltb_spec (Z.of_nat i) (len (queue s) - 1)); lia.
Qed.

(** X24: in a fresh session (cursor 0, Known empty, a queue of distinct
    indices) clicking the known button once per card, or more often, goes
    through the queue to its last card and leaves in Known every card of
    the queue exactly once, in queue order; the queue and the deck stay as
    they are. *)
Theorem marking_every_card_known m s :
  idx s = 0 -> known s = [] ->
  List.NoDup (queue s) -> Forall (fun v => 0 <= v) (queue s) ->
  (length (queue s) <= m)%nat ->
  let s' := Nat.iter m (dispatch markKnown) s in
  known s' = queue s /\ queue s' = queue s /\ rawRows s' = rawRows s
  /\ idx s' = Z.max 0 (len (queue s) - 1).
Proof.
  intros Hi Hk Hnd Hpos Hm. cbv zeta.
  assert (H : forall k,
    let f := Nat.iter k (dispatch markKnown) s in
    queue f = queue s /\ rawRows f = rawRows s
    /\ known f = take k (queue s)
    /\ idx f = Z.max 0 (Z.min (Z.of_nat k) (len (queue s) - 1))).
  { induction k as [|k IH].
    - cbn [Nat.iter nat_rect]. rewrite Hi, Hk, take_0.
      repeat split. pose proof (len_nonneg (queue s)). lia.
    - cbv zeta. rewrite Nat.iter_succ. now apply markKnown_round. }
  destruct (H m) as (Hq' & Hr' & Hk' & Hi'). unfold len in *.
  rewrite take_ge in Hk' by lia. repeat split; try assumption.
  rewrite Hi'. lia.
Qed.

Lemma marking_every_card_known_witness :
  known (Nat.iter 3 (dispatch markKnown)
           (mkState (deck_of 3) [2; 0; 1] 0 false [] [] true true false true
                    [] false))
  = [2; 0; 1].
Proof.
  apply (marking_every_card_known 3
           (mkState (deck_of 3) [2; 0; 1] 0 false [] [] true true false true
                    [] false)); try reflexivity.
  - repeat constructor; cbn; intuition lia.
  - repeat constructor; lia.
Defined.

(** ** Progress never goes back *)

Module B64_order.
Import B64 B64_facts.

(** Rounding to the nearest integer keeps the order of fractions. *)
Lemma nearest_even_mono N1 D1 N2 D2 :
  0 < D1 -> 0 < D2 -> N1 * D2 <= N2 * D1 ->
  nearest_even N1 D1 <= nearest_even N2 D2.
Proof.
  intros HD1 HD2 Hle. unfold nearest_even.
  pose proof (Z_div_mod_eq_full N1 D1) as Heq1.
  pose proof (Z.mod_pos_bound N1 D1 HD1) as Hr1.
  pose proof (Z_div_mod_eq_full N2 D2) as Heq2.
  pose proof (Z.mod_pos_bound N2 D2 HD2) as Hr2.
  set (k1 := N1 / D1) in *. set (r1 := N1 mod D1) in *.
  set (k2 := N2 / D2) in *. set (r2 := N2 mod D2) in *.
  clearbody k1 r1 k2 r2.
  assert (Hk : k1 <= k2).
  { destruct (Z_le_gt_dec k1 k2) as [|Hgt]; [assumption|exfalso].
    assert (H1 : (k2 + 1) * D2 <= k1 * D2)
      by (apply Z.mul_le_mono_nonneg_r; lia).
    assert (H2 : N2 * D1 < (k2 + 1) * D2 * D1)
      by (apply Z.mul_lt_mono_pos_r; lia).
    assert (H3 : (k2 + 1) * D2 * D1 <= k1 * D2 * D1)
      by (apply Z.mul_le_mono_nonneg_r; lia).
    assert (H4 : k1 * D1 * D2 <= N1 * D2)
      by (apply Z.mul_le_mono_nonneg_r; lia).
    lia. }
  destruct (Z.eq_dec k1 k2) as [Heq|Hne].
  - subst k2.
    assert (Hr : r1 * D2 <= r2 * D1).
    { subst N1 N2. lia. }
    destruct (Z.ltb_spec (2 * r1) D1) as [Ha|Ha].
    { destruct (2 * r2 <? D2); [lia|]. destruct (D2 <? 2 * r2); [lia|].
      destruct (Z.even k1); lia. }
    assert (Hr2' : D2 <= 2 * r2).
    { destruct (Z_le_gt_dec D2 (2 * r2)) as [|Hgt]; [assumption|exfalso].
      assert (2 * r2 * D1 < D2 * D1) by (apply Z.mul_lt_mono_pos_r; lia).
      assert (D1 * D2 <= 2 * r1 * D2) by (apply Z.mul_le_mono_nonneg_r; lia).
      lia. }
    destruct (Z.ltb_spec (2 * r2) D2) as [Hb|_]; [lia|].
    destruct (Z.ltb_spec D1 (2 * r1)) as [Hc|Hc].
    + assert (Hr2'' : D2 < 2 * r2).
      { destruct (Z_lt_le_dec D2 (2 * r2)) as [|Hle2]; [assumption|exfalso].
        assert (2 * r2 * D1 <= D2 * D1) by (apply Z.mul_le_mono_nonneg_r; lia).
        assert (D1 * D2 < 2 * r1 * D2) by (apply Z.mul_lt_mono_pos_r; lia).
        lia. }
      destruct (Z.ltb_spec D2 (2 * r2)); lia.
    + destruct (D2 <? 2 * r2); destruct (Z.even k1); lia.
  - assert (k1 + 1 <= k2) by lia.
    destruct (2 * r1 <? D1), (D1 <? 2 * r1), (Z.even k1),
      (2 * r2 <? D2), (D2 <? 2 * r2), (Z.even k2); lia.
Qed.

(** Correct rounding keeps the order of positive fractions below 2^53. *)
Lemma round_pos_mono n1 d1 n2 d2 :
  0 < n1 -> 0 < d1 -> 0 < n2 -> 0 < d2 ->
  n1 * d2 <= n2 * d1 ->
  expo (round_pos n1 d1) < 0 -> expo (round_pos n2 d2) < 0 ->
  below (round_pos n1 d1) (round_pos n2 d2).
Proof.
  intros Hn1 Hd1 Hn2 Hd2 Hle. unfold below.
  pose proof (round_pos_spec n1 d1 Hn1 Hd1) as (_ & Hnorm1 & Hnear1 & _).
  pose proof (round_pos_spec n2 d2 Hn2 Hd2) as (_ & Hnorm2 & Hnear2 & _).
  cbv zeta in *.
  assert (Hm1 : mant (round_pos n1 d1)
                = nearest_even (scale_num n1 (expo (round_pos n1 d1)))
                               (scale_den d1 (expo (round_pos n1 d1))))
    by reflexivity.
  assert (Hm2 : mant (round_pos n2 d2)
                = nearest_even (scale_num n2 (expo (round_pos n2 d2)))
                               (scale_den d2 (expo (round_pos n2 d2))))
    by reflexivity.
  revert Hnorm1 Hnear1 Hnorm2 Hnear2 Hm1 Hm2.
  generalize (mant (round_pos n1 d1)), (expo (round_pos n1 d1)),
             (mant (round_pos n2 d2)), (expo (round_pos n2 d2)).
  intros m1 e1 m2 e2. unfold scale_num, scale_den.
  intros Hnorm1 Hnear1 Hnorm2 Hnear2 Hm1 Hm2 He1 He2.
  destruct (Z.ltb_spec e1 0); [|lia]. destruct (Z.ltb_spec e2 0); [|lia].
  pow2_literals.
  assert (HY1 : 0 < 2 ^ (- e1)) by (apply Z.pow_pos_nonneg; lia).
  assert (HY2 : 0 < 2 ^ (- e2)) by (apply Z.pow_pos_nonneg; lia).
  destruct (Z.lt_trichotomy e1 e2) as [Hlt|[Heq|Hgt]].
  - (* the first value has the finer unit: it is the smaller one *)
    assert (Hpow : 2 ^ (- e1) = 2 ^ (- e2) * 2 ^ (e2 - e1)).
    { rewrite <- Z.pow_add_r by lia. f_equal. lia. }
    assert (Hstep : 2 <= 2 ^ (e2 - e1)).
    { change 2 with (2 ^ 1) at 1. apply Z.pow_le_mono_r; lia. }
    set (Y1 := 2 ^ (- e1)) in *. set (Y2 := 2 ^ (- e2)) in *.
    set (P := 2 ^ (e2 - e1)) in *. clearbody Y1 Y2 P.
    assert (Hm1hi : m1 <= 9007199254740992).
    { assert (Hm : m1 * d1 < (9007199254740992 + 1) * d1) by lia.
      apply Z.mul_lt_mono_pos_r in Hm; lia. }
    assert (Hm2lo : 4503599627370496 <= m2).
    { assert (Hm : (4503599627370496 - 1) * d2 < m2 * d2) by lia.
      apply Z.mul_lt_mono_pos_r in Hm; lia. }
    assert (m1 * Y2 <= 9007199254740992 * Y2)
      by (apply Z.mul_le_mono_nonneg_r; lia).
    assert (4503599627370496 * Y1 <= m2 * Y1)
      by (apply Z.mul_le_mono_nonneg_r; lia).
    assert (Y2 * 2 <= Y2 * P) by (apply Z.mul_le_mono_nonneg_l; lia).
    lia.
  - subst e2. apply Z.mul_le_mono_nonneg_r; [lia|].
    rewrite Hm1, Hm2. apply nearest_even_mono; try assumption.
    replace (n1 * 2 ^ (- e1) * d2) with (n1 * d2 * 2 ^ (- e1)) by ring.
    replace (n2 * 2 ^ (- e1) * d1) with (n2 * d1 * 2 ^ (- e1)) by ring.
    apply Z.mul_le_mono_nonneg_r; lia.
  - (* the first value has the coarser unit: it would be the larger one *)
    exfalso.
    assert (Hpow : 2 ^ (- e2) = 2 ^ (- e1) * 2 ^ (e1 - e2)).
    { rewrite <- Z.pow_add_r by lia. f_equal. lia. }
    assert (Hstep : 2 <= 2 ^ (e1 - e2)).
    { change 2 with (2 ^ 1) at 1. apply Z.pow_le_mono_r; lia. }
    set (Y1 := 2 ^ (- e1)) in *. set (Y2 := 2 ^ (- e2)) in *.
    set (P := 2 ^ (e1 - e2)) in *. clearbody Y1 Y2 P.
    (* 2^52 d1 <= n1 Y1 and n2 Y2 < 2^53 d2, with Y2 >= 2 Y1 *)
    assert (H1 : 4503599627370496 * d1 * d2 <= n1 * Y1 * d2)
      by (apply Z.mul_le_mono_nonneg_r; lia).
    assert (H2 : n2 * Y2 * d1 < 9007199254740992 * d2 * d1)
      by (apply Z.mul_lt_mono_pos_r; lia).
    assert (H3 : n1 * d2 * Y1 <= n2 * d1 * Y1)
      by (apply Z.mul_le_mono_nonneg_r; lia).
    assert (H4 : n2 * d1 * (Y1 * 2) <= n2 * d1 * (Y1 * P)).
    { apply Z.mul_le_mono_nonneg_l; [lia|].
      apply Z.mul_le_mono_nonneg_l; lia. }
    subst Y2. lia.
Qed.

(** A fraction below 2^52 is rounded at a negative exponent, to a positive
    mantissa. *)
Lemma round_pos_small n d :
  0 < n -> 0 < d -> n < 2 ^ 52 * d ->
  expo (round_pos n d) < 0 /\ 0 < mant (round_pos n d).
Proof.
  intros Hn Hd Hsmall.
  pose proof (round_pos_spec n d Hn Hd) as (HD & Hnorm & Hnear & _).
  cbv zeta in *. revert HD Hnorm Hnear.
  generalize (mant (round_pos n d)), (expo (round_pos n d)). intros m e.
  unfold scale_num, scale_den. pow2_literals.
  destruct (Z.ltb_spec e 0) as [He|He].
  - intros _ Hnorm Hnear. split; [assumption|].
    assert (Hm : 0 * d < m * d) by lia.
    apply Z.mul_lt_mono_pos_r in Hm; lia.
  - intros HD Hnorm _. exfalso.
    assert (0 < 2 ^ e) by (apply Z.pow_pos_nonneg; lia).
    assert (d * 1 <= d * 2 ^ e) by (apply Z.mul_le_mono_nonneg_l; lia).
    lia.
Qed.

(** [Math.round] keeps the order. *)
Lemma jsround_mono x y :
  expo x < 0 -> expo y < 0 -> below x y -> jsround x <= jsround y.
Proof.
  unfold below, jsround. intros Hx Hy Hle.
  destruct (Z.ltb_spec (expo x) 0); [|lia].
  destruct (Z.ltb_spec (expo y) 0); [|lia].
  replace (1 - expo x) with (Z.succ (- expo x)) by lia.
  replace (1 - expo y) with (Z.succ (- expo y)) by lia.
  rewrite !Z.pow_succ_r by lia.
  assert (HY1 : 0 < 2 ^ (- expo x)) by (apply Z.pow_pos_nonneg; lia).
  assert (HY2 : 0 < 2 ^ (- expo y)) by (apply Z.pow_pos_nonneg; lia).
  set (Y1 := 2 ^ (- expo x)) in *. set (Y2 := 2 ^ (- expo y)) in *.
  set (m1 := mant x) in *. set (m2 := mant y) in *.
  clearbody Y1 Y2 m1 m2.
  apply Z.div_le_lower_bound; [lia|].
  pose proof (Z.mul_div_le (2 * m1 + Y1) (2 * Y1) ltac:(lia)) as Hk.
  set (k := (2 * m1 + Y1) / (2 * Y1)) in *. clearbody k.
  assert (H1 : 2 * Y1 * k * Y2 <= (2 * m1 + Y1) * Y2)
    by (apply Z.mul_le_mono_nonneg_r; lia).
  assert (H2 : Y1 * (2 * Y2 * k) <= Y1 * (2 * m2 + Y2)).
  { replace (Y1 * (2 * Y2 * k)) with (2 * Y1 * k * Y2) by ring.
    replace (Y1 * (2 * m2 + Y2)) with (2 * (m2 * Y1) + Y1 * Y2) by ring.
    replace ((2 * m1 + Y1) * Y2) with (2 * (m1 * Y2) + Y1 * Y2) in H1 by ring.
    lia. }
  apply Z.mul_le_mono_pos_l in H2; lia.
Qed.

(** [Math.round(i / t * 100)] grows with the fraction [i / t]. *)
Lemma percent_mono i1 t1 i2 t2 :
  0 <= i1 < t1 -> 0 <= i2 < t2 -> i1 * t2 <= i2 * t1 ->
  jsround (mul (div (of_Z i1) (of_Z t1)) (of_Z 100))
  <= jsround (mul (div (of_Z i2) (of_Z t2)) (of_Z 100)).
Proof.
  intros H1 H2 Hle.
  destruct (Z.eqb_spec i1 0) as [->|Hi1].
  { rewrite (div_of_Z 0) by lia. change (round 0 t1) with (mk 0 0).
    change (jsround (mul (mk 0 0) (of_Z 100))) with 0.
    now apply percent_range. }
  assert (Hi2 : 0 < i2).
  { destruct (Z.eqb_spec i2 0) as [->|]; [|lia]. exfalso.
    assert (0 < i1 * t2) by (apply Z.mul_pos_pos; lia). lia. }
  rewrite !div_of_Z, !round_pos_eq by lia.
  assert (Hs1 : i1 < 2 ^ 52 * t1) by (pow2_literals; lia).
  assert (Hs2 : i2 < 2 ^ 52 * t2) by (pow2_literals; lia).
  destruct (round_pos_small i1 t1) as [He1 Hm1]; [lia..|].
  destruct (round_pos_small i2 t2) as [He2 Hm2]; [lia..|].
  pose proof (round_pos_mono i1 t1 i2 t2) as Hx. unfold below in Hx.
  pose proof (round_pos_spec i1 t1) as (_ & Hn1 & Hr1 & _); [lia..|].
  pose proof (round_pos_spec i2 t2) as (_ & Hn2 & Hr2 & _); [lia..|].
  cbv zeta in *.
  revert He1 Hm1 He2 Hm2 Hx Hn1 Hr1 Hn2 Hr2.
  generalize (round_pos i1 t1), (round_pos i2 t2). intros [M1 E1] [M2 E2].
  cbn [mant expo]. unfold scale_num, scale_den.
  intros He1 Hm1 He2 Hm2 Hx Hn1 Hr1 Hn2 Hr2.
  destruct (Z.ltb_spec E1 0); [|lia]. destruct (Z.ltb_spec E2 0); [|lia].
  specialize (Hx ltac:(lia) ltac:(lia) ltac:(lia) ltac:(lia) Hle He1 He2).
  rewrite !mul_frac by (cbn; lia). cbn [mant expo of_Z]. rewrite !Z.add_0_r.
  assert (HY1 : 0 < 2 ^ (- E1)) by (apply Z.pow_pos_nonneg; lia).
  assert (HY2 : 0 < 2 ^ (- E2)) by (apply Z.pow_pos_nonneg; lia).
  set (Y1 := 2 ^ (- E1)) in *. set (Y2 := 2 ^ (- E2)) in *.
  clearbody Y1 Y2. pow2_literals.
  assert (HM1 : M1 <= Y1).
  { assert (Hi : i1 * Y1 <= (t1 - 1) * Y1)
      by (apply Z.mul_le_mono_nonneg_r; lia).
    assert (Hm : M1 * t1 < (Y1 + 1) * t1) by lia.
    apply Z.mul_lt_mono_pos_r in Hm; lia. }
  assert (HM2 : M2 <= Y2).
  { assert (Hi : i2 * Y2 <= (t2 - 1) * Y2)
      by (apply Z.mul_le_mono_nonneg_r; lia).
    assert (Hm : M2 * t2 < (Y2 + 1) * t2) by lia.
    apply Z.mul_lt_mono_pos_r in Hm; lia. }
  rewrite !round_pos_eq by lia.
  destruct (round_pos_small (M1 * 100) Y1) as [Hf1 _]; [lia..|].
  destruct (round_pos_small (M2 * 100) Y2) as [Hf2 _]; [lia..|].
  apply jsround_mono; try assumption.
  apply round_pos_mono; try assumption; lia.
Qed.

End B64_order.

(** X25: the progress value follows the fraction [idx / total]: at valid
    positions it never goes down when that fraction does not.  So the next
    button, the known button, and the unknown button away from the last
    card or with the repeat option off never lower it, and the previous
    button never raises it. *)
Theorem progress_never_goes_back r s :
  0 <= idx s < total s ->
  (forall s', 0 <= idx s' < total s' ->
              idx s * total s' <= idx s' * total s ->
              progress s <= progress s')
  /\ progress s <= progress (dispatch next s)
  /\ progress (dispatch prev s) <= progress s
  /\ progress s <= progress (dispatch markKnown s)
  /\ (idx s < total s - 1 \/ autoRepeatUnknown s = false ->
      progress s <= progress (dispatch (markUnknown r) s)).
Proof.
  intros Hi.
  assert (Hmono : forall a b, 0 <= idx a < total a -> 0 <= idx b < total b ->
            idx a * total b <= idx b * total a -> progress a <= progress b).
  { intros a b Ha Hb Hle. unfold progress.
    destruct (Z.eqb_spec (total a) 0); [lia|].
    destruct (Z.eqb_spec (total b) 0); [lia|].
    now apply B64_order.percent_mono. }
  unfold total in *. split; [intros s' Hs' Hle; now apply Hmono|].
  split; [|split; [|split]].
  - destruct (next_on s s) as (_ & Hq & _ & _ & _ & Hidx). unfold dispatch.
    apply Hmono; unfold total; rewrite ?Hq, ?Hidx;
      destruct (Z.ltb_spec (idx s) (len (queue s) - 1)); nia.
  - destruct (prev_on s s) as (_ & Hq & _ & _ & _ & Hidx). unfold dispatch.
    apply Hmono; unfold total; rewrite ?Hq, ?Hidx;
      destruct (Z.ltb_spec 0 (idx s)); nia.
  - destruct (Z_lt_le_dec (currentIndex s) 0) as [Hneg|Hpos].
    { unfold dispatch. destruct (no_card_no_updates r s Hneg) as [-> _].
      cbn [apply_updates fold_left]. lia. }
    destruct (markKnown_on s s Hpos) as (_ & Hq & _ & _ & _ & Hidx).
    unfold dispatch. apply Hmono; unfold total; rewrite ?Hq, ?Hidx;
      destruct (Z.ltb_spec (idx s) (len (queue s) - 1)); nia.
  - intros Hcase. destruct (Z_lt_le_dec (currentIndex s) 0) as [Hneg|Hpos].
    { unfold dispatch. destruct (no_card_no_updates r s Hneg) as [_ ->].
      cbn [apply_updates fold_left]. lia. }
    destruct (markUnknown_on r s s Hpos) as (_ & _ & _ & _ & Hq & Hidx).
    unfold dispatch.
    assert (Hlen : len (queue (apply_updates (markUnknown r s) s))
                   = if autoRepeatUnknown s then len (queue s) + 1
                     else len (queue s)).
    { rewrite Hq. destruct (autoRepeatUnknown s); [|reflexivity].
      apply splice_insert_length. }
    apply Hmono; unfold total; rewrite ?Hlen, ?Hidx;
      destruct (Z.ltb_spec (idx s) (len (queue s) - 1));
      destruct (autoRepeatUnknown s); try nia.
    all: destruct Hcase; try discriminate; nia.
Qed.

Lemma progress_never_goes_back_witness :
  progress second_of_3 <= progress (dispatch next second_of_3)
  /\ progress (dispatch prev second_of_3) <= progress second_of_3.
Proof.
  assert (Hi : 0 <= idx second_of_3 < total second_of_3) by now vm_compute.
  destruct (progress_never_goes_back one_half second_of_3 Hi)
    as (_ & Hn & Hp & _).
  split; [exact Hn|exact Hp].
Defined.

(** On the last card the unknown button with the repeat option on lets the
    queue grow under a cursor that stays: there the value does go down. *)
Lemma progress_drops_on_the_last_card :
  let s := mkState (deck_of 3) (identity_queue 3) 2 false [] [] true false
                   false true [] false in
  progress s = 67 /\ progress (dispatch (markUnknown one_half) s) = 50.
Proof. now vm_compute. Qed.

(** ** The card on screen *)

Lemma step_land rnd ev app : step rnd ev app = land (updates_of rnd ev app) app.
Proof. reflexivity. Qed.

Lemma land_synced us app : synced app -> synced (land us app).
Proof.
  intros (Hst & Hidx & Hq). unfold synced, land. cbn [view listener].
  destruct (eqb_spec (started (apply_updates us (view app))) (started (listener app)))
    as [Hs|Hs]; cbn [negb orb]; [|easy].
  destruct (Z.eqb_spec (idx (apply_updates us (view app))) (idx (listener app)))
    as [Hi|Hi]; cbn [negb orb]; [|easy].
  destruct (touches_queue us) eqn:Htq; [easy|].
  repeat split; try congruence.
  rewrite untouched_queue by assumption. congruence.
Qed.

Lemma well_formed_deck_formed s : well_formed s -> deck_formed s.
Proof. intros (H1 & H2 & H3 & _ & _ & H6 & H7 & H8). now repeat split. Qed.

(** The card under the cursor of a session that fits its deck. *)
Lemma deck_formed_card s : deck_formed s -> card_of s s.
Proof.
  intros (_ & Hrows & _). unfold card_of.
  destruct (Z_lt_le_dec (currentIndex s) 0) as [|Hpos]; [now left|right].
  destruct (current_card_position s Hpos) as (_ & Hcur).
  rewrite Forall_forall in Hrows. apply Hrows.
  eapply list_elem_of_lookup_2. exact Hcur.
Qed.

Lemma card_of_synced c v :
  idx c = idx v -> queue c = queue v -> deck_formed v -> card_of v c.
Proof.
  intros Hi Hq Hv. pose proof (deck_formed_card v Hv) as H.
  unfold card_of, currentIndex in *. now rewrite Hi, Hq.
Qed.

Lemma tame_same v s' :
  deck_formed v -> (started v = false -> idx v = 0) ->
  rawRows s' = rawRows v -> queue s' = queue v -> idx s' = idx v ->
  known s' = known v -> unknown s' = unknown v -> started s' = started v ->
  tame v s'.
Proof.
  unfold tame, deck_formed, row_index. intros H H0 Hr Hq Hi Hk Hu Hs.
  now rewrite Hr, Hq, Hi, Hk, Hu, Hs.
Qed.

(** One operation of the engine, queued by a render [c] whose card is a row
    of the deck, on a started session. *)
Lemma tame_operation r c v op :
  op = [] \/ op = next c \/ op = prev c \/ op = markKnown c
  \/ op = markUnknown r c ->
  card_of v c -> deck_formed v -> started v = true ->
  tame v (apply_updates op v).
Proof.
  intros Hop Hcard Hv Hst.
  assert (Hkeep : forall s',
            rawRows s' = rawRows v -> started s' = started v ->
            Forall (row_index v) (queue s') ->
            (forall x, In x (queue v) -> In x (queue s')) ->
            Forall (row_index v) (known s') ->
            Forall (row_index v) (unknown s') -> tame v s').
  { intros s' Hr Hs Hq Hall Hk Hu. destruct Hv as (H1 & H2 & H3 & H4 & H5 & H6).
    unfold tame, deck_formed, row_index in *. rewrite Hr, Hs, Hst.
    repeat split; auto; discriminate. }
  pose proof Hv as (_ & Hq & _ & Hk & Hu & _).
  destruct Hop as [->|[->|[->|[->| ->]]]].
  - apply Hkeep; auto.
  - destruct (next_on c v) as (Hr' & Hq' & Hk' & Hu' & Hs' & _).
    apply Hkeep; rewrite ?Hq', ?Hk', ?Hu'; auto.
  - destruct (prev_on c v) as (Hr' & Hq' & Hk' & Hu' & Hs' & _).
    apply Hkeep; rewrite ?Hq', ?Hk', ?Hu'; auto.
  - destruct Hcard as [Hneg|Hrow].
    { destruct (no_card_no_updates r c Hneg) as [-> _]. apply Hkeep; auto. }
    destruct (markKnown_on c v (proj1 Hrow)) as (Hr' & Hq' & Hs' & Hk' & Hu' & _).
    apply Hkeep; rewrite ?Hq', ?Hk', ?Hu'; auto.
    + destruct (includes _ _); [assumption|]. apply Forall_app.
      split; [assumption|]. constructor; [exact Hrow|constructor].
    + destruct (autoRepeatUnknown c); [|assumption].
      unfold remove_all. rewrite Forall_forall in *. intros x Hx.
      apply Hu. apply list_elem_of_In in Hx. apply filter_In in Hx as [Hx _].
      now apply list_elem_of_In.
  - destruct Hcard as [Hneg|Hrow].
    { destruct (no_card_no_updates r c Hneg) as [_ ->]. apply Hkeep; auto. }
    destruct (markUnknown_on r c v (proj1 Hrow))
      as (Hr' & Hs' & Hk' & Hu' & Hq' & _).
    apply Hkeep; rewrite ?Hq', ?Hk', ?Hu'; auto.
    + destruct (autoRepeatUnknown c); [|assumption].
      rewrite Forall_forall in *. intros x Hx. apply list_elem_of_In in Hx.
      apply splice_insert_In in Hx as [->|Hx]; [exact Hrow|].
      apply Hq. now apply list_elem_of_In.
    + intros x Hx. destruct (autoRepeatUnknown c); [|assumption].
      apply splice_insert_In. now right.
    + destruct (includes _ _); [assumption|]. apply Forall_app.
      split; [assumption|]. constructor; [exact Hrow|constructor].
Qed.

(** A flip, and then one operation. *)
Lemma tame_flip_operation r c v fl op :
  fl = [] \/ fl = toggleFlip c ->
  op = [] \/ op = next c \/ op = prev c \/ op = markKnown c
  \/ op = markUnknown r c ->
  card_of v c -> deck_formed v -> (started v = false -> idx v = 0) ->
  started v = true ->
  tame v (apply_updates (fl ++ op) v).
Proof.
  intros Hfl Hop Hcard Hv H0 Hst. rewrite apply_updates_app.
  destruct Hfl as [-> | ->]; [now apply (tame_operation r c)|].
  destruct (toggleFlip_on c v) as (Hr & Hq & Hi & Hk & Hu & Hs & _).
  set (v1 := apply_updates (toggleFlip c) v) in *.
  assert (H1 : tame v v1) by now apply tame_same.
  destruct H1 as (Hv1 & _ & _).
  assert (Hcard1 : card_of v1 c).
  { unfold card_of, row_index in *. now rewrite Hr. }
  destruct (tame_operation r c v1 op Hop Hcard1 Hv1) as (Ha & Hb & Hc);
    [congruence|].
  split; [exact Ha|split; [exact Hb|]]. intros Hs'. rewrite (Hc Hs'). exact Hr.
Qed.

Lemma mounted_started s : mounted s = true -> started s = true /\ rawRows s <> [].
Proof.
  unfold mounted. intros H. apply andb_prop in H as [Hd Hs].
  split; [exact Hs|]. intros Hnil. now rewrite Hnil in Hd.
Qed.

Lemma tame_key r e c v :
  started c = started v -> idx c = idx v -> queue c = queue v ->
  deck_formed v -> (started v = false -> idx v = 0) ->
  tame v (apply_updates (onKey r e c) v).
Proof.
  intros Hs Hi Hq Hv H0.
  assert (Hst : started v = true \/ started v = false)
    by (destruct (started v); auto).
  destruct Hst as [Hst|Hst].
  - destruct (onKey_shape r e c) as (fl & op & Hfl & Hop & ->).
    apply (tame_flip_operation r c); try assumption.
    now apply card_of_synced.
  - unfold onKey. rewrite Hs, Hst. cbn [negb apply_updates fold_left].
    apply tame_same; auto.
Qed.

Lemma tame_card_click rnd c k v :
  on_card c = true -> card_of v k -> deck_formed v ->
  (started v = false -> idx v = 0) -> started v = true ->
  tame v (apply_updates (onClick rnd c k) v).
Proof.
  intros Hc Hcard Hv H0 Hst.
  destruct c; try discriminate Hc; cbn [onClick].
  - rewrite <- (app_nil_r (toggleFlip k)).
    apply (tame_flip_operation (rnd 0%nat) k); auto.
  - apply (tame_operation (rnd 0%nat) k); auto.
  - apply (tame_operation (rnd 0%nat) k); auto 6.
  - apply (tame_operation (rnd 0%nat) k); auto 6.
  - apply (tame_operation (rnd 0%nat) k); auto.
Qed.

(** A reset for a deck of [n] rows. *)
Lemma tame_reset v s' n :
  len (rawRows s') = Z.of_nat n -> Z.of_nat n < 2 ^ 32 ->
  queue s' ≡ₚ identity_queue n -> idx s' = 0 -> known s' = [] ->
  unknown s' = [] -> started s' = false ->
  tame v s'.
Proof.
  intros Hn Hsize Hperm Hi Hk Hu Hs. split; [|split].
  - apply well_formed_deck_formed. now apply (well_formed_reset _ n).
  - intros _. exact Hi.
  - rewrite Hs. discriminate.
Qed.

Lemma tame_page_click rnd c v :
  on_card c = false -> fair rnd -> admissible (Click c) ->
  deck_formed v -> (started v = false -> idx v = 0) ->
  rendered v c = true ->
  tame v (apply_updates (onClick rnd c v) v).
Proof.
  intros Hc Hfair Hadm Hv H0 Hrend. pose proof Hv as (Hsize & _).
  destruct c; try discriminate Hc; clear Hc.
  - destruct (resetSession_on rnd (length (rawRows v)) v v)
      as (Hr & Hq & Hi & Hk & Hu & Hs & _).
    cbn [onClick]. apply (tame_reset _ _ (length (rawRows v))); try assumption.
    + now rewrite Hr.
    + rewrite Hq. now apply resetSession_queue.
  - destruct (loadStudySet_on rnd set v v)
      as (Hr & Hq & Hi & Hk & Hu & Hs & _).
    cbn [onClick]. cbn in Hadm.
    assert (Hn : length (loaded_rows set) = length (questions set))
      by apply length_map.
    apply (tame_reset _ _ (length (loaded_rows set))); try assumption.
    + now rewrite Hr.
    + unfold len in Hadm. lia.
    + rewrite Hq. apply resetSession_queue; [assumption|].
      unfold len in Hadm. lia.
  - destruct (handleFiles_on rnd records v v)
      as (Hr & Hq & Hi & Hk & Hu & Hs & _).
    cbn [onClick]. cbn in Hadm.
    pose proof (normalizeRecords_length records) as Hlen. unfold len in Hadm.
    apply (tame_reset _ _ (length (normalizeRecords records))); try assumption.
    + now rewrite Hr.
    + lia.
    + rewrite Hq. apply (resetSession_queue rnd _ initial); [assumption|lia].
  - apply tame_same; try assumption; now destruct v.
  - apply tame_same; try assumption; now destruct v.
  - apply tame_same; try assumption; now destruct v.
  - cbn in Hrend. apply andb_prop in Hrend as [Hdeck Hns].
    destruct (startSession_on v v) as (Hr & Hq & Hi & Hk & Hu & Hs).
    cbn [onClick]. destruct Hv as (H1 & H2 & H3 & H4 & H5 & H6).
    unfold tame, deck_formed, row_index in *. rewrite Hr, Hq, Hk, Hu, Hs.
    repeat split; try assumption; try discriminate.
    intros _ Hnil. rewrite Hnil in Hdeck. discriminate.
  - destruct (session_shuffle_on rnd v) as (Hr & Hq & Hi & Hk & Hu & Hs).
    apply (tame_reset _ _ (length (rawRows v))); try assumption.
    + now rewrite Hr.
    + rewrite Hq. now apply resetSession_queue.
  - apply tame_same; try assumption; now destruct v.
  - apply tame_same; try assumption; now destruct v.
Qed.

(** The card on screen after a render is a card of the deck. *)
Lemma shown_ok v k s' :
  tame v s' ->
  (mounted v = true -> rawRows k = rawRows v /\ card_of v k) ->
  mounted s' = true ->
  rawRows (shown v k s') = rawRows s' /\ card_of s' (shown v k s').
Proof.
  intros (Hs' & _ & Hdeck) Hk Hm'. unfold shown.
  destruct (mounted v) eqn:Hm; cbn [andb];
    [|split; [reflexivity|now apply deck_formed_card]].
  rewrite Hm'. cbn [andb].
  destruct (same_key s' k); cbn [negb];
    [split; [reflexivity|now apply deck_formed_card]|].
  destruct (Hk eq_refl) as [Hr Hc].
  destruct (mounted_started s' Hm') as [Hst _].
  rewrite (Hdeck Hst). split; [exact Hr|].
  unfold card_of, row_index in *. now rewrite (Hdeck Hst).
Qed.

Lemma tame_screen_updates rnd ev scr :
  fair rnd -> admissible ev -> screen_ok scr ->
  tame (view (page scr))
       (apply_updates (screen_updates rnd ev scr) (view (page scr))).
Proof.
  intros Hfair Hadm (Hsync & Hv & H0 & Hcard). cbv zeta in *.
  destruct Hsync as (Hs & Hi & Hq).
  assert (Hstay : tame (view (page scr)) (view (page scr)))
    by now apply tame_same.
  destruct ev as [c|e]; cbn [screen_updates updates_of].
  - destruct (on_card c) eqn:Hc.
    + destruct (mounted (view (page scr))) eqn:Hm; cbn [andb]; [|exact Hstay].
      destruct (enabled (card scr) c); [|exact Hstay].
      destruct (Hcard eq_refl) as [_ Hk].
      destruct (mounted_started _ Hm) as [Hst _].
      now apply tame_card_click.
    + destruct (rendered (view (page scr)) c) eqn:Hrend; [|exact Hstay].
      now apply tame_page_click.
  - now apply tame_key.
Qed.

Lemma screen_step_ok rnd sev scr :
  fair rnd -> admissible_on_screen sev -> screen_ok scr ->
  screen_ok (screen_step rnd sev scr).
Proof.
  intros Hfair Hadm Hok. pose proof Hok as (Hsync & Hv & H0 & Hcard).
  cbv zeta in *.
  destruct sev as [ev| | |value]; cbn [screen_step].
  - pose proof (tame_screen_updates rnd ev scr Hfair Hadm Hok) as Ht.
    unfold screen_ok. cbn [page card]. cbv zeta.
    change (view (land (screen_updates rnd ev scr) (page scr)))
      with (apply_updates (screen_updates rnd ev scr) (view (page scr))).
    split; [now apply land_synced|]. pose proof Ht as (Ha & Hb & _).
    split; [exact Ha|]. split; [exact Hb|]. now apply shown_ok.
  - unfold screen_ok. cbn [page card]. cbv zeta.
    split; [exact Hsync|split; [exact Hv|split; [exact H0|]]].
    intros _. split; [reflexivity|now apply deck_formed_card].
  - assert (Ht : tame (view (page scr)) (view (toggleSavedSets (page scr)))).
    { apply tame_same; try assumption; unfold toggleSavedSets; cbn [view];
        now destruct (view (page scr)). }
    unfold screen_ok. cbn [page card]. cbv zeta.
    split; [|split; [apply Ht|split; [apply Ht|now apply shown_ok]]].
    destruct Hsync as (Hs & Hi & Hq). unfold toggleSavedSets, synced.
    cbn [view listener]. now destruct (view (page scr)).
  - assert (Ht : tame (view (page scr)) (view (typeTitle value (page scr)))).
    { unfold typeTitle. destruct (_ =? _)%nat; [now apply tame_same|].
      apply tame_same; try assumption; cbn [view]; now destruct (view (page scr)). }
    unfold screen_ok. cbn [page card]. cbv zeta.
    split; [|split; [apply Ht|split; [apply Ht|now apply shown_ok]]].
    destruct Hsync as (Hs & Hi & Hq). unfold typeTitle.
    destruct (_ =? _)%nat; [now repeat split|]. unfold synced.
    cbn [view listener]. now destruct (view (page scr)).
Qed.

Lemma on_screen_ok scr : on_screen scr -> screen_ok scr.
Proof.
  induction 1 as [|rnd sev scr Hfair Hadm _ IH].
  - unfold screen_ok. cbn [page card view mount]. cbv zeta.
    split; [now cbv|]. split; [|split; [reflexivity|discriminate]].
    apply well_formed_deck_formed, initial_well_formed.
  - now apply screen_step_ok.
Qed.

(** With no card leaving, a click runs on the latest render. *)
Lemma screen_updates_latest rnd ev app :
  screen_updates rnd ev (mkScreen app (view app)) = updates_of rnd ev app.
Proof.
  destruct ev as [c|e]; [|reflexivity]. cbn [screen_updates updates_of page card].
  destruct c; cbn [on_card]; try reflexivity;
    unfold mounted, enabled, rendered; now rewrite ?andb_true_r.
Qed.

(** A page reached with every click on the latest render is on screen, with
    no card leaving. *)
Lemma fairly_reachable_on_screen app :
  fairly_reachable app -> on_screen (mkScreen app (view app)).
Proof.
  induction 1 as [|rnd ev app Hfair Hadm _ IH|app _ IH|value app _ IH].
  - apply on_mount.
  - assert (Heq : mkScreen (step rnd ev app) (view (step rnd ev app))
                  = screen_step rnd ExitComplete
                      (screen_step rnd (Input ev) (mkScreen app (view app)))).
    { cbn [screen_step page]. now rewrite screen_updates_latest. }
    rewrite Heq. apply on_step; [assumption|exact I|].
    now apply on_step.
  - apply (on_step zero_source ExitComplete
             (screen_step zero_source SavedSetsButton (mkScreen app (view app))));
      [apply zero_source_fair|exact I|].
    apply on_step; [apply zero_source_fair|exact I|exact IH].
  - apply (on_step zero_source ExitComplete
             (screen_step zero_source (TitleInput value)
                (mkScreen app (view app))));
      [apply zero_source_fair|exact I|].
    apply on_step; [apply zero_source_fair|exact I|exact IH].
Qed.

Lemma sample_screens :
  on_screen on_first_card /\ on_screen leaving_first /\ on_screen overshot.
Proof.
  assert (H1 : on_screen on_first_card).
  { repeat (apply on_step; [apply zero_source_fair|now cbn|]). apply on_mount. }
  assert (H2 : on_screen leaving_first).
  { do 2 (apply on_step; [apply zero_source_fair|now cbn|]). exact H1. }
  repeat split; try assumption.
  apply on_step; [apply zero_source_fair|now cbn|exact H2].
Qed.

Lemma deck_formed_length s : deck_formed s -> len (rawRows s) <= len (queue s).
Proof.
  intros (_ & _ & Hall & _).
  assert (Hle : (length (identity_queue (length (rawRows s)))
                 <= length (queue s))%nat).
  { apply NoDup_incl_length.
    - apply NoDup_ListNoDup, identity_queue_NoDup.
    - intros v Hv. apply Hall. now apply identity_queue_In. }
  unfold identity_queue in Hle. rewrite length_map, length_seq in Hle.
  unfold len. lia.
Qed.

(** X4: on every screen the app reaches, clicks on a leaving card
    included, each queue entry is a row of the deck and each row of the
    deck is somewhere in the queue, so the queue is at least as long as the
    deck, and an unstarted session is on its first entry.  As long as every
    click ran on the latest render the cursor is a position of the queue as
    well (0 for an empty queue); three clicks on the next button of the
    first card of three, which is leaving from the first click on, put it
    behind the last entry. *)
Theorem session_fits_deck :
  (forall scr, on_screen scr ->
     let s := view (page scr) in
     Forall (fun v => 0 <= v < len (rawRows s)) (queue s)
     /\ (forall v, 0 <= v < len (rawRows s) -> In v (queue s))
     /\ len (rawRows s) <= len (queue s)
     /\ (started s = false -> idx s = 0))
  /\ (forall app, fairly_reachable app ->
     let s := view app in
     on_screen (mkScreen app s)
     /\ 0 <= idx s
     /\ (idx s < len (queue s) \/ idx s = 0 /\ queue s = []))
  /\ (on_screen overshot
      /\ idx (view (page overshot)) = len (queue (view (page overshot)))).
Proof.
  split; [|split].
  - intros scr Hscr. cbv zeta.
    destruct (on_screen_ok scr Hscr) as (_ & Hv & H0 & _). cbv zeta in *.
    pose proof (deck_formed_length _ Hv) as Hlen.
    destruct Hv as (_ & Hrows & Hall & _). now repeat split.
  - intros app Hreach. cbv zeta.
    split; [now apply fairly_reachable_on_screen|].
    now destruct (fairly_reachable_well_formed app Hreach)
      as (_ & _ & _ & Hidx & Hin & _).
  - split; [apply sample_screens|reflexivity].
Qed.

Lemma session_fits_deck_witness :
  on_screen overshot
  /\ len (rawRows (view (page overshot))) <= len (queue (view (page overshot)))
  /\ fairly_reachable at_last_card
  /\ 0 <= idx (view at_last_card).
Proof.
  destruct session_fits_deck as (Hscr & Hfair & Hover & _).
  destruct (Hscr overshot Hover) as (_ & _ & Hlen & _).
  destruct (Hfair at_last_card sample_run_fair) as (_ & Hidx & _).
  repeat split; try assumption. exact sample_run_fair.
Defined.

(** The card of a render whose current index is a row of its deck. *)
Lemma card_is_a_row c :
  card_of c c ->
  (currentCard c = NoCard /\ currentIndex c < 0)
  \/ exists base, In base (rawRows c) /\ 0 <= currentIndex c
       /\ currentCard c
          = ShownCard (if reverse c then mkQA (a base) (q base) else base).
Proof.
  unfold card_of, row_index, currentCard. intros [Hneg|Hrow].
  - left. destruct (Z.ltb_spec (currentIndex c) 0); [now split|lia].
  - right. destruct (Z.ltb_spec (currentIndex c) 0); [lia|].
    destruct (lookup_lt_is_Some_2 (rawRows c) (Z.to_nat (currentIndex c)))
      as [base Hbase]; [unfold len in Hrow; lia|].
    exists base. unfold at_index.
    destruct (Z.ltb_spec (currentIndex c) 0); [lia|]. rewrite Hbase.
    repeat split; [|lia].
    apply list_elem_of_In. eapply list_elem_of_lookup_2. exact Hbase.
Qed.

(** X5: on every screen the app reaches, clicks on a leaving card
    included, [currentCard] is [null] or a row of the deck (question and
    answer exchanged when [reverse] is on): it never reads a row the deck
    does not have, neither in the latest render nor in the render a leaving
    card was built from.  It is [null] for an empty deck and a card whenever
    the cursor is a position of the queue; as long as every click ran on
    the latest render it is a card whenever the deck is not empty. *)
Theorem current_card_is_a_row :
  (forall scr, on_screen scr ->
     let s := view (page scr) in
     (currentCard s = NoCard
      \/ exists base, In base (rawRows s)
           /\ currentCard s
              = ShownCard (if reverse s then mkQA (a base) (q base) else base))
     /\ (rawRows s = [] -> currentCard s = NoCard)
     /\ (0 <= idx s < len (queue s) -> currentCard s <> NoCard)
     /\ currentCard s <> CardError /\ currentCard s <> UndefinedCard
     /\ (mounted s = true ->
         currentCard (card scr) <> CardError
         /\ currentCard (card scr) <> UndefinedCard))
  /\ (forall app, fairly_reachable app ->
     rawRows (view app) <> [] -> currentCard (view app) <> NoCard).
Proof.
  split.
  - intros scr Hscr. cbv zeta.
    destruct (on_screen_ok scr Hscr) as (_ & Hv & _ & Hcard). cbv zeta in *.
    set (s := view (page scr)) in *.
    pose proof (card_is_a_row s (deck_formed_card s Hv)) as Hrow.
    split; [|split; [|split; [|split; [|split]]]].
    + destruct Hrow as [[Hno _]|(base & Hin & _ & Heq)]; [now left|right].
      now exists base.
    + intros Hnil. destruct Hrow as [[Hno _]|(base & Hin & _)]; [exact Hno|].
      rewrite Hnil in Hin. destruct Hin.
    + intros Hidx. destruct Hrow as [[_ Hneg]|(base & _ & _ & ->)];
        [exfalso|discriminate].
      destruct Hv as (_ & Hrows & _).
      destruct (lookup_lt_is_Some_2 (queue s) (Z.to_nat (idx s))) as [v Hq];
        [unfold len in Hidx; lia|].
      assert (Hcur : currentIndex s = v).
      { unfold currentIndex, at_index. destruct (Z.ltb_spec (idx s) 0); [lia|].
        now rewrite Hq. }
      rewrite Forall_forall in Hrows.
      assert (Hv' : row_index s v)
        by (apply Hrows; eapply list_elem_of_lookup_2; exact Hq).
      unfold row_index in Hv'. lia.
    + destruct Hrow as [[-> _]|(base & _ & _ & ->)]; discriminate.
    + destruct Hrow as [[-> _]|(base & _ & _ & ->)]; discriminate.
    + intros Hm. destruct (Hcard Hm) as [Hr Hc].
      assert (Hc' : card_of (card scr) (card scr)).
      { unfold card_of, row_index in *. now rewrite Hr. }
      destruct (card_is_a_row _ Hc') as [[-> _]|(base & _ & _ & ->)];
        split; discriminate.
  - intros app Hreach Hdeck.
    pose proof (fairly_reachable_well_formed app Hreach) as Hwf.
    destruct (well_formed_card _ Hwf Hdeck) as (base & Hbase & Hpos & _).
    unfold currentCard. destruct (Z.ltb_spec (currentIndex (view app)) 0); [lia|].
    rewrite Hbase. discriminate.
Qed.

Lemma current_card_is_a_row_witness :
  on_screen overshot /\ currentCard (view (page overshot)) = NoCard
  /\ currentCard (view at_last_card) <> NoCard.
Proof.
  destruct current_card_is_a_row as (Hscr & Hfair).
  destruct sample_screens as (_ & _ & Hover).
  split; [exact Hover|]. split; [reflexivity|].
  apply (Hfair at_last_card sample_run_fair).
  intros Hnil. apply (f_equal (@length QA)) in Hnil. vm_compute in Hnil.
  discriminate.
Defined.

(** X10: the arrow keys are never out of date: on every screen the app
    reaches with a started session and a deck, clicks on a leaving card
    included, ArrowRight gives the page that [next] of the latest render
    gives and ArrowLeft the page that [prev] of the latest render gives,
    although [onKey] is memoized on [started], [idx] and [queue] only.  So
    a key does what a click on the button does whenever the card on screen
    is the one of the latest render; the button of a leaving card runs the
    [next] of an earlier render and can move the cursor where the key does
    not. *)
Theorem arrow_keys_match_buttons rnd scr :
  on_screen scr ->
  started (view (page scr)) = true -> rawRows (view (page scr)) <> [] ->
  let v := view (page scr) in
  page (screen_step rnd (Input (KeyDown key_right)) scr)
  = land (next v) (page scr)
  /\ page (screen_step rnd (Input (KeyDown key_left)) scr)
     = land (prev v) (page scr)
  /\ (card scr = v ->
      screen_step rnd (Input (KeyDown key_right)) scr
      = screen_step rnd (Input (Click NextButton)) scr
      /\ screen_step rnd (Input (KeyDown key_left)) scr
         = screen_step rnd (Input (Click PrevButton)) scr)
  /\ (idx (view (page leaving_first)) = 2
      /\ page (screen_step zero_source (Input (KeyDown key_right)) leaving_first)
         = page leaving_first
      /\ idx (view (page (screen_step zero_source (Input (Click NextButton))
                            leaving_first))) = 3).
Proof.
  intros Hscr Hst Hdeck. cbv zeta.
  destruct (on_screen_ok scr Hscr) as ((Hs & Hi & Hq) & _).
  assert (Hm : mounted (view (page scr)) = true).
  { unfold mounted. rewrite Hst. destruct (rawRows (view (page scr))); easy. }
  assert (Hright : screen_updates rnd (KeyDown key_right) scr
                   = next (view (page scr))).
  { cbn [screen_updates updates_of]. unfold onKey. rewrite Hs, Hst. cbn.
    rewrite app_nil_r. unfold next. now rewrite Hi, Hq. }
  assert (Hleft : screen_updates rnd (KeyDown key_left) scr
                  = prev (view (page scr))).
  { cbn [screen_updates updates_of]. unfold onKey. rewrite Hs, Hst. cbn.
    rewrite app_nil_r. unfold prev. now rewrite Hi. }
  split; [|split; [|split]].
  - cbn [screen_step page]. now rewrite Hright.
  - cbn [screen_step page]. now rewrite Hleft.
  - intros Hcard.
    assert (Hnext : screen_updates rnd (Click NextButton) scr
                    = next (view (page scr))).
    { cbn [screen_updates on_card onClick]. rewrite Hcard, Hm. cbn [andb enabled].
      unfold next.
      destruct (Z.ltb_spec (idx (view (page scr)))
                           (len (queue (view (page scr))) - 1));
        destruct (Z.leb_spec (len (queue (view (page scr))) - 1)
                             (idx (view (page scr)))); try lia; reflexivity. }
    assert (Hprev : screen_updates rnd (Click PrevButton) scr
                    = prev (view (page scr))).
    { cbn [screen_updates on_card onClick]. rewrite Hcard, Hm. cbn [andb enabled].
      unfold prev.
      destruct (Z.ltb_spec 0 (idx (view (page scr))));
        destruct (Z.eqb_spec (idx (view (page scr))) 0); try lia; reflexivity. }
    cbn [screen_step]. now rewrite Hright, Hleft, Hnext, Hprev.
  - now vm_compute.
Qed.

Lemma arrow_keys_match_buttons_witness :
  page (screen_step zero_source (Input (KeyDown key_right)) on_first_card)
  = land (next (view (page on_first_card))) (page on_first_card)
  /\ screen_step zero_source (Input (KeyDown key_right)) on_first_card
     = screen_step zero_source (Input (Click NextButton)) on_first_card.
Proof.
  destruct sample_screens as (Hfirst & _).
  assert (Hdeck : rawRows (view (page on_first_card)) <> []).
  { intros Hnil. apply (f_equal (@length QA)) in Hnil. vm_compute in Hnil.
    discriminate. }
  destruct (arrow_keys_match_buttons zero_source on_first_card Hfirst eq_refl
              Hdeck) as (Hkey & _ & Hsame & _).
  split; [exact Hkey|]. now apply Hsame.
Defined.

(** X22: on every screen the app reaches, clicks on a leaving card
    included, the position label reads k/n with n at least the size of the
    deck; it reads 0/n with a progress value of 0 before the session is
    started, and with the cursor on a position of the queue k is at most n
    and the progress value lies between 0 and 100.  As long as every click
    ran on the latest render, 0 <= k <= n, 1 <= k once the session has
    started, and the progress value lies between 0 and 100; three clicks on
    the next button of the first card of three, which is leaving from the
    first click on, make the label read 4/3. *)
Theorem header_stays_in_range :
  (forall scr, on_screen scr ->
     let s := view (page scr) in
     let '(k, n) := position_label s in
     len (rawRows s) <= n
     /\ (started s = false -> k = 0 /\ progress s = 0)
     /\ (0 <= idx s < len (queue s) ->
         0 <= k <= n /\ 0 <= progress s <= 100))
  /\ (forall app, fairly_reachable app ->
     let s := view app in
     let '(k, n) := position_label s in
     0 <= k <= n /\ (started s = true -> 1 <= k)
     /\ 0 <= progress s <= 100)
  /\ (on_screen overshot /\ position_label (view (page overshot)) = (4, 3)).
Proof.
  assert (Hprogress : forall s, 0 <= idx s < len (queue s) ->
                                0 <= progress s <= 100).
  { intros s Hidx. unfold progress, total.
    destruct (Z.eqb_spec (len (queue s)) 0); [lia|].
    now apply B64_facts.percent_range. }
  split; [|split].
  - intros scr Hscr. cbv zeta. unfold position_label.
    destruct (on_screen_ok scr Hscr) as (_ & Hv & H0 & _). cbv zeta in *.
    set (s := view (page scr)) in *.
    split; [now apply deck_formed_length|]. split.
    + intros Hs. rewrite Hs. split; [reflexivity|].
      apply progress_at_first_card. now apply H0.
    + intros Hidx. split; [destruct (started s); lia|now apply Hprogress].
  - intros app Hreach. cbv zeta. unfold position_label.
    set (s := view app).
    pose proof (fairly_reachable_well_formed app Hreach) as Hwf. fold s in Hwf.
    pose proof (deck_formed_length s (well_formed_deck_formed s Hwf)) as Hlen.
    destruct Hwf as (_ & _ & _ & Hidx & Hin & _ & _ & Hst).
    assert (Hpos : started s = true -> idx s < len (queue s)).
    { intros Hs. specialize (Hst Hs). unfold len in *.
      destruct (rawRows s); [easy|]. cbn [length] in Hlen. lia. }
    split; [|split].
    + pose proof (len_nonneg (queue s)).
      destruct (started s); [specialize (Hpos eq_refl)|]; lia.
    + intros Hs. rewrite Hs. lia.
    + destruct Hin as [Hlt|[Hi Hq]]; [apply Hprogress; lia|].
      unfold progress, total. now rewrite Hq.
  - split; [apply sample_screens|reflexivity].
Qed.

Lemma header_stays_in_range_witness :
  on_screen overshot
  /\ len (rawRows (view (page overshot))) <= 3
  /\ 0 <= progress (view at_last_card) <= 100.
Proof.
  destruct header_stays_in_range as (Hscr & Hfair & Hover & _).
  pose proof (Hscr overshot Hover) as H1.
  pose proof (Hfair at_last_card sample_run_fair) as H2.
  cbv zeta in H1, H2. unfold position_label in H1, H2.
  split; [exact Hover|]. split; [|apply H2].
  destruct H1 as (Hlen & _). exact Hlen.
Defined.
